(** * TS-404 synthesizer: voice engines, sequencer clock and pattern store

    A shallow embedding of

    - [src/synthesizer/WebAudioSynthesizer.ts] (module [WebAudio]),
    - [src/synthesizer/ToneSynthesizer.ts]     (module [Tone]),
    - [src/synthesizer/store.ts]                (module [Store]),
    - the sequencer playback effect of the [App] component (module [App];
      line numbers are those of the file that holds the component, which
      starts at its line 22), with its key, preset and patch handlers,
    - the step editor [Sequencer.tsx], the keys [Keyboard.tsx] and the
      knob [RotaryKnob.tsx] (modules [Sequencer], [Keyboard], [Controls]).

    Conventions.

    - A JavaScript [number] used as a quantity (a frequency, a time, a gain,
      a parameter) is a real number [R]; a MIDI note number, a step index
      and the identity of an object are integers.
    - Calls into the audio libraries are recorded, in program order, in a
      trace that is part of the engine state.  The libraries are taken not
      to throw, so the [catch] blocks of the engines, which only log or do
      nothing, are not entered.  The calls one [forEach] makes over a [Map]
      are listed in the order the finite map enumerates its entries.
    - [setTimeout] and [setInterval] register an entry in a table of pending
      timers; firing a timer is a transition of its own, which any pending
      timer can take.
    - A render of the component and the effects it triggers form one step,
      [App.commit], taken after every handler and timer callback. *)

From Stdlib Require Import ZArith List Reals Lra Lia Bool DecimalString.
From stdpp Require Import gmap list strings.

#[local] Open Scope Z_scope.

(** ** Pitch conversions (both engines have the same two methods) *)

Module Pitch.

(** [Math.log2]. *)
Definition log2 (x : R) : R := (ln x / ln 2)%R.

(** [Math.round]: the nearest integer, halves going up. *)
Definition round (x : R) : Z := Zfloor (x + / 2).

(** [midiNoteToFrequency]: [440 * Math.pow(2, (noteNumber - 69) / 12)]. *)
Definition midiNoteToFrequency (noteNumber : Z) : R :=
  (440 * Rpower 2 ((IZR noteNumber - 69) / 12))%R.

(** [frequencyToMidiNote]:
    [Math.round(69 + 12 * Math.log2(frequency / 440))]. *)
Definition frequencyToMidiNote (frequency : R) : Z :=
  round (69 + 12 * log2 (frequency / 440)).

End Pitch.

(** ** Parameter set (the [SynthesizerParams] interface of both engines) *)

Inductive OscillatorType := sine | triangle | sawtooth | square.
Inductive BiquadFilterType := lowpass | highpass | bandpass | notch.

Record SynthesizerParams := {
  oscillatorType : OscillatorType;
  frequency : R;
  volume : R;
  attack : R;
  decay : R;
  sustain : R;
  release : R;
  cutoff : R;
  resonance : R;
  filterType : BiquadFilterType;
  lfoRate : R;
  lfoAmount : R;
  detuneAmount : R;
  ringModAmount : R;
  wetness : R;
  coarseness : R
}.

(** [Partial<SynthesizerParams>]: every field may be absent. *)
Record PartialParams := {
  oscillatorType' : option OscillatorType;
  frequency' : option R;
  volume' : option R;
  attack' : option R;
  decay' : option R;
  sustain' : option R;
  release' : option R;
  cutoff' : option R;
  resonance' : option R;
  filterType' : option BiquadFilterType;
  lfoRate' : option R;
  lfoAmount' : option R;
  detuneAmount' : option R;
  ringModAmount' : option R;
  wetness' : option R;
  coarseness' : option R
}.

(** The object spread [{ ...base, ...upd }]. *)
Definition merge_params (base : SynthesizerParams) (upd : PartialParams)
  : SynthesizerParams :=
  {| oscillatorType := default (oscillatorType base) (oscillatorType' upd);
     frequency := default (frequency base) (frequency' upd);
     volume := default (volume base) (volume' upd);
     attack := default (attack base) (attack' upd);
     decay := default (decay base) (decay' upd);
     sustain := default (sustain base) (sustain' upd);
     release := default (release base) (release' upd);
     cutoff := default (cutoff base) (cutoff' upd);
     resonance := default (resonance base) (resonance' upd);
     filterType := default (filterType base) (filterType' upd);
     lfoRate := default (lfoRate base) (lfoRate' upd);
     lfoAmount := default (lfoAmount base) (lfoAmount' upd);
     detuneAmount := default (detuneAmount base) (detuneAmount' upd);
     ringModAmount := default (ringModAmount base) (ringModAmount' upd);
     wetness := default (wetness base) (wetness' upd);
     coarseness := default (coarseness base) (coarseness' upd) |}.

(** The parameter set both constructors install. *)
Definition constructor_params : SynthesizerParams :=
  {| oscillatorType := square; frequency := 440; volume := 0.3;
     attack := 0.1; decay := 0.2; sustain := 0.5; release := 0.3;
     cutoff := 4000; resonance := 1; filterType := lowpass;
     lfoRate := 5; lfoAmount := 0; detuneAmount := 0; ringModAmount := 0;
     wetness := 0.3; coarseness := 0.5 |}.

(** The update that sets [lfoAmount] only. *)
Definition only_lfoAmount (a : R) : PartialParams :=
  {| oscillatorType' := None; frequency' := None; volume' := None;
     attack' := None; decay' := None; sustain' := None; release' := None;
     cutoff' := None; resonance' := None; filterType' := None;
     lfoRate' := None; lfoAmount' := Some a; detuneAmount' := None;
     ringModAmount' := None; wetness' := None; coarseness' := None |}.

(** Comparisons of numbers, as booleans. *)
Definition Rltb (x y : R) : bool := if Rlt_dec x y then true else false.
Definition Reqb (x y : R) : bool := if Req_dec_T x y then true else false.

(** ** The engine of [WebAudioSynthesizer.ts] *)

Module WebAudio.

(** Audio nodes are identified by their creation number.  An [AudioParam]
    is a node together with the name of the parameter. *)
Inductive param_name := p_frequency | p_detune | p_Q | p_gain.

Inductive destination :=
| to_node (node : nat)
| to_param (node : nat) (p : param_name)
| to_context_destination.

(** The Web Audio calls the engine makes.  [holdValueAtTime g p t] stands
    for [p.setValueAtTime(p.value, t)]: the value written is the one the
    parameter has at the moment of the call. *)
Inductive call :=
| createOscillator (node : nat)
| createBiquadFilter (node : nat)
| createGain (node : nat)
| set_oscillator_type (node : nat) (ty : OscillatorType)
| set_filter_type (node : nat) (ty : BiquadFilterType)
| set_value (node : nat) (p : param_name) (v : R)
| setValueAtTime (node : nat) (p : param_name) (v t : R)
| holdValueAtTime (node : nat) (p : param_name) (t : R)
| linearRampToValueAtTime (node : nat) (p : param_name) (v t : R)
| cancelScheduledValues (node : nat) (p : param_name) (t : R)
| setTargetAtTime (node : nat) (p : param_name) (v t tau : R)
| connect (src : nat) (dst : destination)
| start (node : nat)
| stop (node : nat) (when : option R).

(** A pending [setTimeout] of [noteOff]: the delay in milliseconds and the
    note number its callback has captured. *)
Record timeout := { delay : R; forget : Z }.

Record state := {
  next_node : nat;
  trace : list call;
  oscillators : gmap Z nat;
  gains : gmap Z nat;
  filters : gmap Z nat;
  lfos : gmap Z nat;
  ringModOscillators : gmap Z nat;
  ringModGains : gmap Z (list nat);
  masterGain : nat;
  params : SynthesizerParams;
  activeNotes : gset Z;
  timeouts : list timeout
}.

(** [constructor]: the master gain is node 0. *)
Definition init : state :=
  {| next_node := 1;
     trace := [createGain 0; connect 0 to_context_destination];
     oscillators := ∅; gains := ∅; filters := ∅; lfos := ∅;
     ringModOscillators := ∅; ringModGains := ∅;
     masterGain := 0%nat;
     params := constructor_params;
     activeNotes := ∅;
     timeouts := [] |}.

Definition updateParams (upd : PartialParams) (s : state) : state :=
  {| next_node := next_node s; trace := trace s;
     oscillators := oscillators s; gains := gains s; filters := filters s;
     lfos := lfos s; ringModOscillators := ringModOscillators s;
     ringModGains := ringModGains s; masterGain := masterGain s;
     params := merge_params (params s) upd;
     activeNotes := activeNotes s; timeouts := timeouts s |}.

(** [noteOff].  [now] is [audioContext.currentTime] at the call. *)
Definition noteOff_calls (noteNumber : Z) (now : R) (s : state) : list call :=
  match gains s !! noteNumber, oscillators s !! noteNumber with
  | Some gain, Some osc =>
      [ cancelScheduledValues gain p_gain now;
        holdValueAtTime gain p_gain now;
        linearRampToValueAtTime gain p_gain 0 (now + release (params s));
        stop osc (Some (now + release (params s))%R) ]
  | _, _ => []
  end
  ++ match lfos s !! noteNumber with
     | Some lfo => [stop lfo None]
     | None => []
     end.

Definition noteOff (noteNumber : Z) (now : R) (s : state) : state :=
  {| next_node := next_node s;
     trace := trace s ++ noteOff_calls noteNumber now s;
     oscillators := oscillators s; gains := gains s; filters := filters s;
     lfos := delete noteNumber (lfos s);
     ringModOscillators := ringModOscillators s;
     ringModGains := ringModGains s; masterGain := masterGain s;
     params := params s;
     activeNotes := activeNotes s;
     timeouts := timeouts s ++
       [ {| delay := release (params s) * 1000 + 100;
            forget := noteNumber |} ] |}.

(** The callback of the timer [noteOff] registers. *)
Definition forget_note (noteNumber : Z) (s : state) : state :=
  {| next_node := next_node s; trace := trace s;
     oscillators := delete noteNumber (oscillators s);
     gains := delete noteNumber (gains s);
     filters := delete noteNumber (filters s);
     lfos := lfos s;
     ringModOscillators := ringModOscillators s;
     ringModGains := ringModGains s; masterGain := masterGain s;
     params := params s;
     activeNotes := activeNotes s ∖ {[ noteNumber ]};
     timeouts := timeouts s |}.

(** Firing the [k]-th pending timer: it leaves the table and its callback
    runs.  [None] when there is no such timer. *)
Definition fire (k : nat) (s : state) : option state :=
  match timeouts s !! k with
  | None => None
  | Some t =>
      Some (forget_note (forget t)
        {| next_node := next_node s; trace := trace s;
           oscillators := oscillators s; gains := gains s;
           filters := filters s; lfos := lfos s;
           ringModOscillators := ringModOscillators s;
           ringModGains := ringModGains s; masterGain := masterGain s;
           params := params s; activeNotes := activeNotes s;
           timeouts := take k (timeouts s) ++ drop (S k) (timeouts s) |})
  end.

(** [Math.max(...xs)]; [None] is the [-Infinity] of an empty argument list. *)
Definition Math_max (xs : list Z) : option Z :=
  foldr (fun x acc => Some (match acc with Some m => Z.max x m | None => x end))
        None xs.

(** The frequency a slide starts from (lines 77-81): half the target, or
    the frequency of the largest member of [activeNotes]. *)
Definition lastFrequency (frequency : R) (active : gset Z) : R :=
  if decide (0 < size active)%nat
  then match Math_max (elements active) with
       | Some lastNote => Pitch.midiNoteToFrequency lastNote
       | None => 0
       end
  else (frequency * 0.5)%R.

Definition ringMod_enabled (p : SynthesizerParams) : bool :=
  Rltb 0 (ringModAmount p) && Rltb (ringModAmount p) 1.

Definition lfo_enabled (p : SynthesizerParams) : bool :=
  Rltb 0 (lfoAmount p).

(** The nodes of one voice, numbered from [b] in the order of the source;
    a number is reserved for each optional node whether or not it is
    created. *)
Section Voice.
Variable b : nat.
Definition osc : nat := b.
Definition filter : nat := (b + 1)%nat.
Definition gainNode : nat := (b + 2)%nat.
Definition ringModOsc : nat := (b + 3)%nat.
Definition ringModCarrier : nat := (b + 4)%nat.
Definition ringModGain : nat := (b + 5)%nat.
Definition lfo : nat := (b + 6)%nat.
Definition lfoGain : nat := (b + 7)%nat.
End Voice.

Section Build.
Variables (p : SynthesizerParams) (active : gset Z) (master : nat).
Variables (noteNumber : Z) (velocity slideTime now : R) (b : nat).

Let frequency : R := Pitch.midiNoteToFrequency noteNumber.

(** Lines 69-92. *)
Definition oscillator_calls : list call :=
  [ createOscillator (osc b); set_oscillator_type (osc b) (oscillatorType p) ]
  ++ (if Rltb 0 slideTime
      then [ setValueAtTime (osc b) p_frequency
               (lastFrequency frequency active) now;
             linearRampToValueAtTime (osc b) p_frequency
               frequency (now + slideTime) ]
      else [ setValueAtTime (osc b) p_frequency frequency now ])
  ++ (if Reqb (detuneAmount p) 0 then []
      else [ set_value (osc b) p_detune (detuneAmount p) ]).

(** Lines 94-98. *)
Definition filter_calls : list call :=
  [ createBiquadFilter (filter b);
    set_filter_type (filter b) (filterType p);
    set_value (filter b) p_frequency (cutoff p);
    set_value (filter b) p_Q (resonance p) ].

(** Lines 100-112: the attack and decay segments of the envelope. *)
Definition envelope_calls : list call :=
  [ createGain (gainNode b);
    setValueAtTime (gainNode b) p_gain 0 now;
    linearRampToValueAtTime (gainNode b) p_gain
      (velocity * volume p) (now + attack p);
    linearRampToValueAtTime (gainNode b) p_gain
      (sustain p * velocity * volume p) (now + attack p + decay p) ].

(** Lines 114-144. *)
Definition ringMod_calls : list call :=
  if ringMod_enabled p
  then [ createOscillator (ringModOsc b);
         set_value (ringModOsc b) p_frequency (frequency * 1.5);
         set_oscillator_type (ringModOsc b) sine;
         createGain (ringModCarrier b);
         createGain (ringModGain b);
         set_value (ringModGain b) p_gain
           (Rmax 0 (Rmin 0.5 (ringModAmount p * 0.5)));
         connect (ringModOsc b) (to_node (ringModGain b));
         connect (ringModGain b) (to_param (ringModCarrier b) p_gain);
         connect (osc b) (to_node (filter b));
         connect (ringModCarrier b) (to_node (filter b));
         start (ringModOsc b) ]
  else [ connect (osc b) (to_node (filter b)) ].

(** Lines 146-159. *)
Definition lfo_calls : list call :=
  if lfo_enabled p
  then [ createOscillator (lfo b);
         set_value (lfo b) p_frequency (lfoRate p);
         createGain (lfoGain b);
         set_value (lfoGain b) p_gain (lfoAmount p * 100);
         connect (lfo b) (to_node (lfoGain b));
         connect (lfoGain b) (to_param (osc b) p_frequency);
         start (lfo b) ]
  else [].

(** Lines 161-169. *)
Definition output_calls : list call :=
  (if ringMod_enabled p then [] else [ connect (osc b) (to_node (filter b)) ])
  ++ [ connect (filter b) (to_node (gainNode b));
       connect (gainNode b) (to_node master);
       start (osc b) ].

Definition voice_calls : list call :=
  oscillator_calls ++ filter_calls ++ envelope_calls ++ ringMod_calls
  ++ lfo_calls ++ output_calls.
End Build.

(** Lines 63-65: the release of a note that is still in [activeNotes]. *)
Definition retrigger (noteNumber : Z) (now : R) (s : state) : state :=
  if decide (noteNumber ∈ activeNotes s) then noteOff noteNumber now s else s.

(** Lines 67-178, on the state [retrigger] leaves. *)
Definition build (noteNumber : Z) (velocity slideTime now : R) (s : state)
  : state :=
  let b := next_node s in
  {| next_node := (b + 8)%nat;
     trace := trace s ++
       voice_calls (params s) (activeNotes s) (masterGain s)
                   noteNumber velocity slideTime now b;
     oscillators := <[noteNumber := osc b]> (oscillators s);
     gains := <[noteNumber := gainNode b]> (gains s);
     filters := <[noteNumber := filter b]> (filters s);
     lfos := if lfo_enabled (params s)
             then <[noteNumber := lfo b]> (lfos s) else lfos s;
     ringModOscillators :=
       if ringMod_enabled (params s)
       then <[noteNumber := ringModOsc b]> (ringModOscillators s)
       else ringModOscillators s;
     ringModGains :=
       if ringMod_enabled (params s)
       then <[noteNumber := [ringModGain b; ringModCarrier b]]> (ringModGains s)
       else ringModGains s;
     masterGain := masterGain s;
     params := params s;
     activeNotes := {[ noteNumber ]} ∪ activeNotes s;
     timeouts := timeouts s |}.

Definition noteOn (noteNumber : Z) (velocity slideTime now : R) (s : state)
  : state :=
  build noteNumber velocity slideTime now (retrigger noteNumber now s).

Definition getActiveNotes (s : state) : list Z := elements (activeNotes s).

(** [updateFilterCutoff]. *)
Definition updateFilterCutoff (noteNumber : Z) (frequency now : R) (s : state)
  : state :=
  {| next_node := next_node s;
     trace := trace s ++
       match filters s !! noteNumber with
       | Some filter => [ setTargetAtTime filter p_frequency frequency now 0.01 ]
       | None => []
       end;
     oscillators := oscillators s; gains := gains s; filters := filters s;
     lfos := lfos s; ringModOscillators := ringModOscillators s;
     ringModGains := ringModGains s; masterGain := masterGain s;
     params := params s; activeNotes := activeNotes s;
     timeouts := timeouts s |}.

(** [setMasterVolume]. *)
Definition setMasterVolume (v : R) (s : state) : state :=
  {| next_node := next_node s;
     trace := trace s ++ [ set_value (masterGain s) p_gain (Rmax 0 (Rmin 1 v)) ];
     oscillators := oscillators s; gains := gains s; filters := filters s;
     lfos := lfos s; ringModOscillators := ringModOscillators s;
     ringModGains := ringModGains s; masterGain := masterGain s;
     params := params s; activeNotes := activeNotes s;
     timeouts := timeouts s |}.

(** [stopAllNotes].  The calls of one [forEach] are listed in the order
    the finite map enumerates its entries. *)
Definition mute (now : R) (gain : nat) : list call :=
  [ cancelScheduledValues gain p_gain now; setValueAtTime gain p_gain 0 now ].

Definition stopAll_calls (now : R) (s : state) : list call :=
  ((fun kv => stop kv.2 (Some now)) <$> map_to_list (oscillators s))
  ++ ((fun kv => stop kv.2 (Some now)) <$> map_to_list (ringModOscillators s))
  ++ ((fun kv => stop kv.2 None) <$> map_to_list (lfos s))
  ++ (map_to_list (gains s) ≫= fun kv => mute now kv.2)
  ++ (map_to_list (ringModGains s) ≫= fun kv => kv.2 ≫= mute now).

Definition stopAllNotes (now : R) (s : state) : state :=
  {| next_node := next_node s;
     trace := trace s ++ stopAll_calls now s;
     oscillators := ∅; gains := ∅; filters := ∅; lfos := ∅;
     ringModOscillators := ∅; ringModGains := ∅;
     masterGain := masterGain s;
     params := params s;
     activeNotes := ∅;
     timeouts := timeouts s |}.

(** Reading the trace.  An oscillator is released once a [stop] has been
    issued for it. *)
Definition is_release_of (node : nat) (c : call) : bool :=
  match c with
  | stop node' _ => Nat.eqb node node'
  | _ => false
  end.

Definition is_start_of (node : nat) (c : call) : bool :=
  match c with
  | start node' => Nat.eqb node node'
  | _ => false
  end.

Definition released (s : state) (node : nat) : bool :=
  existsb (is_release_of node) (trace s).

Definition started (s : state) (node : nat) : bool :=
  existsb (is_start_of node) (trace s).

(** The automation a list of calls puts on the frequency of [node]. *)
Definition on_frequency_of (node : nat) (c : call) : bool :=
  match c with
  | setValueAtTime node' p_frequency _ _
  | linearRampToValueAtTime node' p_frequency _ _
  | set_value node' p_frequency _ => Nat.eqb node node'
  | _ => false
  end.

Definition is_connect (src : nat) (dst : destination) (c : call) : bool :=
  match c with
  | connect src' (to_node d') =>
      match dst with
      | to_node d => Nat.eqb src src' && Nat.eqb d d'
      | _ => false
      end
  | _ => false
  end.

(** How many times [calls] connect [src] to the node [dst]. *)
Definition connections (src dst : nat) (calls : list call) : nat :=
  length (List.filter (is_connect src (to_node dst)) calls).

(** Node numbers in use lie below [next_node]. *)
Definition call_node (c : call) : nat :=
  match c with
  | createOscillator n | createBiquadFilter n | createGain n
  | set_oscillator_type n _ | set_filter_type n _ | set_value n _ _
  | setValueAtTime n _ _ _ | holdValueAtTime n _ _
  | linearRampToValueAtTime n _ _ _ | cancelScheduledValues n _ _
  | setTargetAtTime n _ _ _ _ | connect n _ | start n | stop n _ => n
  end.

(** The calls made on [node]. *)
Definition calls_on (node : nat) (calls : list call) : list call :=
  List.filter (fun c => Nat.eqb (call_node c) node) calls.

Definition well_formed (s : state) : Prop :=
  Forall (fun c => (call_node c < next_node s)%nat) (trace s)
  /\ (masterGain s < next_node s)%nat
  /\ (forall n o, oscillators s !! n = Some o -> (o < next_node s)%nat)
  /\ (forall n o, gains s !! n = Some o -> (o < next_node s)%nat)
  /\ (forall n o, filters s !! n = Some o -> (o < next_node s)%nat)
  /\ (forall n o, lfos s !! n = Some o -> (o < next_node s)%nat)
  /\ (forall n o, ringModOscillators s !! n = Some o -> (o < next_node s)%nat)
  /\ (forall n os, ringModGains s !! n = Some os ->
        Forall (fun o => (o < next_node s)%nat) os).

(** The public operations and the timer, as data. *)
Inductive operation :=
| UpdateParams (upd : PartialParams)
| NoteOn (noteNumber : Z) (velocity slideTime now : R)
| NoteOff (noteNumber : Z) (now : R)
| UpdateFilterCutoff (noteNumber : Z) (frequency now : R)
| SetMasterVolume (volume : R)
| StopAllNotes (now : R)
| TimerFires (k : nat).

Definition perform (o : operation) (s : state) : option state :=
  match o with
  | UpdateParams upd => Some (updateParams upd s)
  | NoteOn n v sl now => Some (noteOn n v sl now s)
  | NoteOff n now => Some (noteOff n now s)
  | UpdateFilterCutoff n f now => Some (updateFilterCutoff n f now s)
  | SetMasterVolume v => Some (setMasterVolume v s)
  | StopAllNotes now => Some (stopAllNotes now s)
  | TimerFires k => fire k s
  end.

Inductive reachable : state -> Prop :=
| reachable_init : reachable init
| reachable_perform o s s' :
    reachable s -> perform o s = Some s' -> reachable s'.

End WebAudio.

(** ** The engine of [ToneSynthesizer.ts] (the one [App.tsx] imports) *)

Module Tone.

(** Tone.js objects are identified by their creation number. *)
Inductive destination :=
| to_object (obj : nat)
| to_synth_frequency (synth : nat).

Inductive signal_name := s_frequency | s_Q | s_gain.

(** Options of [new Tone.LFO({frequency, min, max})]. *)
Record LFOOptions := { lfo_frequency : R; lfo_min : R; lfo_max : R }.

(** The Tone.js calls the engine makes. *)
Inductive call :=
| new_Gain (obj : nat) (gain : R)
| toDestination (obj : nat)
| new_Synth (obj : nat) (ty : OscillatorType) (a d s r : R)
| new_Filter (obj : nat) (freq : R) (ty : BiquadFilterType) (q : R)
| new_LFO (obj : nat) (opts : option LFOOptions)
| connect (src : nat) (dst : destination)
| lfo_start (obj : nat)
| lfo_stop (obj : nat)
| set_synth_frequency (synth : nat) (v : R)
| triggerAttack (synth : nat) (t : R)
| triggerRelease (synth : nat) (t : R)
| rampTo (obj : nat) (sig : signal_name) (v t : R)
| set_filter_type (obj : nat) (ty : BiquadFilterType)
| dispose (obj : nat).

(** [interface VoiceNode]. *)
Record VoiceNode := { synth : nat; filter : nat; lfo : nat }.

(** What a pending [setTimeout] will do: the callback of [noteOff] has
    captured the voice it releases; the callback of [stopAllNotes] reads
    [this.voices] when it runs. *)
Inductive callback :=
| dispose_voice (voice : VoiceNode)
| dispose_all_voices.

Record timeout := { delay : R; action : callback }.

Record state := {
  next_object : nat;
  trace : list call;
  voices : gmap Z VoiceNode;
  masterGain : nat;
  params : SynthesizerParams;
  activeNotes : gset Z;
  timeouts : list timeout
}.

(** [constructor]: the master gain is object 0. *)
Definition init : state :=
  {| next_object := 1;
     trace := [new_Gain 0 0.35; toDestination 0];
     voices := ∅;
     masterGain := 0%nat;
     params := constructor_params;
     activeNotes := ∅;
     timeouts := [] |}.

(** [_updateVoiceParams]. *)
Definition updateVoiceParams_calls (p : SynthesizerParams) (voice : VoiceNode)
  : list call :=
  [ rampTo (filter voice) s_frequency (cutoff p) 0.1;
    rampTo (filter voice) s_Q (resonance p) 0.1;
    set_filter_type (filter voice) (filterType p);
    rampTo (lfo voice) s_frequency (lfoRate p) 0.1 ].

(** [updateParams].  Here and below the calls of one [forEach] are listed
    in the order the finite map enumerates its entries. *)
Definition updateParams (upd : PartialParams) (s : state) : state :=
  let p := merge_params (params s) upd in
  {| next_object := next_object s;
     trace := trace s ++
       (map_to_list (voices s) ≫= fun kv => updateVoiceParams_calls p kv.2);
     voices := voices s; masterGain := masterGain s;
     params := p;
     activeNotes := activeNotes s; timeouts := timeouts s |}.

(** [noteOff].  [now] is [Tone.now()] at the call. *)
Definition release_calls (now : R) (voice : VoiceNode) : list call :=
  [ triggerRelease (synth voice) now; lfo_stop (lfo voice) ].

Definition noteOff (noteNumber : Z) (now : R) (s : state) : state :=
  match voices s !! noteNumber with
  | None => s
  | Some voice =>
      {| next_object := next_object s;
         trace := trace s ++ release_calls now voice;
         voices := delete noteNumber (voices s);
         masterGain := masterGain s;
         params := params s;
         activeNotes := activeNotes s ∖ {[ noteNumber ]};
         timeouts := timeouts s ++
           [ {| delay := release (params s) * 1000 + 100;
                action := dispose_voice voice |} ] |}
  end.

Definition dispose_calls (voice : VoiceNode) : list call :=
  [ dispose (synth voice); dispose (filter voice); dispose (lfo voice) ].

(** [stopAllNotes]: the maps are cleared by the timer it registers, not by
    the call (lines 182-194). *)
Definition stopAllNotes (now : R) (s : state) : state :=
  {| next_object := next_object s;
     trace := trace s ++
       (map_to_list (voices s) ≫= fun kv => release_calls now kv.2);
     voices := voices s; masterGain := masterGain s;
     params := params s;
     activeNotes := activeNotes s;
     timeouts := timeouts s ++
       [ {| delay := release (params s) * 1000 + 100;
            action := dispose_all_voices |} ] |}.

(** The two timer callbacks. *)
Definition run_callback (c : callback) (s : state) : state :=
  match c with
  | dispose_voice voice =>
      {| next_object := next_object s;
         trace := trace s ++ dispose_calls voice;
         voices := voices s; masterGain := masterGain s;
         params := params s; activeNotes := activeNotes s;
         timeouts := timeouts s |}
  | dispose_all_voices =>
      {| next_object := next_object s;
         trace := trace s ++
           (map_to_list (voices s) ≫= fun kv => dispose_calls kv.2);
         voices := ∅; masterGain := masterGain s;
         params := params s; activeNotes := ∅;
         timeouts := timeouts s |}
  end.

(** Firing the [k]-th pending timer: it leaves the table and its callback
    runs.  [None] when there is no such timer. *)
Definition fire (k : nat) (s : state) : option state :=
  match timeouts s !! k with
  | None => None
  | Some t =>
      Some (run_callback (action t)
        {| next_object := next_object s; trace := trace s;
           voices := voices s; masterGain := masterGain s;
           params := params s; activeNotes := activeNotes s;
           timeouts := take k (timeouts s) ++ drop (S k) (timeouts s) |})
  end.

Definition lfo_enabled (p : SynthesizerParams) : bool :=
  Rltb 0 (lfoAmount p).

(** The objects of one voice, numbered from [b]; the third one is the
    connected LFO or, when there is none, the [new Tone.LFO()] stored in
    its place (line 130). *)
Definition new_voice (b : nat) : VoiceNode :=
  {| synth := b; filter := (b + 1)%nat; lfo := (b + 2)%nat |}.

(** Lines 85-130.  [_velocity] and [_slideTime] are not used by the body. *)
Definition voice_calls (p : SynthesizerParams) (master : nat)
    (noteNumber : Z) (now : R) (b : nat) : list call :=
  let frequency := Pitch.midiNoteToFrequency noteNumber in
  let v := new_voice b in
  [ new_Synth (synth v) (oscillatorType p)
      (attack p) (decay p) (sustain p) (release p);
    new_Filter (filter v) (cutoff p) (filterType p) (resonance p);
    connect (synth v) (to_object (filter v));
    connect (filter v) (to_object master) ]
  ++ (if lfo_enabled p
      then [ new_LFO (lfo v)
               (Some {| lfo_frequency := lfoRate p;
                        lfo_min := frequency * 0.95;
                        lfo_max := frequency * 1.05 |});
             connect (lfo v) (to_synth_frequency (synth v));
             lfo_start (lfo v) ]
      else [])
  ++ [ set_synth_frequency (synth v) frequency;
       triggerAttack (synth v) now ]
  ++ (if lfo_enabled p then [] else [ new_LFO (lfo v) None ]).

(** Lines 81-83. *)
Definition retrigger (noteNumber : Z) (now : R) (s : state) : state :=
  if decide (noteNumber ∈ activeNotes s) then noteOff noteNumber now s else s.

Definition build (noteNumber : Z) (now : R) (s : state) : state :=
  let b := next_object s in
  {| next_object := (b + 3)%nat;
     trace := trace s ++
       voice_calls (params s) (masterGain s) noteNumber now b;
     voices := <[noteNumber := new_voice b]> (voices s);
     masterGain := masterGain s;
     params := params s;
     activeNotes := {[ noteNumber ]} ∪ activeNotes s;
     timeouts := timeouts s |}.

(** [noteOn].  The constructors of Tone.js are taken not to throw, so the
    [catch] branches, which only log, are not entered. *)
Definition noteOn (noteNumber : Z) (_velocity _slideTime now : R) (s : state)
  : state :=
  build noteNumber now (retrigger noteNumber now s).

(** [setMasterVolume]. *)
Definition setMasterVolume (v : R) (s : state) : state :=
  {| next_object := next_object s;
     trace := trace s ++ [ rampTo (masterGain s) s_gain (Rmax 0 (Rmin 1 v)) 0.1 ];
     voices := voices s; masterGain := masterGain s;
     params := params s; activeNotes := activeNotes s;
     timeouts := timeouts s |}.

(** Reading the trace.  A synth sounds from its [triggerAttack] until a
    [triggerRelease]. *)
Definition is_release_of (obj : nat) (c : call) : bool :=
  match c with
  | triggerRelease obj' _ => Nat.eqb obj obj'
  | _ => false
  end.

Definition is_attack_of (obj : nat) (c : call) : bool :=
  match c with
  | triggerAttack obj' _ => Nat.eqb obj obj'
  | _ => false
  end.

Definition is_dispose_of (obj : nat) (c : call) : bool :=
  match c with
  | dispose obj' => Nat.eqb obj obj'
  | _ => false
  end.

Definition released (s : state) (obj : nat) : bool :=
  existsb (is_release_of obj) (trace s).

Definition attacked (s : state) (obj : nat) : bool :=
  existsb (is_attack_of obj) (trace s).

Definition disposed (s : state) (obj : nat) : bool :=
  existsb (is_dispose_of obj) (trace s).

(** What a list of calls does to the frequency of [synth]. *)
Definition on_frequency_of (obj : nat) (c : call) : bool :=
  match c with
  | set_synth_frequency obj' _ | rampTo obj' s_frequency _ _ =>
      Nat.eqb obj obj'
  | _ => false
  end.

(** Object numbers in use lie below [next_object]. *)
Definition call_object (c : call) : nat :=
  match c with
  | new_Gain o _ | toDestination o | new_Synth o _ _ _ _ _
  | new_Filter o _ _ _ | new_LFO o _ | connect o _ | lfo_start o
  | lfo_stop o | set_synth_frequency o _ | triggerAttack o _
  | triggerRelease o _ | rampTo o _ _ _ | set_filter_type o _
  | dispose o => o
  end.

(** The calls made on [obj]. *)
Definition calls_on (obj : nat) (calls : list call) : list call :=
  List.filter (fun c => Nat.eqb (call_object c) obj) calls.

Definition voice_below (bound : nat) (v : VoiceNode) : Prop :=
  (synth v < bound)%nat /\ (filter v < bound)%nat /\ (lfo v < bound)%nat.

Definition well_formed (s : state) : Prop :=
  Forall (fun c => (call_object c < next_object s)%nat) (trace s)
  /\ (masterGain s < next_object s)%nat
  /\ (forall n v, voices s !! n = Some v -> voice_below (next_object s) v)
  /\ (forall t v, t ∈ timeouts s -> action t = dispose_voice v ->
        voice_below (next_object s) v).

(** The public operations and the timer, as data. *)
Inductive operation :=
| UpdateParams (upd : PartialParams)
| NoteOn (noteNumber : Z) (velocity slideTime now : R)
| NoteOff (noteNumber : Z) (now : R)
| SetMasterVolume (volume : R)
| StopAllNotes (now : R)
| TimerFires (k : nat).

Definition perform (o : operation) (s : state) : option state :=
  match o with
  | UpdateParams upd => Some (updateParams upd s)
  | NoteOn n v sl now => Some (noteOn n v sl now s)
  | NoteOff n now => Some (noteOff n now s)
  | SetMasterVolume v => Some (setMasterVolume v s)
  | StopAllNotes now => Some (stopAllNotes now s)
  | TimerFires k => fire k s
  end.

Inductive reachable : state -> Prop :=
| reachable_init : reachable init
| reachable_perform o s s' :
    reachable s -> perform o s = Some s' -> reachable s'.

End Tone.

(** ** The sequencer part of the store ([store.ts]) *)

Module Store.

(** [interface SequencerNote]; [note] 0 is a rest. *)
Record SequencerNote := {
  note : Z;
  velocity : R;
  duration : R;
  slide : bool;
  enabled : bool
}.

Definition step (n : Z) (v d : R) (sl en : bool) : SequencerNote :=
  {| note := n; velocity := v; duration := d; slide := sl; enabled := en |}.

(** A JavaScript array: a slot is an element or a hole. *)
Abbreviation array A := (list (option A)).

Definition of_list {A} (l : list A) : array A := Some <$> l.

(** [a[i] = x] for an integer [i]: inside the array the slot is replaced;
    at or beyond its end the array grows up to [i], leaving holes; a
    negative [i] names a property that is not an element. *)
Definition array_set {A} (a : array A) (i : Z) (x : A) : array A :=
  if decide (i < 0) then a
  else if decide (i < Z.of_nat (length a)) then <[Z.to_nat i := Some x]> a
  else a ++ replicate (Z.to_nat i - length a) None ++ [Some x].

(** [a[i]]: [None] is [undefined]. *)
Definition array_get {A} (a : array A) (i : Z) : option A :=
  if decide (i < 0) then None else mjoin (a !! Z.to_nat i).


Record PresetDefinition := {
  preset_label : string;
  preset_params : SynthesizerParams;
  preset_tempo : R;
  preset_steps : list SequencerNote
}.

Definition acidTechno : PresetDefinition :=
  {| preset_label := "Acid Techno";
     preset_params :=
       {| oscillatorType := sawtooth; frequency := 440; volume := 0.32;
       attack := 0.005; decay := 0.15; sustain := 0.25; release := 0.12;
       cutoff := 1300; resonance := 10; filterType := lowpass; lfoRate :=
       3.8; lfoAmount := 0.25; detuneAmount := 0.08; ringModAmount := 0;
       wetness := 0.25; coarseness := 0.6 |};
     preset_tempo := 125;
     preset_steps :=
       [ step 36 0.92 0.8 false true;
         step 36 0.85 0.5 false true;
         step 40 0.92 0.8 true true;
         step 43 0.92 0.8 false true;
         step 41 0.92 0.8 true true;
         step 38 0.92 0.6 false true;
         step 0 0.92 0.5 false false;
         step 38 0.92 0.8 true true;
         step 43 0.92 0.8 false true;
         step 41 0.92 0.8 true true;
         step 39 0.88 0.6 false true;
         step 36 0.92 1.2 false true;
         step 40 0.92 0.8 false true;
         step 43 0.92 0.8 true true;
         step 38 0.92 0.6 false true;
         step 36 0.92 0.8 false true ] |}.

Definition padAmbient : PresetDefinition :=
  {| preset_label := "Pad/Ambient";
     preset_params :=
       {| oscillatorType := sine; frequency := 440; volume := 0.15; attack :=
       0.5; decay := 0.8; sustain := 0.6; release := 1.0; cutoff := 4000;
       resonance := 1; filterType := lowpass; lfoRate := 1.2; lfoAmount :=
       0.35; detuneAmount := 0.2; ringModAmount := 0; wetness := 0.6;
       coarseness := 0.3 |};
     preset_tempo := 60;
     preset_steps :=
       [ step 48 0.6 1.0 false true;
         step 0 0.6 1.0 false false;
         step 52 0.6 1.0 false true;
         step 0 0.6 1.0 false false;
         step 55 0.6 1.0 false true;
         step 0 0.6 1.0 false false;
         step 60 0.6 1.0 true true;
         step 0 0.6 1.0 false false;
         step 48 0.6 1.0 false true;
         step 0 0.6 1.0 false false;
         step 52 0.6 1.0 false true;
         step 0 0.6 1.0 false false;
         step 55 0.6 1.0 false true;
         step 0 0.6 1.0 false false;
         step 57 0.6 1.0 true true;
         step 0 0.6 1.0 false false ] |}.

Definition leadBright : PresetDefinition :=
  {| preset_label := "Lead/Bright";
     preset_params :=
       {| oscillatorType := square; frequency := 440; volume := 0.22; attack
       := 0.005; decay := 0.12; sustain := 0.4; release := 0.1; cutoff :=
       5000; resonance := 3; filterType := lowpass; lfoRate := 7; lfoAmount
       := 0.12; detuneAmount := 0.15; ringModAmount := 0; wetness := 0.2;
       coarseness := 0.7 |};
     preset_tempo := 140;
     preset_steps :=
       [ step 60 0.9 0.6 false true;
         step 62 0.8 0.5 false true;
         step 64 0.85 0.7 false true;
         step 65 0.9 0.6 false true;
         step 67 0.8 0.5 false true;
         step 69 0.85 0.7 false true;
         step 70 0.9 0.6 true true;
         step 72 0.8 0.5 true true;
         step 64 0.85 0.7 false true;
         step 60 0.9 0.6 false true;
         step 0 0.8 0.5 false false;
         step 62 0.85 0.7 false true;
         step 67 0.9 0.6 false true;
         step 0 0.8 0.5 false false;
         step 64 0.85 0.7 false true;
         step 60 0.9 0.8 false true ] |}.

Definition bassDeep : PresetDefinition :=
  {| preset_label := "Bass/Deep";
     preset_params :=
       {| oscillatorType := sawtooth; frequency := 440; volume := 0.35;
       attack := 0.005; decay := 0.2; sustain := 0.2; release := 0.25; cutoff
       := 900; resonance := 12; filterType := lowpass; lfoRate := 2.5;
       lfoAmount := 0.2; detuneAmount := 0.1; ringModAmount := 0; wetness :=
       0.15; coarseness := 0.8 |};
     preset_tempo := 95;
     preset_steps :=
       [ step 24 0.95 0.8 false true;
         step 0 0.95 0.4 false false;
         step 29 0.92 0.8 true true;
         step 0 0.95 0.4 false false;
         step 26 0.93 0.8 true true;
         step 0 0.95 0.4 false false;
         step 22 0.92 0.8 false true;
         step 0 0.95 0.4 false false;
         step 24 0.95 0.8 false true;
         step 0 0.95 0.4 false false;
         step 31 0.93 0.8 true true;
         step 0 0.95 0.4 false false;
         step 26 0.92 0.8 true true;
         step 0 0.95 0.4 false false;
         step 24 0.93 1.0 false true;
         step 0 0.95 0.4 false false ] |}.

Definition pluckStaccato : PresetDefinition :=
  {| preset_label := "Pluck/Staccato";
     preset_params :=
       {| oscillatorType := triangle; frequency := 440; volume := 0.24;
       attack := 0.002; decay := 0.08; sustain := 0.05; release := 0.05;
       cutoff := 3500; resonance := 4; filterType := highpass; lfoRate := 5;
       lfoAmount := 0.1; detuneAmount := 0.1; ringModAmount := 0; wetness :=
       0.1; coarseness := 0.4 |};
     preset_tempo := 160;
     preset_steps :=
       [ step 54 0.9 0.3 false true;
         step 57 0.8 0.3 false true;
         step 59 0.85 0.3 false true;
         step 54 0.9 0.3 false true;
         step 62 0.8 0.3 false true;
         step 57 0.85 0.3 false true;
         step 54 0.9 0.3 false true;
         step 0 0.8 0.3 false false;
         step 59 0.85 0.3 false true;
         step 54 0.9 0.3 false true;
         step 57 0.8 0.3 false true;
         step 62 0.85 0.3 false true;
         step 54 0.9 0.3 false true;
         step 59 0.8 0.3 false true;
         step 57 0.85 0.3 false true;
         step 54 0.9 0.3 false true ] |}.

Definition experimental : PresetDefinition :=
  {| preset_label := "Experimental";
     preset_params :=
       {| oscillatorType := square; frequency := 440; volume := 0.18; attack
       := 0.08; decay := 0.2; sustain := 0.25; release := 0.15; cutoff :=
       2000; resonance := 5; filterType := bandpass; lfoRate := 6; lfoAmount
       := 0.4; detuneAmount := 0.3; ringModAmount := 0.6; wetness := 0.4;
       coarseness := 0.9 |};
     preset_tempo := 110;
     preset_steps :=
       [ step 45 0.8 0.7 false true;
         step 0 0.8 0.3 false false;
         step 50 0.7 0.7 true true;
         step 0 0.8 0.3 false false;
         step 47 0.75 0.7 true true;
         step 0 0.8 0.3 false false;
         step 52 0.8 0.7 false true;
         step 0 0.8 0.3 false false;
         step 43 0.75 0.7 true true;
         step 0 0.8 0.3 false false;
         step 48 0.8 0.7 false true;
         step 0 0.8 0.3 false false;
         step 50 0.7 0.7 true true;
         step 0 0.8 0.3 false false;
         step 45 0.75 0.7 true true;
         step 0 0.8 0.3 false false ] |}.

(** [PRESETS], by its own keys. *)
Definition PRESETS : gmap string PresetDefinition :=
  list_to_map
    [ ("acidTechno", acidTechno); ("padAmbient", padAmbient);
      ("leadBright", leadBright); ("bassDeep", bassDeep);
      ("pluckStaccato", pluckStaccato); ("experimental", experimental) ].

(** The sequencer fields of [SynthesizerState] and the ones the engine
    reads; the fields that only feed the display are left out. *)
Record state := {
  params : SynthesizerParams;
  activeKeys : gset Z;
  currentPreset : string;
  sequencerSteps : array SequencerNote;
  currentStep : Z;
  tempo : R;
  isSequencerRunning : bool
}.

Definition init : state :=
  {| params := preset_params bassDeep;
     activeKeys := ∅;
     currentPreset := "bassDeep";
     sequencerSteps := of_list (preset_steps bassDeep);
     currentStep := 0;
     tempo := preset_tempo bassDeep;
     isSequencerRunning := false |}.

(** [Math.random] is a stream of numbers read at an advancing position;
    a generator takes the position and returns the next one. *)
Section Random.
Variable random : nat -> R.

Definition Gen (A : Type) : Type := nat -> A * nat.
Definition ret {A} (x : A) : Gen A := fun k => (x, k).
Definition bind {A B} (m : Gen A) (f : A -> Gen B) : Gen B :=
  fun k => let (x, k') := m k in f x k'.
Definition Math_random : Gen R := fun k => (random k, S k).

Notation "x <- m ;; f" := (bind m (fun x => f))
  (at level 100, m at next level, right associativity).

(** One element of the array of line 301, fields in source order. *)
Definition random_step : Gen SequencerNote :=
  r <- Math_random ;;
  n <- (if Rltb r 0.3 then ret 0
        else r' <- Math_random ;; ret (Zfloor (r' * (40 - 20 + 1)) + 20)) ;;
  v <- Math_random ;;
  d <- Math_random ;;
  sl <- Math_random ;;
  en <- Math_random ;;
  ret {| note := n; velocity := 0.6 + v * 0.4; duration := 0.5 + d * 0.5;
         slide := Rltb sl 0.3; enabled := Rltb en 0.7 |}.

(** [Array.from({ length: n }, f)]. *)
Fixpoint Array_from {A} (n : nat) (f : Gen A) : Gen (list A) :=
  match n with
  | O => ret []
  | S n' => x <- f ;; xs <- Array_from n' f ;; ret (x :: xs)
  end.

Definition random_sequence : Gen (list SequencerNote) :=
  Array_from 16 random_step.
End Random.

Section Actions.
Variable s : state.

Definition setParams (upd : PartialParams) : state :=
  {| params := merge_params (params s) upd; activeKeys := activeKeys s;
     currentPreset := currentPreset s; sequencerSteps := sequencerSteps s;
     currentStep := currentStep s; tempo := tempo s;
     isSequencerRunning := isSequencerRunning s |}.

Definition setActiveKey (key : Z) (active : bool) : state :=
  {| params := params s;
     activeKeys := if active then {[ key ]} ∪ activeKeys s
                   else activeKeys s ∖ {[ key ]};
     currentPreset := currentPreset s; sequencerSteps := sequencerSteps s;
     currentStep := currentStep s; tempo := tempo s;
     isSequencerRunning := isSequencerRunning s |}.

Definition setSequencerStep (index : Z) (n : SequencerNote) : state :=
  {| params := params s; activeKeys := activeKeys s;
     currentPreset := currentPreset s;
     sequencerSteps := array_set (sequencerSteps s) index n;
     currentStep := currentStep s; tempo := tempo s;
     isSequencerRunning := isSequencerRunning s |}.

Definition setCurrentStep (i : Z) : state :=
  {| params := params s; activeKeys := activeKeys s;
     currentPreset := currentPreset s; sequencerSteps := sequencerSteps s;
     currentStep := i; tempo := tempo s;
     isSequencerRunning := isSequencerRunning s |}.

Definition setTempo (bpm : R) : state :=
  {| params := params s; activeKeys := activeKeys s;
     currentPreset := currentPreset s; sequencerSteps := sequencerSteps s;
     currentStep := currentStep s; tempo := Rmax 20 (Rmin 300 bpm);
     isSequencerRunning := isSequencerRunning s |}.

Definition setIsSequencerRunning (running : bool) : state :=
  {| params := params s; activeKeys := activeKeys s;
     currentPreset := currentPreset s; sequencerSteps := sequencerSteps s;
     currentStep := currentStep s; tempo := tempo s;
     isSequencerRunning := running |}.

Definition clearSequencer : state :=
  {| params := params s; activeKeys := activeKeys s;
     currentPreset := currentPreset s;
     sequencerSteps := of_list (replicate 16 (step 0 0.8 0.5 false true));
     currentStep := 0; tempo := tempo s;
     isSequencerRunning := isSequencerRunning s |}.

Definition loadPreset (presetName : string) : state :=
  match PRESETS !! presetName with
  | None => s
  | Some preset =>
      {| params := preset_params preset; activeKeys := activeKeys s;
         currentPreset := presetName;
         sequencerSteps := of_list (preset_steps preset);
         currentStep := 0; tempo := preset_tempo preset;
         isSequencerRunning := isSequencerRunning s |}
  end.

(** The store action [generateRandomSequence]; the second component is
    the position [Math.random] has reached. *)
Definition generateRandomSequence (random : nat -> R) (k : nat)
  : state * nat :=
  let (steps, k') := random_sequence random k in
  ({| params := params s; activeKeys := activeKeys s;
      currentPreset := currentPreset s;
      sequencerSteps := of_list steps;
      currentStep := currentStep s; tempo := tempo s;
      isSequencerRunning := isSequencerRunning s |}, k').
End Actions.

(** The actions of the store as data, and the states they reach from the
    initial one when every action satisfies [ok]. *)
Inductive action :=
| SetParams (upd : PartialParams)
| SetActiveKey (key : Z) (active : bool)
| SetSequencerStep (index : Z) (n : SequencerNote)
| SetCurrentStep (i : Z)
| SetTempo (bpm : R)
| SetIsSequencerRunning (running : bool)
| ClearSequencer
| LoadPreset (presetName : string)
| GenerateRandomSequence (random : nat -> R) (k : nat).

Definition run (a : action) (s : state) : state :=
  match a with
  | SetParams upd => setParams s upd
  | SetActiveKey key active => setActiveKey s key active
  | SetSequencerStep index n => setSequencerStep s index n
  | SetCurrentStep i => setCurrentStep s i
  | SetTempo bpm => setTempo s bpm
  | SetIsSequencerRunning running => setIsSequencerRunning s running
  | ClearSequencer => clearSequencer s
  | LoadPreset presetName => loadPreset s presetName
  | GenerateRandomSequence random k => (generateRandomSequence s random k).1
  end.

Inductive reachable (ok : action -> Prop) : state -> Prop :=
| reachable_init : reachable ok init
| reachable_run a s : reachable ok s -> ok a -> reachable ok (run a s).


(** A step is set at an index of the pattern. *)
Definition index_in_pattern (a : action) : Prop :=
  match a with
  | SetSequencerStep index _ => 0 <= index < 16
  | _ => True
  end.

End Store.

(** ** The sequencer clock: the playback effect of [App.tsx] *)

Module App.

Import Store.

(** The browser timers the component registers, each with what its
    callback has captured: the [setInterval] of line 133 holds
    [stepDurationMs] (also its period) and the variable [nextStep]; the
    [setTimeout] of line 146 holds its delay and the note to release. *)
Inductive timer :=
| interval (stepDurationMs : R) (nextStep : Z)
| noteOff_timeout (delay : R) (note : Z).

(** The dependency array of the playback effect (line 168). *)
Definition deps : Type := bool * R * Z.

Record world := {
  store : Store.state;
  synthRef : option Tone.state;
  sequencerIntervalRef : option nat;
  pendingNoteOffsRef : gset nat;
  sequencerStepsRef : array SequencerNote;
  timers : gmap nat timer;
  next_timer : nat;
  (** The dependencies the playback effect last ran with, and whether
      that run returned a cleanup. *)
  playback_deps : option deps;
  playback_cleanup : bool
}.

Section Setters.
Variable w : world.

Definition with_store (st : Store.state) : world :=
  {| store := st; synthRef := synthRef w;
     sequencerIntervalRef := sequencerIntervalRef w;
     pendingNoteOffsRef := pendingNoteOffsRef w;
     sequencerStepsRef := sequencerStepsRef w;
     timers := timers w; next_timer := next_timer w;
     playback_deps := playback_deps w;
     playback_cleanup := playback_cleanup w |}.

Definition with_synth (sy : option Tone.state) : world :=
  {| store := store w; synthRef := sy;
     sequencerIntervalRef := sequencerIntervalRef w;
     pendingNoteOffsRef := pendingNoteOffsRef w;
     sequencerStepsRef := sequencerStepsRef w;
     timers := timers w; next_timer := next_timer w;
     playback_deps := playback_deps w;
     playback_cleanup := playback_cleanup w |}.

Definition with_stepsRef (a : array SequencerNote) : world :=
  {| store := store w; synthRef := synthRef w;
     sequencerIntervalRef := sequencerIntervalRef w;
     pendingNoteOffsRef := pendingNoteOffsRef w;
     sequencerStepsRef := a;
     timers := timers w; next_timer := next_timer w;
     playback_deps := playback_deps w;
     playback_cleanup := playback_cleanup w |}.

(** The timer table together with the two refs that name its entries. *)
Definition with_timers (iv : option nat) (pending : gset nat)
    (ts : gmap nat timer) (next : nat) : world :=
  {| store := store w; synthRef := synthRef w;
     sequencerIntervalRef := iv;
     pendingNoteOffsRef := pending;
     sequencerStepsRef := sequencerStepsRef w;
     timers := ts; next_timer := next;
     playback_deps := playback_deps w;
     playback_cleanup := playback_cleanup w |}.

Definition with_playback (d : option deps) (cleanup : bool) : world :=
  {| store := store w; synthRef := synthRef w;
     sequencerIntervalRef := sequencerIntervalRef w;
     pendingNoteOffsRef := pendingNoteOffsRef w;
     sequencerStepsRef := sequencerStepsRef w;
     timers := timers w; next_timer := next_timer w;
     playback_deps := d; playback_cleanup := cleanup |}.
End Setters.

(** [ids.forEach(id => clearTimeout(id))]. *)
Definition clear_all (ids : gset nat) (ts : gmap nat timer) : gmap nat timer :=
  foldr delete ts (elements ids).

(** [clearInterval(sequencerIntervalRef.current)] under its guard, and
    the ref set to [null]. *)
Definition clear_interval (w : world) : world :=
  match sequencerIntervalRef w with
  | Some id =>
      with_timers w None (pendingNoteOffsRef w) (delete id (timers w))
                  (next_timer w)
  | None => w
  end.

(** Cancelling every pending note-off (lines 163-166 and 186-189). *)
Definition clear_pending (w : world) : world :=
  with_timers w (sequencerIntervalRef w) ∅
              (clear_all (pendingNoteOffsRef w) (timers w)) (next_timer w).

(** The body of [activeKeys.forEach] in [stopAllAudio]. *)
Definition release_key (now : R) (w : world) (key : Z) : world :=
  with_store (with_synth w (Tone.noteOff key now <$> synthRef w))
             (setActiveKey (store w) key false).

(** [stopAllAudio] (lines 184-203); [activeKeys] is the set of the render
    the closure belongs to. *)
Definition stopAllAudio (now : R) (w : world) : world :=
  let w1 := clear_pending w in
  let w2 := with_synth w1 (Tone.stopAllNotes now <$> synthRef w1) in
  foldl (release_key now) w2 (elements (activeKeys (store w))).

(** [stepDurationMs] (line 130). *)
Definition stepDurationMs (tempo : R) : R := (60000 / tempo / 4)%R.

(** The body of the playback effect (lines 118-155). *)
Definition playback_effect (now : R) (w : world) : world :=
  if negb (isSequencerRunning (store w))
  then with_playback (stopAllAudio now (clear_interval w))
                     (playback_deps w) false
  else
    let id := next_timer w in
    with_playback
      (with_timers w (Some id) (pendingNoteOffsRef w)
         (<[id := interval (stepDurationMs (tempo (store w)))
                           (currentStep (store w))]> (timers w))
         (S id))
      (playback_deps w) true.

(** The cleanup the running branch returns (lines 157-167). *)
Definition playback_cleanup_fn (w : world) : world :=
  clear_pending (clear_interval w).

Definition deps_of (st : Store.state) : deps :=
  (isSequencerRunning st, tempo st, currentStep st).

Definition deps_eqb (a b : deps) : bool :=
  Bool.eqb a.1.1 b.1.1 && Reqb a.1.2 b.1.2 && (a.2 =? b.2).

(** A render followed by its effects: the ref of the steps is brought up
    to date (lines 112-114) and, when a dependency of the playback effect
    has changed, the cleanup of its last run and then its body run. *)
Definition commit (now : R) (w : world) : world :=
  let w1 := with_stepsRef w (sequencerSteps (store w)) in
  let d := deps_of (store w) in
  let unchanged :=
    match playback_deps w with
    | Some d' => deps_eqb d' d
    | None => false
    end in
  if unchanged then w1
  else
    let w2 := if playback_cleanup w1 then playback_cleanup_fn w1 else w1 in
    let w3 := playback_effect now w2 in
    with_playback w3 (Some d) (playback_cleanup w3).

(** The callback of the interval (lines 134-154), for the timer [id].
    Reading a field of a missing step throws, which ends the callback
    after the step counter has moved. *)
Definition tick (now : R) (id : nat) (w : world) : option world :=
  match timers w !! id with
  | Some (interval period nextStep) =>
      let nextStep := Z.rem (nextStep + 1) 16 in
      let w1 :=
        with_store
          (with_timers w (sequencerIntervalRef w) (pendingNoteOffsRef w)
             (<[id := interval period nextStep]> (timers w)) (next_timer w))
          (setCurrentStep (store w) nextStep) in
      match array_get (sequencerStepsRef w1) nextStep, synthRef w1 with
      | Some n, Some synth =>
          if enabled n && (0 <? note n)
          then
            let slideTime : R := if slide n then 0.3%R else 0%R in
            let timeoutId := next_timer w1 in
            Some
              (with_timers
                 (with_synth w1
                    (Some (Tone.noteOn (note n) (velocity n) slideTime now synth)))
                 (sequencerIntervalRef w1)
                 ({[ timeoutId ]} ∪ pendingNoteOffsRef w1)
                 (<[timeoutId := noteOff_timeout (period * duration n * 0.9)
                                                 (note n)]> (timers w1))
                 (S timeoutId))
          else Some w1
      | _, _ => Some w1
      end
  | _ => None
  end.

(** The callback of a note-off timer (lines 146-151), which has fired and
    so left the table. *)
Definition noteOff_fired (now : R) (id : nat) (w : world) : option world :=
  match timers w !! id with
  | Some (noteOff_timeout _ n) =>
      Some
        (with_timers
           (with_synth w (Tone.noteOff n now <$> synthRef w))
           (sequencerIntervalRef w)
           (pendingNoteOffsRef w ∖ {[ id ]})
           (delete id (timers w)) (next_timer w))
  | _ => None
  end.

(** A disposal timer of the engine fires. *)
Definition synth_timer_fired (k : nat) (w : world) : option world :=
  match synthRef w with
  | Some synth => (fun sy => with_synth w (Some sy)) <$> Tone.fire k synth
  | None => None
  end.

(** The handlers of the component. *)
Definition handleKeyDown (now : R) (midiNote : Z) (w : world) : world :=
  match synthRef w with
  | Some synth =>
      if decide (midiNote ∈ activeKeys (store w)) then w
      else with_store
             (with_synth w (Some (Tone.noteOn midiNote 1 0 now synth)))
             (setActiveKey (store w) midiNote true)
  | None => w
  end.

Definition handleKeyUp (now : R) (midiNote : Z) (w : world) : world :=
  match synthRef w with
  | Some synth =>
      if decide (midiNote ∈ activeKeys (store w))
      then with_store
             (with_synth w (Some (Tone.noteOff midiNote now synth)))
             (setActiveKey (store w) midiNote false)
      else w
  | None => w
  end.

Definition stop_if_running (now : R) (w : world) : world :=
  if bool_decide (is_Some (synthRef w)) && isSequencerRunning (store w)
  then stopAllAudio now w else w.

Definition handleClearSequencer (now : R) (w : world) : world :=
  let w1 := stop_if_running now w in
  with_store w1 (clearSequencer (store w1)).

Definition handlePresetChange (now : R) (presetName : string) (w : world)
  : world :=
  let w1 := stopAllAudio now w in
  with_store w1 (loadPreset (store w1) presetName).

Definition handleRandomizeSequencer (now : R) (random : nat -> R) (k : nat)
    (w : world) : world :=
  let w1 := stop_if_running now w in
  with_store w1 (generateRandomSequence (store w1) random k).1.

Definition onTogglePlay (w : world) : world :=
  with_store w
    (setIsSequencerRunning (store w) (negb (isSequencerRunning (store w)))).

(** The params effect (lines 103-107) after a [setParams]. *)
Definition onParamsChange (upd : PartialParams) (w : world) : world :=
  with_synth (with_store w (setParams (store w) upd))
             (Tone.updateParams upd <$> synthRef w).

(** What can happen to a mounted component: a handler or a timer callback
    runs, and the render it causes is committed.  [ParamsChange] is a
    [setParams] together with the params effect it triggers; the params
    effect after a preset has been loaded is a [ParamsChange] that sets
    every field. *)
Inductive event :=
| TogglePlay
| KeyDown (midiNote : Z)
| KeyUp (midiNote : Z)
| ClearSequencer
| PresetChange (presetName : string)
| Randomize (random : nat -> R) (k : nat)
| StepChange (index : Z) (n : SequencerNote)
| TempoChange (bpm : R)
| ParamsChange (upd : PartialParams)
| Tick (id : nat)
| NoteOffFires (id : nat)
| SynthTimerFires (k : nat).

Definition callback (now : R) (e : event) (w : world) : option world :=
  match e with
  | TogglePlay => Some (onTogglePlay w)
  | KeyDown n => Some (handleKeyDown now n w)
  | KeyUp n => Some (handleKeyUp now n w)
  | ClearSequencer => Some (handleClearSequencer now w)
  | PresetChange name => Some (handlePresetChange now name w)
  | Randomize random k => Some (handleRandomizeSequencer now random k w)
  | StepChange i n => Some (with_store w (setSequencerStep (store w) i n))
  | TempoChange bpm => Some (with_store w (setTempo (store w) bpm))
  | ParamsChange upd => Some (onParamsChange upd w)
  | Tick id => tick now id w
  | NoteOffFires id => noteOff_fired now id w
  | SynthTimerFires k => synth_timer_fired k w
  end.

Definition handle (now : R) (e : event) (w : world) : option world :=
  commit now <$> callback now e w.

(** The component once it is mounted: the engine exists, the store holds
    the default preset, and the playback effect has run with the sequencer
    stopped.  (The random pattern the first effect asks for is the event
    [Randomize].)  Browser timer numbers are positive. *)
Definition mounted (now : R) : world :=
  commit now
    {| store := Store.init;
       synthRef := Some Tone.init;
       sequencerIntervalRef := None;
       pendingNoteOffsRef := ∅;
       sequencerStepsRef := sequencerSteps Store.init;
       timers := ∅; next_timer := 1;
       playback_deps := None; playback_cleanup := false |}.

Inductive reachable : world -> Prop :=
| reachable_mounted now : reachable (mounted now)
| reachable_handle now e w w' :
    reachable w -> handle now e w = Some w' -> reachable w'.

(** Stopping the sequencer: the stop button while it runs. *)
Definition stop (now : R) (w : world) : world :=
  commit now (onTogglePlay w).

(** Every timer of the table is named by one of the two refs, the ref of
    the pending note-offs names note-off timers only, and timer numbers
    are not reused. *)
Definition tracked (w : world) : Prop :=
  (forall id p ns, timers w !! id = Some (interval p ns) ->
     sequencerIntervalRef w = Some id)
  /\ (forall id d n, timers w !! id = Some (noteOff_timeout d n) ->
        id ∈ pendingNoteOffsRef w)
  /\ (forall id, is_Some (timers w !! id) -> (id < next_timer w)%nat)
  /\ (forall id, id ∈ pendingNoteOffsRef w ->
        exists d n, timers w !! id = Some (noteOff_timeout d n)).

(** The timers agree with the dependencies [d] the playback effect last
    ran with: running, there is the interval of the ref, with the period
    of the tempo of [d] (and, for [exact], at the step of [d]); stopped,
    there is no timer at all. *)
Definition clock_state (w : world) (d : deps) (exact : bool) : Prop :=
  playback_cleanup w = d.1.1
  /\ if d.1.1
     then exists id ns,
            sequencerIntervalRef w = Some id
            /\ timers w !! id = Some (interval (stepDurationMs d.1.2) ns)
            /\ (exact = true -> ns = d.2)
     else timers w = ∅ /\ sequencerIntervalRef w = None.

Definition settled (w : world) (exact : bool) : Prop :=
  tracked w
  /\ exists d, playback_deps w = Some d /\ clock_state w d exact.

(** What holds of the component between two events. *)
Definition invariant (w : world) : Prop :=
  playback_deps w = Some (deps_of (store w))
  /\ settled w true
  /\ is_Some (synthRef w)
  /\ 0 <= currentStep (store w) < 16
  /\ sequencerStepsRef w = sequencerSteps (store w).




End App.

(** ** The objects of a voice of the Tone.js engine *)

Module Voices.

Import Tone.

Definition objects (v : VoiceNode) : list nat := [synth v; filter v; lfo v].

(** Two voices share no object. *)
Definition apart (v v' : VoiceNode) : Prop :=
  forall o, o ∈ objects v -> o ∈ objects v' -> False.

(** The voices in use are sound: a registered voice has three objects of
    its own, apart from the master gain and from the other registered
    voices; its synth has been attacked and none of its objects disposed;
    the voice a disposal timer holds is apart from the registered ones
    and from the master gain; and the master gain has not been disposed. *)
Definition live (s : state) : Prop :=
  (forall n v, voices s !! n = Some v ->
     NoDup (objects v)
     /\ (masterGain s ∉ objects v)
     /\ attacked s (synth v) = true
     /\ forall o, o ∈ objects v -> disposed s o = false)
  /\ (forall n n' v v', voices s !! n = Some v -> voices s !! n' = Some v' ->
        n <> n' -> apart v v')
  /\ (forall t v, t ∈ timeouts s -> action t = dispose_voice v ->
        (masterGain s ∉ objects v)
        /\ forall n v', voices s !! n = Some v' -> apart v v')
  /\ disposed s (masterGain s) = false.

End Voices.

(** ** Parameters the engines do not read *)

Module Unused.

(** An update of the three parameters neither engine reads. *)
Definition by_both (f wet coarse : R) : PartialParams :=
  {| oscillatorType' := None; frequency' := Some f; volume' := None;
     attack' := None; decay' := None; sustain' := None; release' := None;
     cutoff' := None; resonance' := None; filterType' := None;
     lfoRate' := None; lfoAmount' := None; detuneAmount' := None;
     ringModAmount' := None; wetness' := Some wet;
     coarseness' := Some coarse |}.

(** An update of the six parameters the Tone.js engine does not read. *)
Definition by_tone (f vol det ring wet coarse : R) : PartialParams :=
  {| oscillatorType' := None; frequency' := Some f; volume' := Some vol;
     attack' := None; decay' := None; sustain' := None; release' := None;
     cutoff' := None; resonance' := None; filterType' := None;
     lfoRate' := None; lfoAmount' := None; detuneAmount' := Some det;
     ringModAmount' := Some ring; wetness' := Some wet;
     coarseness' := Some coarse |}.

(** The update that sets nothing. *)
Definition nothing : PartialParams :=
  {| oscillatorType' := None; frequency' := None; volume' := None;
     attack' := None; decay' := None; sustain' := None; release' := None;
     cutoff' := None; resonance' := None; filterType' := None;
     lfoRate' := None; lfoAmount' := None; detuneAmount' := None;
     ringModAmount' := None; wetness' := None; coarseness' := None |}.

(** What an engine state holds beside its parameters. *)
Definition tone_rest (t : Tone.state) :=
  (Tone.next_object t, Tone.trace t, Tone.voices t, Tone.masterGain t,
   Tone.activeNotes t, Tone.timeouts t).

Definition webaudio_rest (w : WebAudio.state) :=
  (WebAudio.next_node w, WebAudio.trace w, WebAudio.oscillators w,
   WebAudio.gains w, WebAudio.filters w, WebAudio.lfos w,
   WebAudio.ringModOscillators w, WebAudio.ringModGains w,
   WebAudio.masterGain w, WebAudio.activeNotes w, WebAudio.timeouts w).

End Unused.

(** ** The inputs of a node *)

Module Wiring.

(** The call connects some node to the input of [dst]. *)
Definition feeds (dst : nat) (c : WebAudio.call) : bool :=
  match c with
  | WebAudio.connect _ (WebAudio.to_node d) => Nat.eqb dst d
  | _ => false
  end.

(** The connections [calls] make to the input of [dst]. *)
Definition inputs (dst : nat) (calls : list WebAudio.call)
  : list WebAudio.call :=
  List.filter (feeds dst) calls.

End Wiring.

(** ** The controls: [RotaryKnob.tsx] and the filter type knob of [App.tsx] *)

Module Controls.

(** [Number(x.toFixed(2))]: the nearest multiple of 0.01; of two nearest
    ones, the one further from zero. *)
Definition toFixed2 (x : R) : R :=
  if Rltb x 0
  then (- (IZR (Zfloor (- x * 100 + / 2)) / 100))%R
  else (IZR (Zfloor (x * 100 + / 2)) / 100)%R.

(** The value a drag over [delta] pixels passes to [onChange]
    ([RotaryKnob.tsx], lines 35-38 and 76-79). *)
Definition drag (min max value delta : R) : R :=
  let range := (max - min)%R in
  let sensitivity := (range / 200)%R in
  let newValue := Rmax min (Rmin max (value + delta * sensitivity)) in
  toFixed2 newValue.

(** The angle of the pointer, in degrees (lines 57-58). *)
Definition rotation (min max value : R) : R :=
  let percentage := ((value - min) / (max - min))%R in
  (percentage * 270 - 135)%R.

(** The filter type knob (lines 684-693 of the component file): the value
    it shows for a filter type, and the type its [onChange] stores,
    [types[Math.round(v)]]; [None] is [undefined]. *)
Definition filterType_value (ty : BiquadFilterType) : R :=
  match ty with
  | lowpass => 0
  | highpass => 1
  | bandpass => 2
  | notch => 3
  end.

Definition types : list BiquadFilterType :=
  [lowpass; highpass; bandpass; notch].

Definition filterType_of_value (v : R) : option BiquadFilterType :=
  let i := Pitch.round v in
  if decide (i < 0) then None else types !! Z.to_nat i.

End Controls.

(** ** The step editor ([Sequencer.tsx]) and the keys ([Keyboard.tsx]) *)

Module Sequencer.

Import Store.

Definition ALL_NOTES : list string :=
  [ "C-1"; "C#-1"; "D-1"; "D#-1"; "E-1"; "F-1";
    "F#-1"; "G-1"; "G#-1"; "A-1"; "A#-1"; "B-1";
    "C0"; "C#0"; "D0"; "D#0"; "E0"; "F0";
    "F#0"; "G0"; "G#0"; "A0"; "A#0"; "B0";
    "C1"; "C#1"; "D1"; "D#1"; "E1"; "F1";
    "F#1"; "G1"; "G#1"; "A1"; "A#1"; "B1";
    "C2"; "C#2"; "D2"; "D#2"; "E2"; "F2";
    "F#2"; "G2"; "G#2"; "A2"; "A#2"; "B2";
    "C3"; "C#3"; "D3"; "D#3"; "E3"; "F3";
    "F#3"; "G3"; "G#3"; "A3"; "A#3"; "B3";
    "C4"; "C#4"; "D4"; "D#4"; "E4"; "F4";
    "F#4"; "G4"; "G#4"; "A4"; "A#4"; "B4";
    "C5"; "C#5"; "D5"; "D#5"; "E5"; "F5";
    "F#5"; "G5"; "G#5"; "A5"; "A#5"; "B5";
    "C6" ]%string.

(** Lines 27-30. *)
Definition NOTE_TO_MIDI : gmap string Z :=
  foldl (fun m kv => <[kv.2 := Z.of_nat kv.1]> m) ∅ (imap pair ALL_NOTES).

(** Lines 32-35; the entries of [NOTE_TO_MIDI] are taken in the order the
    finite map enumerates them. *)
Definition MIDI_TO_NOTE : gmap Z string :=
  foldl (fun m kv => <[kv.2 := kv.1]> m) ∅ (map_to_list NOTE_TO_MIDI).

(** The largest value of a note slider, [ALL_NOTES.length - 1] (line 132). *)
Definition slider_max : Z := Z.of_nat (length ALL_NOTES) - 1.

(** The three handlers of a step column (lines 48-70), as the arguments
    they pass to [onStepChange].  The columns are drawn from the steps
    there are, so a handler runs at the index of a step; [None] is the
    case of no step at [stepIndex]. *)
Section Handlers.
Variable steps : array SequencerNote.

Definition handleStepNoteChange (stepIndex midiNote : Z)
  : option (Z * SequencerNote) :=
  (fun st =>
     (stepIndex,
      {| note := midiNote; velocity := velocity st; duration := duration st;
         slide := slide st; enabled := enabled st |}))
  <$> array_get steps stepIndex.

Definition handleSlideToggle (stepIndex : Z) : option (Z * SequencerNote) :=
  (fun st =>
     (stepIndex,
      {| note := note st; velocity := velocity st; duration := duration st;
         slide := negb (slide st); enabled := enabled st |}))
  <$> array_get steps stepIndex.

Definition handleEnabledToggle (stepIndex : Z) : option (Z * SequencerNote) :=
  (fun st =>
     (stepIndex,
      {| note := note st; velocity := velocity st; duration := duration st;
         slide := slide st; enabled := negb (enabled st) |}))
  <$> array_get steps stepIndex.
End Handlers.

(** [onStepChange] is the store action [setSequencerStep] (line 800 of the
    component file). *)
Definition onStepChange (s : state) (change : option (Z * SequencerNote))
  : state :=
  match change with
  | Some (index, n) => setSequencerStep s index n
  | None => s
  end.

(** What the user can do to a step column. *)
Inductive edit :=
| NoteSlider (stepIndex midiNote : Z)
| SlideBox (stepIndex : Z)
| EnabledBox (stepIndex : Z).

Definition perform (e : edit) (s : state) : state :=
  onStepChange s
    match e with
    | NoteSlider i midiNote =>
        handleStepNoteChange (sequencerSteps s) i midiNote
    | SlideBox i => handleSlideToggle (sequencerSteps s) i
    | EnabledBox i => handleEnabledToggle (sequencerSteps s) i
    end.

End Sequencer.

Module Keyboard.

Definition baseNote : Z := 36.
Definition keys : nat := 13.

Definition noteNames : list string :=
  [ "C"; "C#"; "D"; "D#"; "E"; "F"; "F#"; "G"; "G#"; "A"; "A#"; "B" ]%string.

(** An integer in a template literal. *)
Definition show (z : Z) : string := NilZero.string_of_int (Z.to_int z).

(** [getNoteNames] (lines 69-74 of the file that holds the component);
    an index outside [noteNames] reads [undefined]. *)
Definition getNoteNames (midiNote : Z) : string :=
  let octave := midiNote / 12 in
  let note := Z.rem midiNote 12 in
  (if decide (note < 0) then "undefined"
   else default "undefined" (noteNames !! Z.to_nat note))
  +:+ show octave.

(** The notes of the keys drawn (lines 78-79). *)
Definition midiNotes : list Z :=
  (fun i => baseNote + Z.of_nat i) <$> seq 0 keys.

End Keyboard.

(** ** Loading a patch ([handleLoadPatch] of [App.tsx]) *)

Module Patch.

Import Store.


(** The fields of the store other than the steps. *)
Definition beside_steps (s : state) :=
  (params s, activeKeys s, currentPreset s, currentStep s, tempo s,
   isSequencerRunning s).



End Patch.

(** ** Successive ticks of the sequencer *)

Module Playback.

(** [ticked k w w']: [k] ticks of the interval, each followed by its
    render, lead from [w] to [w']. *)
Inductive ticked : nat -> App.world -> App.world -> Prop :=
| ticked_O w : ticked 0 w w
| ticked_S k now id w w1 w2 :
    ticked k w w1 -> App.handle now (App.Tick id) w1 = Some w2 ->
    ticked (S k) w w2.

End Playback.

(** ** What the components ask of the store *)

Module Usage.

Import Store.

(** The preset selector offers the keys of [PRESETS]. *)
Definition known_preset (a : action) : Prop :=
  match a with
  | LoadPreset presetName => is_Some (PRESETS !! presetName)
  | _ => True
  end.

(** The ranges the comments of [generateRandomSequence] give for a step:
    a rest or a note from 20 to 40, a velocity from 0.6 and a duration
    from 0.5, both below 1. *)
Definition generated (st : SequencerNote) : Prop :=
  (note st = 0 \/ 20 <= note st <= 40)
  /\ (0.6 <= velocity st < 1)%R
  /\ (0.5 <= duration st < 1)%R.

(** The steps an array has are notes of the slider. *)
Definition named (a : array SequencerNote) : Prop :=
  Forall (fun o => forall st, o = Some st ->
                   0 <= note st <= Sequencer.slider_max) a.

(** What the controls of the page do to the store: the preset selector,
    the tempo slider and the buttons run a store action, [Math.random]
    returning numbers from 0 to 1, 1 excluded; the step editor edits a
    step, its note slider ranging over the notes that have a name.
    ([setSequencerStep] is reached through the step editor; loading a
    patch is apart.) *)
Definition from_controls (a : action) : Prop :=
  match a with
  | LoadPreset presetName => is_Some (PRESETS !! presetName)
  | GenerateRandomSequence random _ => forall k, (0 <= random k < 1)%R
  | SetSequencerStep _ _ => False
  | _ => True
  end.

Definition from_slider (e : Sequencer.edit) : Prop :=
  match e with
  | Sequencer.NoteSlider _ midiNote => 0 <= midiNote <= Sequencer.slider_max
  | _ => True
  end.

Inductive edited : state -> Prop :=
| edited_init : edited init
| edited_run a s : edited s -> from_controls a -> edited (run a s)
| edited_perform e s :
    edited s -> from_slider e -> edited (Sequencer.perform e s).

End Usage.

(** * Properties *)

(** ** Numbers *)

Lemma Rltb_true (x y : R) : (x < y)%R -> Rltb x y = true.
Proof. intros H. unfold Rltb. destruct (Rlt_dec x y); [reflexivity | contradiction]. Qed.

Lemma Rltb_false (x y : R) : (y <= x)%R -> Rltb x y = false.
Proof. intros H. unfold Rltb. destruct (Rlt_dec x y); [lra | reflexivity]. Qed.

Lemma Rltb_spec (x y : R) : Rltb x y = true <-> (x < y)%R.
Proof. unfold Rltb. destruct (Rlt_dec x y); split; intros; try done. Qed.

Lemma Reqb_spec (x y : R) : Reqb x y = true <-> x = y.
Proof. unfold Reqb. destruct (Req_dec_T x y); split; intros; try done. Qed.

Lemma Reqb_refl (x : R) : Reqb x x = true.
Proof. by apply Reqb_spec. Qed.

(** ** Pitch conversions *)

Module PitchFacts.
Import Pitch.

Lemma ln2_pos : (0 < ln 2)%R.
Proof. pose proof ln_lt_2. lra. Qed.

Lemma round_IZR (z : Z) : round (IZR z) = z.
Proof. unfold round. apply Zfloor_eq. lra. Qed.

Lemma midiNoteToFrequency_pos (n : Z) : (0 < midiNoteToFrequency n)%R.
Proof.
  unfold midiNoteToFrequency, Rpower.
  pose proof (exp_pos ((IZR n - 69) / 12 * ln 2)). lra.
Qed.

Lemma midiNoteToFrequency_A4 : midiNoteToFrequency 69 = 440%R.
Proof.
  unfold midiNoteToFrequency.
  replace ((69 - 69) / 12)%R with 0%R by lra.
  rewrite Rpower_O by lra. lra.
Qed.




End PitchFacts.

(** ** The pattern of the store *)

Module StoreFacts.
Import Store.

(** A pattern in the sense of the specification: sixteen steps, none
    missing. *)
Definition is_pattern (a : array SequencerNote) : Prop :=
  length a = 16%nat /\ Forall is_Some a.

Lemma of_list_pattern (l : list SequencerNote) :
  length l = 16%nat -> is_pattern (of_list l).
Proof.
  intros Hl. split.
  - unfold of_list. by rewrite length_fmap.
  - unfold of_list. apply Forall_fmap, Forall_forall. intros x _. by eexists.
Qed.

Lemma Array_from_length {A} (f : Gen A) (n k : nat) :
  length (Array_from n f k).1 = n.
Proof.
  revert k. induction n as [|n IH]; intros k; [reflexivity |].
  simpl. unfold bind. destruct (f k) as [x k1].
  specialize (IH k1). destruct (Array_from n f k1) as [xs k2].
  simpl in *. by rewrite IH.
Qed.

Lemma random_sequence_length random k :
  length (random_sequence random k).1 = 16%nat.
Proof. apply Array_from_length. Qed.

Lemma presets_have_16_steps name preset :
  PRESETS !! name = Some preset -> length (preset_steps preset) = 16%nat.
Proof.
  intros H. unfold PRESETS in H.
  apply elem_of_list_to_map_2 in H.
  repeat (apply elem_of_cons in H as [H | H]; [by inversion H |]).
  by apply elem_of_nil in H.
Qed.

Lemma array_set_in_range (a : array SequencerNote) i x :
  0 <= i < Z.of_nat (length a) -> is_pattern a -> is_pattern (array_set a i x).
Proof.
  intros Hi [Hlen Hall]. unfold array_set.
  destruct (decide (i < 0)); [lia |].
  destruct (decide (i < Z.of_nat (length a))); [| lia].
  split.
  - by rewrite length_insert.
  - apply Forall_insert; [done | by eexists].
Qed.

Lemma init_pattern : is_pattern (sequencerSteps init).
Proof. by apply of_list_pattern. Qed.

Lemma run_keeps_pattern a s :
  index_in_pattern a -> is_pattern (sequencerSteps s) ->
  is_pattern (sequencerSteps (run a s)).
Proof.
  intros Hok Hs. destruct a; unfold run, index_in_pattern in *;
    try exact Hs.
  - apply array_set_in_range; [| done]. destruct Hs as [-> _]. lia.
  - exact (of_list_pattern (replicate 16 (step 0 0.8 0.5 false true)) eq_refl).
  - unfold loadPreset. destruct (PRESETS !! presetName) as [p|] eqn:E; [| done].
    apply of_list_pattern. by eapply presets_have_16_steps.
  - unfold generateRandomSequence.
    pose proof (random_sequence_length random k) as Hl.
    destruct (random_sequence random k) as [steps k'].
    by apply of_list_pattern.
Qed.

Lemma array_get_Some {A} (a : array A) i x :
  array_get a i = Some x <-> 0 <= i /\ a !! Z.to_nat i = Some (Some x).
Proof.
  unfold array_get. destruct (decide (i < 0)).
  - split; [done | lia].
  - destruct (a !! Z.to_nat i) as [[y|]|]; simpl; split;
      try done; try (intros [_ [=]]; done).
    + intros [= ->]. split; [lia | done].
    + intros [_ [= ->]]. done.
Qed.







End StoreFacts.

(** ** Lists of calls *)

(** Equalities between the numbers of the nodes of one voice. *)
Lemma eqb_offsets (b j k : nat) : Nat.eqb (b + j) (b + k) = Nat.eqb j k.
Proof.
  destruct (Nat.eqb_spec j k) as [-> | Hne]; [apply Nat.eqb_refl |].
  apply Nat.eqb_neq. lia.
Qed.

Lemma eqb_base_offset (b k : nat) : Nat.eqb b (b + S k) = false.
Proof. apply Nat.eqb_neq. lia. Qed.

Lemma eqb_offset_base (b k : nat) : Nat.eqb (b + S k) b = false.
Proof. apply Nat.eqb_neq. lia. Qed.

Lemma filter_keep {A} (P : A -> bool) x l :
  P x = true -> List.filter P (x :: l) = x :: List.filter P l.
Proof. intros H. simpl. by rewrite H. Qed.

Lemma filter_drop {A} (P : A -> bool) x l :
  P x = false -> List.filter P (x :: l) = List.filter P l.
Proof. intros H. simpl. by rewrite H. Qed.

Lemma not_exists_fresh {A} (num : A -> nat) (P : nat -> A -> bool) (l : list A) o :
  (forall c, P o c = true -> num c = o) ->
  Forall (fun c => (num c < o)%nat) l ->
  existsb (P o) l = false.
Proof.
  intros HP H. apply not_true_is_false. intros (c & Hin & Hc)%existsb_exists.
  rewrite Forall_forall in H. apply list_elem_of_In, H in Hin.
  apply HP in Hc. lia.
Qed.

(** ** The engine of WebAudioSynthesizer.ts *)

Module WebAudioFacts.
Import WebAudio.

Ltac node_eqb :=
  unfold osc, filter, gainNode, ringModOsc, ringModCarrier, ringModGain,
         lfo, lfoGain in *;
  rewrite ?eqb_offsets, ?eqb_base_offset, ?eqb_offset_base, ?Nat.eqb_refl;
  cbn [Nat.eqb andb orb negb].

(** Filtering a list of calls given element by element. *)
Ltac decide_call :=
  cbn [call_node on_frequency_of is_connect]; node_eqb; reflexivity.

Ltac eval_filter :=
  repeat first
    [ rewrite filter_keep by decide_call
    | rewrite filter_drop by decide_call ];
  cbn [List.filter app].

Lemma webaudio_retrigger_params n now s : params (retrigger n now s) = params s.
Proof. unfold retrigger. by destruct (decide _). Qed.

Lemma retrigger_activeNotes n now s :
  activeNotes (retrigger n now s) = activeNotes s.
Proof. unfold retrigger. by destruct (decide _). Qed.

Lemma retrigger_next_node n now s :
  next_node (retrigger n now s) = next_node s.
Proof. unfold retrigger. by destruct (decide _). Qed.

Lemma webaudio_noteOn_trace n v sl now s :
  let s' := retrigger n now s in
  trace (noteOn n v sl now s)
  = trace s' ++ voice_calls (params s') (activeNotes s') (masterGain s')
                            n v sl now (next_node s').
Proof. reflexivity. Qed.

Lemma ringMod_enabled_spec p :
  ringMod_enabled p = false <->
  (ringModAmount p <= 0 \/ 1 <= ringModAmount p)%R.
Proof.
  unfold ringMod_enabled, Rltb.
  destruct (Rlt_dec 0 (ringModAmount p)), (Rlt_dec (ringModAmount p) 1);
    simpl; split; intros H; try done; try lra.
Qed.

Lemma connections_app src dst l1 l2 :
  connections src dst (l1 ++ l2)
  = (connections src dst l1 + connections src dst l2)%nat.
Proof. unfold connections. by rewrite List.filter_app, length_app. Qed.

Lemma oscillator_filter_connections_of_voice p active master n v sl now b :
  connections (osc b) (filter b) (voice_calls p active master n v sl now b)
  = if ringMod_enabled p then 1%nat else 2%nat.
Proof.
  unfold connections, voice_calls, oscillator_calls, filter_calls,
    envelope_calls, ringMod_calls, lfo_calls, output_calls.
  rewrite !List.filter_app.
  destruct (Rltb 0 sl), (Reqb (detuneAmount p) 0), (ringMod_enabled p),
    (lfo_enabled p); eval_filter; reflexivity.
Qed.

(** C10. In [noteOn] of WebAudioSynthesizer.ts the calls that build the
    voice connect its oscillator to its filter twice when ring modulation
    is off ([ringModAmount <= 0] or [ringModAmount >= 1]) and once when it
    is on. *)
Theorem oscillator_filter_connections n v sl now s :
  let s' := retrigger n now s in
  let b := next_node s' in
  exists calls,
    trace (noteOn n v sl now s) = trace s' ++ calls
    /\ connections (osc b) (filter b) calls
       = (if ringMod_enabled (params s) then 1%nat else 2%nat)
    /\ (ringMod_enabled (params s) = false <->
        (ringModAmount (params s) <= 0 \/ 1 <= ringModAmount (params s))%R).
Proof.
  intros s' b. eexists. split; [apply webaudio_noteOn_trace |]. split.
  - rewrite oscillator_filter_connections_of_voice.
    unfold s'. by rewrite webaudio_retrigger_params.
  - apply ringMod_enabled_spec.
Qed.

(** *** The slide (lines 73-87) *)





(** *** The LFO (lines 146-159) *)

Lemma webaudio_lfo_of_voice p active master n v sl now b :
  calls_on (lfo b) (voice_calls p active master n v sl now b)
  = (if lfo_enabled p
     then [ createOscillator (lfo b);
            set_value (lfo b) p_frequency (lfoRate p);
            connect (lfo b) (to_node (lfoGain b));
            start (lfo b) ]
     else [])
  /\ calls_on (lfoGain b) (voice_calls p active master n v sl now b)
     = (if lfo_enabled p
        then [ createGain (lfoGain b);
               set_value (lfoGain b) p_gain (lfoAmount p * 100);
               connect (lfoGain b) (to_param (osc b) p_frequency) ]
        else []).
Proof.
  unfold calls_on, voice_calls, oscillator_calls, filter_calls,
    envelope_calls, ringMod_calls, lfo_calls, output_calls.
  rewrite !List.filter_app.
  destruct (Rltb 0 sl), (Reqb (detuneAmount p) 0), (ringMod_enabled p),
    (lfo_enabled p); eval_filter; split; reflexivity.
Qed.

(** *** Node numbers are fresh *)

Ltac split_conditions p sl :=
  destruct (Rltb 0 sl), (Reqb (detuneAmount p) 0), (ringMod_enabled p),
    (lfo_enabled p).

Lemma voice_calls_nodes p active master n v sl now b :
  Forall (fun c => (call_node c < b + 8)%nat)
         (voice_calls p active master n v sl now b).
Proof.
  unfold voice_calls, oscillator_calls, filter_calls, envelope_calls,
    ringMod_calls, lfo_calls, output_calls.
  split_conditions p sl;
    repeat (apply Forall_app; split);
    repeat (apply Forall_cons; split; [node_eqb; simpl; lia |]);
    apply Forall_nil_2.
Qed.

Lemma voice_calls_no_stop p active master n v sl now b o :
  existsb (is_release_of o) (voice_calls p active master n v sl now b) = false.
Proof.
  unfold voice_calls, oscillator_calls, filter_calls, envelope_calls,
    ringMod_calls, lfo_calls, output_calls.
  split_conditions p sl; reflexivity.
Qed.

Lemma voice_calls_start p active master n v sl now b :
  existsb (is_start_of (osc b)) (voice_calls p active master n v sl now b)
  = true.
Proof.
  unfold voice_calls, oscillator_calls, filter_calls, envelope_calls,
    ringMod_calls, lfo_calls, output_calls.
  split_conditions p sl; cbn [existsb app is_start_of]; node_eqb;
    reflexivity.
Qed.

Lemma is_release_of_node o c : is_release_of o c = true -> call_node c = o.
Proof. destruct c; simpl; try done. by intros ->%Nat.eqb_eq. Qed.

Lemma webaudio_not_released_fresh (calls : list call) o :
  Forall (fun c => (call_node c < o)%nat) calls ->
  existsb (is_release_of o) calls = false.
Proof. apply not_exists_fresh. intros c. apply is_release_of_node. Qed.

Lemma noteOff_calls_nodes n now s :
  well_formed s ->
  Forall (fun c => (call_node c < next_node s)%nat) (noteOff_calls n now s).
Proof.
  intros (_ & _ & Ho & Hg & _ & Hl & _). unfold noteOff_calls.
  apply Forall_app. split.
  - destruct (gains s !! n) as [g|] eqn:Eg; [| apply Forall_nil_2].
    destruct (oscillators s !! n) as [o|] eqn:Eo; [| apply Forall_nil_2].
    apply Hg in Eg. apply Ho in Eo.
    repeat (apply Forall_cons; split; [simpl; lia |]). apply Forall_nil_2.
  - destruct (lfos s !! n) as [l|] eqn:El; [| apply Forall_nil_2].
    apply Hl in El. apply Forall_cons. split; [simpl; lia | apply Forall_nil_2].
Qed.

Lemma webaudio_init_well_formed : well_formed init.
Proof.
  split.
  { repeat (apply Forall_cons; split; [simpl; lia |]). apply Forall_nil_2. }
  split; [simpl; lia |].
  repeat split; intros n o H;
    cbn [oscillators gains filters lfos ringModOscillators ringModGains init]
      in H;
    by apply lookup_empty_Some in H.
Qed.

Lemma webaudio_noteOff_well_formed n now s :
  well_formed s -> well_formed (noteOff n now s).
Proof.
  intros Hwf. pose proof (noteOff_calls_nodes n now s Hwf) as Hc.
  destruct Hwf as (Ht & Hm & Ho & Hg & Hf & Hl & Hr & Hrg).
  split; [by apply Forall_app |].
  repeat (split; [assumption |]).
  split; [| by split].
  intros m o Hm'. cbn [noteOff lfos] in Hm'.
  apply lookup_delete_Some in Hm' as [_ Hm']. by eapply Hl.
Qed.

Lemma webaudio_retrigger_well_formed n now s :
  well_formed s -> well_formed (retrigger n now s).
Proof.
  intros H. unfold retrigger. destruct (decide _); [| done].
  by apply webaudio_noteOff_well_formed.
Qed.

Lemma inserted_below (m : gmap Z nat) (n : Z) (o bound bound' : nat) :
  (o < bound')%nat -> (bound <= bound')%nat ->
  (forall k x, m !! k = Some x -> (x < bound)%nat) ->
  forall k x, <[n := o]> m !! k = Some x -> (x < bound')%nat.
Proof.
  intros Ho Hb Hm k x [[_ <-] | [_ H]]%lookup_insert_Some; [done |].
  apply Hm in H. lia.
Qed.

Lemma webaudio_build_well_formed n v sl now s :
  well_formed s -> well_formed (build n v sl now s).
Proof.
  intros (Ht & Hm & Ho & Hg & Hf & Hl & Hr & Hrg).
  assert (forall (m : gmap Z nat),
            (forall k x, m !! k = Some x -> (x < next_node s)%nat) ->
            forall k x, m !! k = Some x -> (x < next_node s + 8)%nat) as Hweak.
  { intros m H k x Hk. apply H in Hk. lia. }
  split; [| split; [| split; [| split; [| split; [| split; [| split]]]]]];
    cbn [build trace next_node masterGain oscillators gains filters lfos
         ringModOscillators ringModGains].
  - apply Forall_app. split; [| apply voice_calls_nodes].
    eapply Forall_impl; [exact Ht |]. simpl. intros; lia.
  - lia.
  - eapply inserted_below; [| | exact Ho]; unfold osc; lia.
  - eapply inserted_below; [| | exact Hg]; unfold gainNode; lia.
  - eapply inserted_below; [| | exact Hf]; unfold filter; lia.
  - destruct (lfo_enabled (params s)); [| by apply Hweak].
    eapply inserted_below; [| | exact Hl]; unfold lfo; lia.
  - destruct (ringMod_enabled (params s)); [| by apply Hweak].
    eapply inserted_below; [| | exact Hr]; unfold ringModOsc; lia.
  - intros k os Hk. destruct (ringMod_enabled (params s)).
    + apply lookup_insert_Some in Hk as [[_ <-] | [_ Hk]].
      * unfold ringModGain, ringModCarrier.
        repeat (apply Forall_cons; split; [lia |]). apply Forall_nil_2.
      * apply Hrg in Hk. eapply Forall_impl; [exact Hk |]. simpl. intros; lia.
    + apply Hrg in Hk. eapply Forall_impl; [exact Hk |]. simpl. intros; lia.
Qed.

Lemma webaudio_noteOn_well_formed n v sl now s :
  well_formed s -> well_formed (noteOn n v sl now s).
Proof. intros H. by apply webaudio_build_well_formed, webaudio_retrigger_well_formed. Qed.

Lemma map_values_below (m : gmap Z nat) (bound : nat) (f : nat -> call) :
  (forall k x, m !! k = Some x -> (x < bound)%nat) ->
  (forall x, call_node (f x) = x) ->
  Forall (fun c => (call_node c < bound)%nat)
         ((fun kv => f kv.2) <$> map_to_list m).
Proof.
  intros Hm Hf. apply Forall_fmap, Forall_forall. intros [k x] Hin.
  apply elem_of_map_to_list in Hin. simpl. rewrite Hf. by eapply Hm.
Qed.

Lemma stopAll_calls_nodes now s :
  well_formed s ->
  Forall (fun c => (call_node c < next_node s)%nat) (stopAll_calls now s).
Proof.
  intros (_ & _ & Ho & Hg & _ & Hl & Hr & Hrg). unfold stopAll_calls.
  repeat (apply Forall_app; split).
  - by apply (map_values_below _ _ (fun o => stop o (Some now))).
  - by apply (map_values_below _ _ (fun o => stop o (Some now))).
  - by apply (map_values_below _ _ (fun o => stop o None)).
  - apply Forall_forall. intros c (kv & Hc & Hin)%list_elem_of_bind.
    destruct kv as [k g]. apply elem_of_map_to_list, Hg in Hin.
    unfold mute in Hc. cbn [snd] in Hc.
    repeat (apply elem_of_cons in Hc as [-> | Hc]; [simpl; lia |]).
    by apply elem_of_nil in Hc.
  - apply Forall_forall. intros c (kv & Hc & Hin)%list_elem_of_bind.
    destruct kv as [k gs]. apply elem_of_map_to_list, Hrg in Hin.
    cbn [snd] in Hc. apply list_elem_of_bind in Hc as (g & Hc & Hg').
    rewrite Forall_forall in Hin. apply Hin in Hg'. unfold mute in Hc.
    repeat (apply elem_of_cons in Hc as [-> | Hc]; [simpl; lia |]).
    by apply elem_of_nil in Hc.
Qed.

Lemma webaudio_perform_well_formed o s s' :
  well_formed s -> perform o s = Some s' -> well_formed s'.
Proof.
  intros Hwf H. destruct o; cbn [perform] in H; try injection H as <-.
  - exact Hwf.
  - by apply webaudio_noteOn_well_formed.
  - by apply webaudio_noteOff_well_formed.
  - destruct Hwf as (Ht & Hm & Ho & Hg & Hf & Hrest).
    split; [| done]. cbn [updateFilterCutoff trace next_node].
    apply Forall_app. split; [done |].
    destruct (filters s !! noteNumber) as [f|] eqn:E; [| apply Forall_nil_2].
    apply Hf in E. apply Forall_cons. split; [simpl; lia | apply Forall_nil_2].
  - destruct Hwf as (Ht & Hm & Hrest).
    split; [| done]. cbn [setMasterVolume trace next_node].
    apply Forall_app. split; [done |].
    apply Forall_cons. split; [simpl; lia | apply Forall_nil_2].
  - pose proof (stopAll_calls_nodes now s Hwf) as Hc.
    destruct Hwf as (Ht & Hm & _).
    split; [by apply Forall_app |]. split; [done |].
    repeat split; intros n o H;
      cbn [stopAllNotes oscillators gains filters lfos ringModOscillators
           ringModGains] in H;
      by apply lookup_empty_Some in H.
  - unfold fire in H. destruct (timeouts s !! k) as [t|]; [| done].
    injection H as <-.
    destruct Hwf as (Ht & Hm & Ho & Hg & Hf & Hl & Hr & Hrg).
    split; [done |]. split; [done |].
    cbn [forget_note oscillators gains filters lfos ringModOscillators
         ringModGains next_node].
    split; [| split; [| split; [| by repeat split]]];
      intros n o [_ H]%lookup_delete_Some; eauto.
Qed.

Lemma webaudio_reachable_well_formed s : reachable s -> well_formed s.
Proof.
  induction 1 as [| o s s' _ IH H]; [apply webaudio_init_well_formed |].
  by eapply webaudio_perform_well_formed.
Qed.

(** *** Re-triggering a note (lines 63-65) *)

Lemma webaudio_noteOn_of_active_note n v sl now s :
  n ∈ activeNotes s ->
  noteOn n v sl now s = build n v sl now (noteOff n now s).
Proof.
  intros H. unfold noteOn, retrigger. by destruct (decide _).
Qed.

Lemma webaudio_noteOn_registers n v sl now s :
  oscillators (noteOn n v sl now s) !! n = Some (osc (next_node s))
  /\ gains (noteOn n v sl now s) !! n = Some (gainNode (next_node s))
  /\ n ∈ activeNotes (noteOn n v sl now s)
  /\ next_node (noteOn n v sl now s) = (next_node s + 8)%nat.
Proof.
  unfold noteOn.
  cbn [build oscillators gains activeNotes next_node].
  rewrite retrigger_next_node, !lookup_insert_eq.
  repeat split. set_solver.
Qed.

Lemma webaudio_retrigger_releases (s : state) n v sl now now' v' sl' :
  well_formed s ->
  let s1 := noteOn n v sl now s in
  let s2 := noteOn n v' sl' now' s1 in
  let o1 := osc (next_node s) in
  let o2 := osc (next_node s1) in
  oscillators s1 !! n = Some o1
  /\ oscillators s2 !! n = Some o2
  /\ o1 <> o2
  /\ released s2 o1 = true
  /\ started s2 o2 = true
  /\ released s2 o2 = false.
Proof.
  intros Hwf s1 s2 o1 o2.
  destruct (webaudio_noteOn_registers n v sl now s) as (Ho1 & Hg1 & Ha1 & Hn1).
  destruct (webaudio_noteOn_registers n v' sl' now' s1) as (Ho2 & _ & _ & _).
  pose proof (webaudio_noteOn_well_formed n v sl now s Hwf) as Hwf1.
  fold s1 in Ho1, Hg1, Ha1, Hn1, Ho2, Hwf1. fold s2 in Ho2.
  assert (trace s2 = (trace s1 ++ noteOff_calls n now' s1) ++
            voice_calls (params s1) (activeNotes s1) (masterGain s1)
              n v' sl' now' (next_node s1)) as Htr.
  { unfold s2. rewrite webaudio_noteOn_of_active_note by done. reflexivity. }
  split; [done |]. split; [done |].
  split; [unfold o1, o2, osc; lia |].
  unfold released, started. rewrite Htr, !existsb_app.
  split; [| split].
  - unfold noteOff_calls. rewrite Hg1, Ho1.
    cbn [existsb app is_release_of]. fold o1. rewrite Nat.eqb_refl.
    by rewrite !orb_true_r.
  - unfold o2. rewrite voice_calls_start. by rewrite orb_true_r.
  - rewrite voice_calls_no_stop, orb_false_r.
    rewrite <- existsb_app. apply webaudio_not_released_fresh.
    apply Forall_app. split; [apply Hwf1 | by apply noteOff_calls_nodes].
Qed.

(** *** Releasing a note (lines 181-206) *)

(** [noteOff] leaves the note in [activeNotes] and in the maps of
    oscillators, gains and filters; it is the timer that removes it. *)
Lemma noteOff_keeps_note_registered n now s :
  activeNotes (noteOff n now s) = activeNotes s
  /\ oscillators (noteOff n now s) = oscillators s
  /\ gains (noteOff n now s) = gains s
  /\ filters (noteOff n now s) = filters s
  /\ timeouts (noteOff n now s)
     = timeouts s ++ [ {| delay := release (params s) * 1000 + 100;
                          forget := n |} ].
Proof. repeat split. Qed.

Lemma forget_note_unregisters n s :
  (n ∉ activeNotes (forget_note n s))
  /\ oscillators (forget_note n s) !! n = None
  /\ gains (forget_note n s) !! n = None
  /\ filters (forget_note n s) !! n = None.
Proof.
  cbn [forget_note activeNotes oscillators gains filters].
  rewrite !lookup_delete_eq. repeat split.
  rewrite elem_of_difference, elem_of_singleton. tauto.
Qed.

(** C2, on WebAudioSynthesizer.ts. After [noteOn(60)] and [noteOff(60)]
    note 60 is still reported active and still has its oscillator
    registered when [noteOff] returns; the removal is what the timer of
    [release * 1000 + 100] ms does. *)
Theorem noteOff_removal_is_deferred :
  let s := noteOff 60 0 (noteOn 60 1 0 0 init) in
  getActiveNotes s = [60]
  /\ oscillators s !! 60 = Some 1%nat
  /\ timeouts s = [ {| delay := 0.3 * 1000 + 100; forget := 60 |} ]
  /\ exists s', fire 0 s = Some s'
       /\ getActiveNotes s' = [] /\ oscillators s' !! 60 = None.
Proof.
  intros s. split; [reflexivity |]. split; [reflexivity |].
  split; [reflexivity |].
  eexists. split; [reflexivity |]. split; reflexivity.
Qed.

Lemma webaudio_noteOn_params n v sl now s : params (noteOn n v sl now s) = params s.
Proof. unfold noteOn. cbn [build params]. apply webaudio_retrigger_params. Qed.

Lemma default_lfo_off : lfo_enabled constructor_params = false.
Proof. apply Rltb_false. simpl. lra. Qed.

Lemma default_ringMod_off : ringMod_enabled constructor_params = false.
Proof. unfold ringMod_enabled. rewrite Rltb_false; [done | simpl; lra]. Qed.

Lemma retrigger_lfos_none n now s :
  lfos s !! n = None -> lfos (retrigger n now s) !! n = None.
Proof.
  intros H. unfold retrigger. destruct (decide _); [| done].
  cbn [noteOff lfos]. apply lookup_delete_eq.
Qed.

Lemma noteOn_without_lfo n v sl now s :
  lfo_enabled (params s) = false -> lfos s !! n = None ->
  lfos (noteOn n v sl now s) !! n = None.
Proof.
  intros Hoff Hn. unfold noteOn. cbn [build lfos].
  rewrite webaudio_retrigger_params, Hoff. by apply retrigger_lfos_none.
Qed.

Lemma fire_forgets k t s :
  timeouts s !! k = Some t ->
  exists s', fire k s = Some s'
    /\ trace s' = trace s
    /\ oscillators s' = delete (forget t) (oscillators s)
    /\ gains s' = delete (forget t) (gains s)
    /\ filters s' = delete (forget t) (filters s)
    /\ lfos s' = lfos s
    /\ activeNotes s' = activeNotes s ∖ {[ forget t ]}.
Proof.
  intros H. unfold fire. rewrite H. eexists. split; [reflexivity |].
  repeat split.
Qed.

(** What the deferred removal does to a re-triggered note: the timer of
    the implicit [noteOff] unregisters the voice built after it, which
    goes on sounding and can no longer be released by [noteOff]. *)
Lemma retriggered_voice_is_orphaned :
  let s2 := noteOn 60 1 0 0 (noteOn 60 1 0 0 init) in
  timeouts s2 = [ {| delay := 0.3 * 1000 + 100; forget := 60 |} ]
  /\ exists s3, fire 0 s2 = Some s3
       /\ oscillators s3 !! 60 = None
       /\ (60 ∉ activeNotes s3)
       /\ started s3 9 = true
       /\ released s3 9 = false
       /\ forall now, noteOff_calls 60 now s3 = [].
Proof.
  intros s2.
  destruct (webaudio_retrigger_releases init 60 1 0 0 0 1 0 webaudio_init_well_formed)
    as (_ & _ & _ & _ & Hstarted & Hreleased).
  assert (timeouts s2 = [ {| delay := 0.3 * 1000 + 100; forget := 60 |} ])
    as Ht by reflexivity.
  assert (lfos s2 !! 60 = None) as Hlfo.
  { apply noteOn_without_lfo.
    - rewrite webaudio_noteOn_params. apply default_lfo_off.
    - apply noteOn_without_lfo; [apply default_lfo_off | done]. }
  split; [exact Ht |].
  destruct (fire_forgets 0 {| delay := 0.3 * 1000 + 100; forget := 60 |} s2)
    as (s3 & Hfire & Htr & Ho & Hg & _ & Hl & Ha); [by rewrite Ht |].
  cbn [forget] in *.
  exists s3. split; [exact Hfire |].
  split; [by rewrite Ho, lookup_delete_eq |].
  split; [rewrite Ha, elem_of_difference, elem_of_singleton; tauto |].
  unfold started, released. rewrite Htr.
  split; [exact Hstarted |]. split; [exact Hreleased |].
  intros now. unfold noteOff_calls.
  by rewrite Hg, Hl, Hlfo, lookup_delete_eq.
Qed.

(** *** Stopping every note (lines 240-300) *)

(** [stopAllNotes] empties [activeNotes] and every map before it
    returns. *)
Lemma stopAllNotes_clears now s :
  getActiveNotes (stopAllNotes now s) = []
  /\ activeNotes (stopAllNotes now s) = ∅
  /\ oscillators (stopAllNotes now s) = ∅
  /\ gains (stopAllNotes now s) = ∅
  /\ filters (stopAllNotes now s) = ∅
  /\ lfos (stopAllNotes now s) = ∅.
Proof. repeat split. Qed.

(** The second [noteOn] replaces the entry of the note: no entry is
    added to the map of oscillators or to the set of active notes. *)
Lemma webaudio_retrigger_replaces (s : state) n v sl now now' v' sl' :
  let s1 := noteOn n v sl now s in
  let s2 := noteOn n v' sl' now' s1 in
  oscillators s2 = <[n := osc (next_node s1)]> (oscillators s1)
  /\ activeNotes s2 = activeNotes s1.
Proof.
  intros s1 s2.
  destruct (webaudio_noteOn_registers n v sl now s) as (_ & _ & Ha1 & _).
  fold s1 in Ha1.
  unfold s2. rewrite webaudio_noteOn_of_active_note by done.
  cbn [build noteOff oscillators activeNotes next_node].
  split; [reflexivity |].
  apply set_eq. intros x. rewrite elem_of_union, elem_of_singleton.
  destruct (decide (x = n)) as [-> | Hne]; tauto.
Qed.

End WebAudioFacts.

(** ** The engine of ToneSynthesizer.ts *)

Module ToneFacts.
Import Tone.

Ltac object_eqb :=
  unfold new_voice in *; cbn [synth filter lfo] in *;
  rewrite ?eqb_offsets, ?eqb_base_offset, ?eqb_offset_base, ?Nat.eqb_refl;
  cbn [Nat.eqb andb orb negb].

Ltac decide_call :=
  cbn [call_object on_frequency_of]; object_eqb; reflexivity.

Ltac eval_filter :=
  repeat first
    [ rewrite filter_keep by decide_call
    | rewrite filter_drop by decide_call ];
  cbn [List.filter app].

Lemma tone_retrigger_params n now s : params (retrigger n now s) = params s.
Proof.
  unfold retrigger, noteOff.
  destruct (decide _); [| done]. by destruct (voices s !! n).
Qed.

Lemma retrigger_next_object n now s :
  next_object (retrigger n now s) = next_object s.
Proof.
  unfold retrigger, noteOff.
  destruct (decide _); [| done]. by destruct (voices s !! n).
Qed.

Lemma retrigger_masterGain n now s :
  masterGain (retrigger n now s) = masterGain s.
Proof.
  unfold retrigger, noteOff.
  destruct (decide _); [| done]. by destruct (voices s !! n).
Qed.

Lemma tone_noteOn_trace n v sl now s :
  trace (noteOn n v sl now s)
  = trace (retrigger n now s)
    ++ voice_calls (params s) (masterGain s) n now (next_object s).
Proof.
  unfold noteOn. cbn [build trace].
  by rewrite tone_retrigger_params, retrigger_masterGain, retrigger_next_object.
Qed.

Lemma tone_noteOn_params n v sl now s : params (noteOn n v sl now s) = params s.
Proof. unfold noteOn. cbn [build params]. apply tone_retrigger_params. Qed.

(** *** The slide and the LFO *)

(** [noteOn] does not look at its velocity and slide time. *)
Lemma noteOn_ignores_velocity_and_slide n v sl v' sl' now s :
  noteOn n v sl now s = noteOn n v' sl' now s.
Proof. reflexivity. Qed.


Lemma tone_lfo_of_voice p master n now b :
  calls_on (lfo (new_voice b)) (voice_calls p master n now b)
  = if lfo_enabled p
    then [ new_LFO (lfo (new_voice b))
             (Some {| lfo_frequency := lfoRate p;
                      lfo_min := Pitch.midiNoteToFrequency n * 0.95;
                      lfo_max := Pitch.midiNoteToFrequency n * 1.05 |});
           connect (lfo (new_voice b))
                   (to_synth_frequency (synth (new_voice b)));
           lfo_start (lfo (new_voice b)) ]
    else [ new_LFO (lfo (new_voice b)) None ].
Proof.
  unfold calls_on, voice_calls. rewrite !List.filter_app.
  destruct (lfo_enabled p); eval_filter; reflexivity.
Qed.

(** *** Object numbers are fresh *)

Lemma voice_calls_objects p master n now b :
  Forall (fun c => (call_object c < b + 3)%nat) (voice_calls p master n now b).
Proof.
  unfold voice_calls.
  destruct (lfo_enabled p);
    repeat (apply Forall_app; split);
    repeat (apply Forall_cons; split; [object_eqb; simpl; lia |]);
    apply Forall_nil_2.
Qed.

Lemma voice_calls_no_release p master n now b o :
  existsb (is_release_of o) (voice_calls p master n now b) = false.
Proof. unfold voice_calls. destruct (lfo_enabled p); reflexivity. Qed.

Lemma voice_calls_attack p master n now b :
  existsb (is_attack_of (synth (new_voice b))) (voice_calls p master n now b)
  = true.
Proof.
  unfold voice_calls.
  destruct (lfo_enabled p); cbn [existsb app is_attack_of]; object_eqb;
    reflexivity.
Qed.

Lemma is_release_of_object o c : is_release_of o c = true -> call_object c = o.
Proof. destruct c; simpl; try done. by intros ->%Nat.eqb_eq. Qed.

Lemma tone_not_released_fresh (calls : list call) o :
  Forall (fun c => (call_object c < o)%nat) calls ->
  existsb (is_release_of o) calls = false.
Proof. apply not_exists_fresh. intros c. apply is_release_of_object. Qed.

Lemma voice_below_weaken bound bound' v :
  (bound <= bound')%nat -> voice_below bound v -> voice_below bound' v.
Proof. unfold voice_below. lia. Qed.

Lemma release_calls_objects now v bound :
  voice_below bound v ->
  Forall (fun c => (call_object c < bound)%nat) (release_calls now v).
Proof.
  intros (Hs & _ & Hl). unfold release_calls.
  repeat (apply Forall_cons; split; [cbn [call_object]; lia |]).
  apply Forall_nil_2.
Qed.

Lemma dispose_calls_objects v bound :
  voice_below bound v ->
  Forall (fun c => (call_object c < bound)%nat) (dispose_calls v).
Proof.
  intros (Hs & Hf & Hl). unfold dispose_calls.
  repeat (apply Forall_cons; split; [cbn [call_object]; lia |]).
  apply Forall_nil_2.
Qed.

Lemma voices_calls_objects (m : gmap Z VoiceNode) bound
    (f : VoiceNode -> list call) :
  (forall n v, m !! n = Some v -> voice_below bound v) ->
  (forall v, voice_below bound v ->
     Forall (fun c => (call_object c < bound)%nat) (f v)) ->
  Forall (fun c => (call_object c < bound)%nat)
         (map_to_list m ≫= fun kv => f kv.2).
Proof.
  intros Hm Hf. apply Forall_forall.
  intros c (kv & Hc & Hin)%list_elem_of_bind. destruct kv as [n v].
  apply elem_of_map_to_list, Hm, Hf in Hin. rewrite Forall_forall in Hin.
  by apply Hin.
Qed.

Lemma tone_init_well_formed : well_formed init.
Proof.
  split.
  { repeat (apply Forall_cons; split; [simpl; lia |]). apply Forall_nil_2. }
  split; [simpl; lia |]. split.
  - intros n v H. cbn [voices init] in H. by apply lookup_empty_Some in H.
  - intros t v H. cbn [timeouts init] in H. by apply elem_of_nil in H.
Qed.

Lemma tone_noteOff_well_formed n now s :
  well_formed s -> well_formed (noteOff n now s).
Proof.
  intros (Ht & Hm & Hv & Hd). unfold noteOff.
  destruct (voices s !! n) as [voice|] eqn:E; [| done].
  pose proof (Hv n voice E) as Hvoice.
  split; [| split; [done | split]]; cbn [trace next_object voices timeouts].
  - apply Forall_app. split; [done | by apply release_calls_objects].
  - intros m v [_ Hm']%lookup_delete_Some. by eapply Hv.
  - intros t v [Hin | ->%list_elem_of_singleton]%elem_of_app Ha.
    + by eapply Hd.
    + cbn [action] in Ha. by injection Ha as <-.
Qed.

Lemma tone_retrigger_well_formed n now s :
  well_formed s -> well_formed (retrigger n now s).
Proof.
  intros H. unfold retrigger. destruct (decide _); [| done].
  by apply tone_noteOff_well_formed.
Qed.

Lemma tone_build_well_formed n now s :
  well_formed s -> well_formed (build n now s).
Proof.
  intros (Ht & Hm & Hv & Hd).
  split; [| split; [| split]];
    cbn [build trace next_object masterGain voices timeouts].
  - apply Forall_app. split; [| apply voice_calls_objects].
    eapply Forall_impl; [exact Ht |]. simpl. intros; lia.
  - lia.
  - intros m v [[_ <-] | [_ H]]%lookup_insert_Some.
    + unfold voice_below. cbn [new_voice synth filter lfo]. lia.
    + eapply voice_below_weaken; [| by eapply Hv]. lia.
  - intros t v Hin Ha. eapply voice_below_weaken; [| by eapply Hd]. lia.
Qed.

Lemma tone_noteOn_well_formed n v sl now s :
  well_formed s -> well_formed (noteOn n v sl now s).
Proof. intros H. by apply tone_build_well_formed, tone_retrigger_well_formed. Qed.

Lemma tone_perform_well_formed o s s' :
  well_formed s -> perform o s = Some s' -> well_formed s'.
Proof.
  intros Hwf H. destruct o; cbn [perform] in H; try injection H as <-.
  - destruct Hwf as (Ht & Hm & Hv & Hd).
    split; [| done]. cbn [updateParams trace next_object].
    apply Forall_app. split; [done |].
    apply voices_calls_objects; [exact Hv |].
    intros v (Hs & Hf & Hl). unfold updateVoiceParams_calls.
    repeat (apply Forall_cons; split; [cbn [call_object]; lia |]).
    apply Forall_nil_2.
  - by apply tone_noteOn_well_formed.
  - by apply tone_noteOff_well_formed.
  - destruct Hwf as (Ht & Hm & Hrest).
    split; [| done]. cbn [setMasterVolume trace next_object].
    apply Forall_app. split; [done |].
    apply Forall_cons. split; [simpl; lia | apply Forall_nil_2].
  - destruct Hwf as (Ht & Hm & Hv & Hd).
    split; [| split; [done | split; [done |]]];
      cbn [stopAllNotes trace next_object timeouts].
    + apply Forall_app. split; [done |].
      apply voices_calls_objects; [exact Hv |].
      intros v. apply release_calls_objects.
    + intros t v [Hin | ->%list_elem_of_singleton]%elem_of_app Ha;
        [by eapply Hd | done].
  - unfold fire in H. destruct (timeouts s !! k) as [t|] eqn:E; [| done].
    injection H as <-.
    destruct Hwf as (Ht & Hm & Hv & Hd).
    assert (forall t' v, t' ∈ take k (timeouts s) ++ drop (S k) (timeouts s) ->
              action t' = dispose_voice v -> voice_below (next_object s) v)
      as Hd'.
    { intros t' v [Hin | Hin]%elem_of_app Ha.
      - eapply Hd; [| exact Ha]. by eapply subseteq_take.
      - eapply Hd; [| exact Ha]. by eapply subseteq_drop. }
    destruct (action t) as [voice|] eqn:Ea; cbn [run_callback].
    + split; [| done]. cbn [trace next_object]. apply Forall_app.
      split; [done |]. apply dispose_calls_objects.
      eapply Hd; [| exact Ea]. by eapply list_elem_of_lookup_2.
    + split; [| split; [done | split; [| done]]];
        cbn [trace next_object voices].
      * apply Forall_app. split; [done |].
        apply voices_calls_objects; [exact Hv |].
        intros v. apply dispose_calls_objects.
      * intros n v H. by apply lookup_empty_Some in H.
Qed.

Lemma tone_reachable_well_formed s : reachable s -> well_formed s.
Proof.
  induction 1 as [| o s s' _ IH H]; [apply tone_init_well_formed |].
  by eapply tone_perform_well_formed.
Qed.

(** *** Re-triggering a note (lines 81-83) *)

Lemma tone_noteOn_of_active_note n v sl now s :
  n ∈ activeNotes s -> noteOn n v sl now s = build n now (noteOff n now s).
Proof. intros H. unfold noteOn, retrigger. by destruct (decide _). Qed.

Lemma tone_noteOn_registers n v sl now s :
  voices (noteOn n v sl now s) !! n = Some (new_voice (next_object s))
  /\ n ∈ activeNotes (noteOn n v sl now s)
  /\ next_object (noteOn n v sl now s) = (next_object s + 3)%nat.
Proof.
  unfold noteOn. cbn [build voices activeNotes next_object].
  rewrite retrigger_next_object, lookup_insert_eq.
  repeat split. apply elem_of_union_l, elem_of_singleton. reflexivity.
Qed.

Lemma tone_retrigger_releases (s : state) n v sl now now' v' sl' :
  well_formed s ->
  let s1 := noteOn n v sl now s in
  let s2 := noteOn n v' sl' now' s1 in
  let v1 := new_voice (next_object s) in
  let v2 := new_voice (next_object s1) in
  voices s1 !! n = Some v1
  /\ voices s2 !! n = Some v2
  /\ synth v1 <> synth v2
  /\ released s2 (synth v1) = true
  /\ attacked s2 (synth v2) = true
  /\ released s2 (synth v2) = false.
Proof.
  intros Hwf s1 s2 v1 v2.
  destruct (tone_noteOn_registers n v sl now s) as (Hv1 & Ha1 & Hn1).
  destruct (tone_noteOn_registers n v' sl' now' s1) as (Hv2 & _ & _).
  pose proof (tone_noteOn_well_formed n v sl now s Hwf) as Hwf1.
  fold s1 in Hv1, Ha1, Hn1, Hv2, Hwf1. fold s2 in Hv2.
  assert (trace s2 = (trace s1 ++ release_calls now' v1) ++
            voice_calls (params s1) (masterGain s1) n now' (next_object s1))
    as Htr.
  { unfold s2. rewrite tone_noteOn_of_active_note by done.
    unfold noteOff. rewrite Hv1. reflexivity. }
  split; [done |]. split; [done |].
  split; [unfold v1, v2; cbn [new_voice synth]; lia |].
  unfold released, attacked. rewrite Htr, !existsb_app.
  split; [| split].
  - cbn [release_calls existsb is_release_of]. rewrite Nat.eqb_refl.
    by rewrite !orb_true_r.
  - unfold v2. rewrite voice_calls_attack. by rewrite orb_true_r.
  - rewrite voice_calls_no_release, orb_false_r.
    rewrite <- existsb_app. apply tone_not_released_fresh.
    apply Forall_app. split; [apply Hwf1 |].
    destruct Hwf1 as (_ & _ & Hv & _).
    apply release_calls_objects. by eapply Hv.
Qed.

(** The second [noteOn] replaces the entry of the note: no entry is
    added to the map of voices or to the set of active notes. *)
Lemma tone_retrigger_replaces (s : state) n v sl now now' v' sl' :
  let s1 := noteOn n v sl now s in
  let s2 := noteOn n v' sl' now' s1 in
  voices s2 = <[n := new_voice (next_object s1)]> (voices s1)
  /\ activeNotes s2 = activeNotes s1.
Proof.
  intros s1 s2.
  destruct (tone_noteOn_registers n v sl now s) as (Hv1 & Ha1 & _).
  fold s1 in Hv1, Ha1.
  unfold s2. rewrite tone_noteOn_of_active_note by done.
  unfold noteOff. rewrite Hv1. cbn [build voices activeNotes next_object].
  split; [apply insert_delete_eq |].
  apply set_eq. intros x.
  rewrite elem_of_union, elem_of_difference, elem_of_singleton.
  destruct (decide (x = n)) as [-> | Hne]; tauto.
Qed.

(** *** Releasing a note (lines 137-167) *)

(** [noteOff] of a note with a voice removes the note from the map of
    voices and from the set of active notes before it returns, makes no
    [dispose] call, and registers a timer of [release * 1000 + 100] ms
    whose callback disposes of the three objects of the voice. *)
Lemma noteOff_removes_at_once n now s voice :
  voices s !! n = Some voice ->
  let s' := noteOff n now s in
  voices s' !! n = None
  /\ (n ∉ activeNotes s')
  /\ trace s' = trace s ++ [ triggerRelease (synth voice) now;
                             lfo_stop (lfo voice) ]
  /\ timeouts s'
     = timeouts s ++ [ {| delay := release (params s) * 1000 + 100;
                          action := dispose_voice voice |} ]
  /\ exists s'', fire (length (timeouts s)) s' = Some s''
       /\ trace s'' = trace s' ++ [ dispose (synth voice);
                                    dispose (filter voice);
                                    dispose (lfo voice) ].
Proof.
  intros Hv s'. unfold s', noteOff. rewrite Hv.
  cbn [voices activeNotes trace timeouts].
  split; [apply lookup_delete_eq |].
  split; [rewrite elem_of_difference, elem_of_singleton; tauto |].
  split; [reflexivity |]. split; [reflexivity |].
  unfold fire. cbn [timeouts].
  rewrite lookup_app_r by lia. rewrite Nat.sub_diag. cbn [lookup list_lookup].
  eexists. split; reflexivity.
Qed.

(** *** Stopping every note (lines 169-195) *)

(** [stopAllNotes] changes neither the map of voices nor the set of
    active notes; the timer it registers clears both. *)
Lemma stopAllNotes_keeps_notes_registered now s :
  voices (stopAllNotes now s) = voices s
  /\ activeNotes (stopAllNotes now s) = activeNotes s
  /\ timeouts (stopAllNotes now s)
     = timeouts s ++ [ {| delay := release (params s) * 1000 + 100;
                          action := dispose_all_voices |} ].
Proof. repeat split. Qed.

(** C3, on ToneSynthesizer.ts. After [noteOn(60)] and [stopAllNotes()]
    note 60 is still in the set of active notes and in the map of voices
    when [stopAllNotes] returns; both are cleared by the timer of
    [release * 1000 + 100] ms. *)
Theorem stopAllNotes_clearing_is_deferred :
  let s := stopAllNotes 0 (noteOn 60 1 0 0 init) in
  60 ∈ activeNotes s
  /\ voices s !! 60 = Some (new_voice 1)
  /\ timeouts s
     = [ {| delay := 0.3 * 1000 + 100; action := dispose_all_voices |} ]
  /\ exists s', fire 0 s = Some s' /\ activeNotes s' = ∅ /\ voices s' = ∅.
Proof.
  intros s.
  destruct (tone_noteOn_registers 60 1 0 0 init) as (Hv & Ha & _).
  split; [exact Ha |]. split; [exact Hv |]. split; [reflexivity |].
  eexists. split; [reflexivity |]. split; reflexivity.
Qed.

(** What the deferred clearing does to a note started before the timer
    fires: its voice is disposed of and unregistered with the others. *)
Lemma stopAllNotes_timer_takes_later_voices n v sl now now' s :
  let s1 := stopAllNotes now s in
  let s2 := noteOn n v sl now' s1 in
  let voice := new_voice (next_object s) in
  voices s2 !! n = Some voice
  /\ exists s3, fire (length (timeouts s)) s2 = Some s3
       /\ voices s3 = ∅
       /\ activeNotes s3 = ∅
       /\ disposed s3 (synth voice) = true.
Proof.
  intros s1 s2 voice.
  destruct (tone_noteOn_registers n v sl now' s1) as (Hv & _ & _).
  fold s2 in Hv. split; [exact Hv |].
  assert (timeouts s2 !! length (timeouts s)
          = Some {| delay := release (params s) * 1000 + 100;
                    action := dispose_all_voices |}) as Ht.
  { unfold s2, noteOn. cbn [build timeouts].
    unfold retrigger. destruct (decide _); [unfold noteOff |].
    - destruct (voices s1 !! n); cbn [timeouts s1 stopAllNotes].
      + rewrite <- app_assoc. by apply list_lookup_middle.
      + by apply list_lookup_middle.
    - cbn [timeouts s1 stopAllNotes]. by apply list_lookup_middle. }
  unfold fire. rewrite Ht. cbn [action run_callback].
  eexists. split; [reflexivity |].
  cbn [voices activeNotes]. split; [done |]. split; [done |].
  unfold disposed. cbn [trace]. rewrite existsb_app.
  apply orb_true_iff. right. apply existsb_exists.
  exists (dispose (synth voice)). split; [| cbn; apply Nat.eqb_refl].
  apply list_elem_of_In, list_elem_of_bind.
  exists (n, voice). split; [apply list_elem_of_here |].
  by apply elem_of_map_to_list.
Qed.

End ToneFacts.

(** ** The two engines side by side *)

Module Engines.

(** C1. In every state either engine can reach, [noteOn(n)] called twice in
    a row does this: the second call is [noteOff(n)] followed by the
    construction of a voice, it replaces the registered voice of [n] by the
    new one (no entry is added to the map or to the set of active notes),
    the voice of the first call has been released, and the new voice has
    been started and not released. *)
Theorem retrigger_leaves_one_voice
    (n : Z) (v sl now v' sl' now' : R) (t : Tone.state) (w : WebAudio.state) :
  Tone.reachable t -> WebAudio.reachable w ->
  let t1 := Tone.noteOn n v sl now t in
  let t2 := Tone.noteOn n v' sl' now' t1 in
  let w1 := WebAudio.noteOn n v sl now w in
  let w2 := WebAudio.noteOn n v' sl' now' w1 in
  let voice1 := Tone.new_voice (Tone.next_object t) in
  let voice2 := Tone.new_voice (Tone.next_object t1) in
  let osc1 := WebAudio.osc (WebAudio.next_node w) in
  let osc2 := WebAudio.osc (WebAudio.next_node w1) in
  (t2 = Tone.build n now' (Tone.noteOff n now' t1)
   /\ Tone.voices t1 !! n = Some voice1
   /\ Tone.voices t2 = <[n := voice2]> (Tone.voices t1)
   /\ Tone.activeNotes t2 = Tone.activeNotes t1
   /\ Tone.synth voice1 <> Tone.synth voice2
   /\ Tone.released t2 (Tone.synth voice1) = true
   /\ Tone.attacked t2 (Tone.synth voice2) = true
   /\ Tone.released t2 (Tone.synth voice2) = false)
  /\ (w2 = WebAudio.build n v' sl' now' (WebAudio.noteOff n now' w1)
      /\ WebAudio.oscillators w1 !! n = Some osc1
      /\ WebAudio.oscillators w2 = <[n := osc2]> (WebAudio.oscillators w1)
      /\ WebAudio.activeNotes w2 = WebAudio.activeNotes w1
      /\ osc1 <> osc2
      /\ WebAudio.released w2 osc1 = true
      /\ WebAudio.started w2 osc2 = true
      /\ WebAudio.released w2 osc2 = false).
Proof.
  intros Ht%ToneFacts.tone_reachable_well_formed
         Hw%WebAudioFacts.webaudio_reachable_well_formed
         t1 t2 w1 w2 voice1 voice2 osc1 osc2.
  split.
  - destruct (ToneFacts.tone_retrigger_releases t n v sl now now' v' sl' Ht)
      as (H1 & _ & Hne & Hr1 & Ha2 & Hr2).
    destruct (ToneFacts.tone_retrigger_replaces t n v sl now now' v' sl')
      as (Hv & Ha).
    destruct (ToneFacts.tone_noteOn_registers n v sl now t) as (_ & Hin & _).
    split; [by apply ToneFacts.tone_noteOn_of_active_note |].
    repeat (split; [assumption |]). assumption.
  - destruct (WebAudioFacts.webaudio_retrigger_releases w n v sl now now' v' sl' Hw)
      as (H1 & _ & Hne & Hr1 & Ha2 & Hr2).
    destruct (WebAudioFacts.webaudio_retrigger_replaces w n v sl now now' v' sl')
      as (Hv & Ha).
    destruct (WebAudioFacts.webaudio_noteOn_registers n v sl now w)
      as (_ & _ & Hin & _).
    split; [by apply WebAudioFacts.webaudio_noteOn_of_active_note |].
    repeat (split; [assumption |]). assumption.
Qed.

(** [noteOn(60)] twice on each freshly constructed engine. *)
Lemma retrigger_leaves_one_voice_witness :
  Tone.reachable Tone.init /\ WebAudio.reachable WebAudio.init
  /\ Tone.released
       (Tone.noteOn 60 1 0 0 (Tone.noteOn 60 1 0 0 Tone.init)) 1 = true
  /\ Tone.released
       (Tone.noteOn 60 1 0 0 (Tone.noteOn 60 1 0 0 Tone.init)) 4 = false
  /\ WebAudio.released
       (WebAudio.noteOn 60 1 0 0 (WebAudio.noteOn 60 1 0 0 WebAudio.init)) 1
     = true
  /\ WebAudio.released
       (WebAudio.noteOn 60 1 0 0 (WebAudio.noteOn 60 1 0 0 WebAudio.init)) 9
     = false.
Proof.
  split; [apply Tone.reachable_init |].
  split; [apply WebAudio.reachable_init |].
  destruct (retrigger_leaves_one_voice 60 1 0 0 1 0 0 Tone.init WebAudio.init
              Tone.reachable_init WebAudio.reachable_init)
    as ((_ & _ & _ & _ & _ & Ht1 & _ & Ht2)
        & (_ & _ & _ & _ & _ & Hw1 & _ & Hw2)).
  split; [exact Ht1 |]. split; [exact Ht2 |]. split; [exact Hw1 | exact Hw2].
Defined.



(** C7 as stated fails on WebAudioSynthesizer.ts: with [lfoAmount] 0.5 the
    gain that scales the LFO of note 69 (440 Hz) is 50, the amount times
    100, and not 5% of the frequency of the note. *)
Lemma webaudio_lfo_depth_follows_amount :
  let w := WebAudio.updateParams (only_lfoAmount 0.5) WebAudio.init in
  (exists calls,
      WebAudio.trace (WebAudio.noteOn 69 1 0 0 w) = WebAudio.trace w ++ calls
      /\ WebAudio.calls_on 8 calls
         = [ WebAudio.createGain 8;
             WebAudio.set_value 8 WebAudio.p_gain (0.5 * 100);
             WebAudio.connect 8 (WebAudio.to_param 1 WebAudio.p_frequency) ])
  /\ (0.5 * 100 <> 0.05 * Pitch.midiNoteToFrequency 69)%R.
Proof.
  intros w. split.
  - eexists. split; [apply (WebAudioFacts.webaudio_noteOn_trace 69 1 0 0 w) |].
    pose proof (WebAudioFacts.webaudio_lfo_of_voice
                  (WebAudio.params w) (WebAudio.activeNotes w)
                  (WebAudio.masterGain w) 69 1 0 0 1) as [_ H].
    assert (WebAudio.lfo_enabled (WebAudio.params w) = true) as E.
    { apply Rltb_true. cbn. lra. }
    rewrite E in H. exact H.
  - rewrite PitchFacts.midiNoteToFrequency_A4. lra.
Qed.

(** C7, as amended. In both engines [noteOn] builds and connects an LFO
    exactly when [lfoAmount > 0], running at [lfoRate] Hz.  In
    ToneSynthesizer.ts it sweeps between 0.95 and 1.05 times the frequency
    of the note, whatever the amount, and when the amount is not positive
    the LFO object of the voice is created without options and is neither
    connected nor started.  In WebAudioSynthesizer.ts the LFO reaches the
    frequency of the oscillator through a gain of [lfoAmount * 100]. *)
Theorem lfo_of_each_engine
    (n : Z) (v sl now : R) (w : WebAudio.state) (t : Tone.state) :
  let f := Pitch.midiNoteToFrequency n in
  let voice := Tone.new_voice (Tone.next_object t) in
  let b := WebAudio.next_node w in
  (Tone.lfo_enabled (Tone.params t) = true
   <-> (0 < lfoAmount (Tone.params t))%R)
  /\ (WebAudio.lfo_enabled (WebAudio.params w) = true
      <-> (0 < lfoAmount (WebAudio.params w))%R)
  /\ (exists calls,
        Tone.trace (Tone.noteOn n v sl now t)
        = Tone.trace (Tone.retrigger n now t) ++ calls
        /\ Tone.calls_on (Tone.lfo voice) calls
           = if Tone.lfo_enabled (Tone.params t)
             then [ Tone.new_LFO (Tone.lfo voice)
                      (Some {| Tone.lfo_frequency := lfoRate (Tone.params t);
                               Tone.lfo_min := f * 0.95;
                               Tone.lfo_max := f * 1.05 |});
                    Tone.connect (Tone.lfo voice)
                      (Tone.to_synth_frequency (Tone.synth voice));
                    Tone.lfo_start (Tone.lfo voice) ]
             else [ Tone.new_LFO (Tone.lfo voice) None ])
  /\ (exists calls,
        WebAudio.trace (WebAudio.noteOn n v sl now w)
        = WebAudio.trace (WebAudio.retrigger n now w) ++ calls
        /\ WebAudio.calls_on (WebAudio.lfo b) calls
           = (if WebAudio.lfo_enabled (WebAudio.params w)
              then [ WebAudio.createOscillator (WebAudio.lfo b);
                     WebAudio.set_value (WebAudio.lfo b) WebAudio.p_frequency
                       (lfoRate (WebAudio.params w));
                     WebAudio.connect (WebAudio.lfo b)
                       (WebAudio.to_node (WebAudio.lfoGain b));
                     WebAudio.start (WebAudio.lfo b) ]
              else [])
        /\ WebAudio.calls_on (WebAudio.lfoGain b) calls
           = (if WebAudio.lfo_enabled (WebAudio.params w)
              then [ WebAudio.createGain (WebAudio.lfoGain b);
                     WebAudio.set_value (WebAudio.lfoGain b) WebAudio.p_gain
                       (lfoAmount (WebAudio.params w) * 100);
                     WebAudio.connect (WebAudio.lfoGain b)
                       (WebAudio.to_param (WebAudio.osc b)
                          WebAudio.p_frequency) ]
              else [])).
Proof.
  intros f voice b. split; [apply Rltb_spec |]. split; [apply Rltb_spec |].
  split.
  - eexists. split; [apply ToneFacts.tone_noteOn_trace |].
    apply ToneFacts.tone_lfo_of_voice.
  - eexists. split; [apply WebAudioFacts.webaudio_noteOn_trace |].
    rewrite WebAudioFacts.retrigger_next_node,
      WebAudioFacts.webaudio_retrigger_params.
    apply WebAudioFacts.webaudio_lfo_of_voice.
Qed.

End Engines.

(** ** The sequencer clock *)

Module AppFacts.
Import Store App.

Lemma deps_eqb_spec (a b : deps) : deps_eqb a b = true <-> a = b.
Proof.
  destruct a as [[r t] c], b as [[r' t'] c']. unfold deps_eqb. cbn [fst snd].
  rewrite !andb_true_iff, Bool.eqb_true_iff, Reqb_spec, Z.eqb_eq.
  split; [intros [[-> ->] ->]; done | intros [= -> -> ->]; done].
Qed.

Lemma clear_all_lookup (ids : gset nat) (ts : gmap nat timer) id :
  clear_all ids ts !! id = if decide (id ∈ ids) then None else ts !! id.
Proof.
  unfold clear_all.
  assert (forall l : list nat,
            foldr delete ts l !! id
            = if decide (id ∈ l) then None else ts !! id) as H.
  { induction l as [| x l IH]; [done |].
    cbn [foldr]. destruct (decide (x = id)) as [-> | Hne].
    - rewrite lookup_delete_eq. rewrite decide_True; [done |].
      apply list_elem_of_here.
    - rewrite lookup_delete_ne by done. rewrite IH.
      destruct (decide (id ∈ l)) as [Hl | Hl].
      + rewrite decide_True; [done | by apply list_elem_of_further].
      + rewrite decide_False; [done |].
        intros [-> | Hin]%elem_of_cons; done. }
  rewrite H. destruct (decide (id ∈ ids)) as [Hin | Hn].
  - rewrite decide_True; [done | by apply elem_of_elements].
  - rewrite decide_False; [done | by rewrite elem_of_elements].
Qed.

Ltac world_simpl :=
  cbn [timers sequencerIntervalRef pendingNoteOffsRef next_timer
       playback_cleanup playback_deps store synthRef sequencerStepsRef
       with_playback with_timers with_store with_synth with_stepsRef] in *.

(** *** What a handler leaves alone *)

(** The part of the world the playback effect and its timers live in. *)
Definition clock_of (w : world) :=
  (sequencerIntervalRef w, pendingNoteOffsRef w, timers w, next_timer w,
   playback_deps w, playback_cleanup w).

(** The sequencer fields of the store. *)
Definition sequencer_of (st : Store.state) :=
  (isSequencerRunning st, tempo st, currentStep st, sequencerSteps st).

Lemma clock_of_eq w w' :
  clock_of w = clock_of w' ->
  sequencerIntervalRef w = sequencerIntervalRef w'
  /\ pendingNoteOffsRef w = pendingNoteOffsRef w'
  /\ timers w = timers w'
  /\ next_timer w = next_timer w'
  /\ playback_deps w = playback_deps w'
  /\ playback_cleanup w = playback_cleanup w'.
Proof. unfold clock_of. intros [= -> -> -> -> -> ->]. done. Qed.

Lemma sequencer_of_eq st st' :
  sequencer_of st = sequencer_of st' ->
  isSequencerRunning st = isSequencerRunning st'
  /\ tempo st = tempo st'
  /\ currentStep st = currentStep st'
  /\ sequencerSteps st = sequencerSteps st'.
Proof. unfold sequencer_of. intros [= -> -> -> ->]. done. Qed.

Lemma sequencer_of_deps st st' :
  sequencer_of st = sequencer_of st' -> deps_of st = deps_of st'.
Proof.
  intros (Hr & Ht & Hc & _)%sequencer_of_eq. unfold deps_of.
  by rewrite Hr, Ht, Hc.
Qed.

Lemma settled_ext w w' exact :
  clock_of w = clock_of w' -> settled w exact -> settled w' exact.
Proof.
  intros (Hi & Hp & Ht & Hn & Hd & Hc)%clock_of_eq.
  unfold settled, tracked, clock_state.
  rewrite Hi, Hp, Ht, Hn, Hd, Hc. done.
Qed.

Lemma release_keys_frame now keys w :
  let w' := foldl (release_key now) w keys in
  clock_of w' = clock_of w
  /\ sequencer_of (store w') = sequencer_of (store w)
  /\ sequencerStepsRef w' = sequencerStepsRef w
  /\ (is_Some (synthRef w) -> is_Some (synthRef w')).
Proof.
  revert w. induction keys as [| key keys IH]; intros w; [done |].
  cbn [foldl]. destruct (IH (release_key now w key)) as (Hc & Hs & Hr & Hy).
  split; [by rewrite Hc |]. split; [by rewrite Hs |]. split; [by rewrite Hr |].
  intros [sy E]. apply Hy. unfold release_key.
  cbn [synthRef with_store with_synth]. rewrite E. by eexists.
Qed.

Lemma stopAllAudio_frame now w :
  let w' := stopAllAudio now w in
  clock_of w' = clock_of (clear_pending w)
  /\ sequencer_of (store w') = sequencer_of (store w)
  /\ sequencerStepsRef w' = sequencerStepsRef w
  /\ (is_Some (synthRef w) -> is_Some (synthRef w')).
Proof.
  unfold stopAllAudio.
  pose proof (release_keys_frame now (elements (activeKeys (store w)))
    (with_synth (clear_pending w)
       (Tone.stopAllNotes now <$> synthRef (clear_pending w))))
    as (Hc & Hs & Hr & Hy).
  cbv zeta in *. split; [by rewrite Hc |]. split; [by rewrite Hs |].
  split; [by rewrite Hr |].
  intros [sy E]. apply Hy.
  cbn [synthRef with_synth clear_pending with_timers]. rewrite E. by eexists.
Qed.

(** *** The timers under the handlers *)

Lemma clear_pending_settled w exact :
  settled w exact -> settled (clear_pending w) exact.
Proof.
  intros ((Ha & Hb & Hc & Hd) & d & Hdeps & Hcl & Hst).
  split; [| exists d; split; [exact Hdeps | split; [exact Hcl |]]].
  - unfold tracked, clear_pending.
    cbn [timers sequencerIntervalRef pendingNoteOffsRef next_timer with_timers].
    split; [| split; [| split]].
    + intros id p ns. rewrite clear_all_lookup.
      destruct (decide _); [done | apply Ha].
    + intros id dl n. rewrite clear_all_lookup.
      destruct (decide _) as [| Hn]; [done |]. intros H.
      exfalso. apply Hn. by eapply Hb.
    + intros id. rewrite clear_all_lookup.
      destruct (decide _); [by intros [? ?] | apply Hc].
    + intros id Hin. by apply not_elem_of_empty in Hin.
  - unfold clear_pending.
    cbn [timers sequencerIntervalRef with_timers].
    destruct d.1.1.
    + destruct Hst as (id & ns & Hi & Ht & Hns).
      exists id, ns. split; [done |]. split; [| done].
      rewrite clear_all_lookup. destruct (decide _) as [Hin |]; [| done].
      apply Hd in Hin as (dl & n & Hin). congruence.
    + destruct Hst as [Ht Hi]. split; [| done].
      apply map_eq. intros id. rewrite clear_all_lookup, Ht.
      by destruct (decide _).
Qed.

Lemma stopAllAudio_settled now w exact :
  settled w exact -> settled (stopAllAudio now w) exact.
Proof.
  intros H. destruct (stopAllAudio_frame now w) as (Hc & _).
  eapply settled_ext; [symmetry; exact Hc |]. by apply clear_pending_settled.
Qed.


(** *** The playback effect *)

Lemma cleanup_removes_every_timer w :
  tracked w ->
  let w' := playback_cleanup_fn w in
  timers w' = ∅ /\ sequencerIntervalRef w' = None
  /\ pendingNoteOffsRef w' = ∅ /\ next_timer w' = next_timer w.
Proof.
  intros (Ha & Hb & Hc & Hd) w'. unfold w', playback_cleanup_fn.
  assert (sequencerIntervalRef (clear_interval w) = None) as Hi.
  { unfold clear_interval. by destruct (sequencerIntervalRef w) eqn:E. }
  assert (pendingNoteOffsRef (clear_interval w) = pendingNoteOffsRef w) as Hp.
  { unfold clear_interval. by destruct (sequencerIntervalRef w). }
  assert (next_timer (clear_interval w) = next_timer w) as Hn.
  { unfold clear_interval. by destruct (sequencerIntervalRef w). }
  unfold clear_pending.
  cbn [timers sequencerIntervalRef pendingNoteOffsRef next_timer with_timers].
  split; [| by rewrite Hi, Hn]. apply map_eq. intros id.
  rewrite clear_all_lookup, Hp, lookup_empty.
  destruct (decide (id ∈ pendingNoteOffsRef w)) as [| Hnot]; [done |].
  unfold clear_interval. destruct (sequencerIntervalRef w) as [iv|] eqn:E.
  - cbn [timers with_timers]. destruct (decide (iv = id)) as [-> | Hne].
    + apply lookup_delete_eq.
    + rewrite lookup_delete_ne by done.
      destruct (timers w !! id) as [[p ns | dl n]|] eqn:Et; [| | done].
      * apply Ha in Et. congruence.
      * apply Hb in Et. done.
  - destruct (timers w !! id) as [[p ns | dl n]|] eqn:Et; [| | done].
    + apply Ha in Et. congruence.
    + apply Hb in Et. done.
Qed.

Lemma stopped_has_no_timer w d exact :
  tracked w -> clock_state w d exact -> d.1.1 = false ->
  timers w = ∅ /\ sequencerIntervalRef w = None /\ pendingNoteOffsRef w = ∅.
Proof.
  intros (_ & _ & _ & Hd) [_ Hst] E. rewrite E in Hst.
  destruct Hst as [Ht Hi]. split; [done |]. split; [done |].
  apply set_eq. intros id. split; [| by intros ?%not_elem_of_empty].
  intros (dl & n & H)%Hd. rewrite Ht in H. by apply lookup_empty_Some in H.
Qed.

(** The effect run on a world without timers. *)
Lemma effect_from_no_timer now w :
  timers w = ∅ -> sequencerIntervalRef w = None ->
  pendingNoteOffsRef w = ∅ ->
  let w' := playback_effect now w in
  tracked w'
  /\ clock_state w' (deps_of (store w)) true
  /\ sequencer_of (store w') = sequencer_of (store w)
  /\ sequencerStepsRef w' = sequencerStepsRef w
  /\ (is_Some (synthRef w) -> is_Some (synthRef w'))
  /\ pendingNoteOffsRef w' = ∅.
Proof.
  intros Ht Hi Hp w'. unfold w', playback_effect, clock_state, deps_of.
  cbn [fst snd]. destruct (isSequencerRunning (store w)) eqn:Er; cbn [negb].
  - unfold tracked. world_simpl. rewrite Ht, Hp.
    split; [| split; [| done]].
    + split; [| split; [| split]].
      * intros id p ns [[-> _] | [_ H]]%lookup_insert_Some; [done |].
        by apply lookup_empty_Some in H.
      * intros id dl n [[_ [=]] | [_ H]]%lookup_insert_Some.
        by apply lookup_empty_Some in H.
      * intros id [x [[-> _] | [_ H]]%lookup_insert_Some]; [lia |].
        by apply lookup_empty_Some in H.
      * intros id H. by apply not_elem_of_empty in H.
    + split; [done |].
      exists (next_timer w), (currentStep (store w)).
      split; [done |]. split; [apply lookup_insert_eq | done].
  - assert (clear_interval w = w) as ->.
    { unfold clear_interval. by rewrite Hi. }
    destruct (stopAllAudio_frame now w) as (Hc & Hs & Hr & Hy).
    apply clock_of_eq in Hc as (Hci & Hcp & Hct & Hcn & Hcd & Hcc).
    unfold clear_pending, tracked in *. world_simpl.
    assert (timers (stopAllAudio now w) = ∅) as Ht'.
    { rewrite Hct. apply map_eq. intros id.
      rewrite clear_all_lookup, Ht. by destruct (decide _). }
    split; [| split; [| by rewrite Hcp]].
    + split; [| split; [| split]].
      * intros id p ns H. rewrite Ht' in H. by apply lookup_empty_Some in H.
      * intros id dl n H. rewrite Ht' in H. by apply lookup_empty_Some in H.
      * intros id [x H]. rewrite Ht' in H. by apply lookup_empty_Some in H.
      * intros id H. rewrite Hcp in H. by apply not_elem_of_empty in H.
    + split; [done |]. split; [done |]. by rewrite Hci.
Qed.

Lemma commit_unchanged now w :
  playback_deps w = Some (deps_of (store w)) ->
  commit now w = with_stepsRef w (sequencerSteps (store w)).
Proof.
  intros H. unfold commit. rewrite H.
  by rewrite (proj2 (deps_eqb_spec _ _) eq_refl).
Qed.

Lemma commit_changed now w d :
  settled w false -> playback_deps w = Some d -> d <> deps_of (store w) ->
  let w' := commit now w in
  playback_deps w' = Some (deps_of (store w'))
  /\ settled w' true
  /\ sequencer_of (store w') = sequencer_of (store w)
  /\ sequencerStepsRef w' = sequencerSteps (store w)
  /\ (is_Some (synthRef w) -> is_Some (synthRef w'))
  /\ pendingNoteOffsRef w' = ∅.
Proof.
  intros (Htr & d' & Hd' & Hcs) Hd Hne w'.
  rewrite Hd in Hd'. injection Hd' as <-.
  unfold w', commit. rewrite Hd.
  destruct (deps_eqb d (deps_of (store w))) eqn:E;
    [by apply deps_eqb_spec in E |].
  set (w1 := with_stepsRef w (sequencerSteps (store w))).
  assert (tracked w1) as Htr1 by exact Htr.
  assert (clock_state w1 d false) as Hcs1 by exact Hcs.
  set (w2 := if playback_cleanup w1 then playback_cleanup_fn w1 else w1).
  assert (timers w2 = ∅ /\ sequencerIntervalRef w2 = None
          /\ pendingNoteOffsRef w2 = ∅
          /\ store w2 = store w /\ synthRef w2 = synthRef w
          /\ sequencerStepsRef w2 = sequencerSteps (store w))
    as (Ht2 & Hi2 & Hp2 & Hs2 & Hy2 & Hr2).
  { unfold w2. destruct (playback_cleanup w1) eqn:Ec.
    - destruct (cleanup_removes_every_timer w1 Htr1) as (? & ? & ? & _).
      repeat (split; [done |]).
      unfold playback_cleanup_fn, clear_interval, clear_pending.
      destruct (sequencerIntervalRef w1); repeat split.
    - destruct (stopped_has_no_timer w1 d false Htr1 Hcs1) as (? & ? & ?).
      { destruct Hcs1 as [<- _]. exact Ec. }
      done. }
  destruct (effect_from_no_timer now w2 Ht2 Hi2 Hp2)
    as (Htr3 & Hcs3 & Hs3 & Hr3 & Hy3 & Hp3).
  cbn [playback_deps store with_playback].
  rewrite Hs2 in Hcs3, Hs3. rewrite (sequencer_of_deps _ _ Hs3).
  split; [done |]. split; [| split; [done | split; [| split]]].
  - split; [exact Htr3 |]. exists (deps_of (store w)). split; [done |].
    exact Hcs3.
  - cbn [sequencerStepsRef with_playback]. by rewrite Hr3.
  - cbn [synthRef with_playback]. rewrite <- Hy2. exact Hy3.
  - exact Hp3.
Qed.

(** The component as mounted. *)
Lemma mounted_invariant now : invariant (mounted now).
Proof.
  unfold mounted. set (w0 := {| store := Store.init |}).
  unfold commit. cbn [playback_deps w0].
  destruct (effect_from_no_timer now
              (with_stepsRef w0 (sequencerSteps (store w0))))
    as (Htr & Hcs & Hs & Hr & Hy & _); [done | done | done |].
  cbn [playback_cleanup w0 with_stepsRef].
  fold (with_stepsRef w0 (sequencerSteps (store w0))).
  set (w3 := playback_effect now _) in *.
  unfold invariant. cbn [playback_deps store synthRef sequencerStepsRef
                         with_playback].
  apply sequencer_of_eq in Hs as Hs'. destruct Hs' as (_ & _ & Hc & Hst).
  rewrite (sequencer_of_deps _ _ Hs).
  split; [done |]. split; [| split; [| split]].
  - split; [exact Htr |]. eexists. split; [reflexivity | exact Hcs].
  - apply Hy. by eexists.
  - rewrite Hc. cbn. lia.
  - rewrite Hr, Hst. reflexivity.
Qed.


(** *** The callbacks *)

Lemma settled_weaken w : settled w true -> settled w false.
Proof.
  intros (Htr & d & Hd & Hc & Hst). split; [done |].
  exists d. split; [done |]. split; [done |].
  destruct d.1.1; [| done].
  destruct Hst as (id & ns & Hi & Ht & _). exists id, ns. done.
Qed.

Lemma stop_if_running_frame now w :
  let w' := stop_if_running now w in
  (clock_of w' = clock_of w \/ clock_of w' = clock_of (clear_pending w))
  /\ sequencer_of (store w') = sequencer_of (store w)
  /\ (is_Some (synthRef w) -> is_Some (synthRef w')).
Proof.
  unfold stop_if_running. destruct (_ && _); [| by auto].
  destruct (stopAllAudio_frame now w) as (Hc & Hs & _ & Hy). auto.
Qed.

Lemma settled_either w w' exact :
  clock_of w' = clock_of w \/ clock_of w' = clock_of (clear_pending w) ->
  settled w exact -> settled w' exact.
Proof.
  intros [H | H] Hs; (eapply settled_ext; [symmetry; exact H |]);
    [done | by apply clear_pending_settled].
Qed.

Lemma preset_step st name :
  0 <= currentStep st < 16 -> 0 <= currentStep (loadPreset st name) < 16.
Proof.
  intros H. unfold loadPreset. destruct (PRESETS !! name); [cbn; lia | done].
Qed.

Lemma framed_callback w w0 :
  invariant w ->
  clock_of w0 = clock_of w \/ clock_of w0 = clock_of (clear_pending w) ->
  is_Some (synthRef w0) ->
  0 <= currentStep (store w0) < 16 ->
  settled w0 true
  /\ playback_deps w0 = playback_deps w
  /\ is_Some (synthRef w0)
  /\ 0 <= currentStep (store w0) < 16.
Proof.
  intros (_ & Hs & _) Hc Hy Hstep.
  split; [by eapply settled_either |]. split; [| done].
  destruct Hc as [Hc | Hc];
    by apply clock_of_eq in Hc as (_ & _ & _ & _ & -> & _).
Qed.

(** A handler or a timer of a note-off or of the engine: the timers stay
    as the playback effect left them. *)
Lemma callback_settled now e w w0 :
  invariant w -> (forall id, e <> Tick id) ->
  callback now e w = Some w0 ->
  settled w0 true
  /\ playback_deps w0 = playback_deps w
  /\ is_Some (synthRef w0)
  /\ 0 <= currentStep (store w0) < 16.
Proof.
  intros Hinv Hne H.
  pose proof Hinv as (Hd & Hs & Hy & Hc & Hr).
  destruct e; cbn [callback] in H; try (by destruct (Hne id)).
  - injection H as <-. by apply framed_callback; [| left | |].
  - injection H as <-. unfold handleKeyDown.
    destruct (synthRef w) as [sy|] eqn:E; [| by destruct Hy].
    destruct (decide _).
    + apply framed_callback; [done | by left | by rewrite E | done].
    + apply framed_callback; [done | by left | by eexists | done].
  - injection H as <-. unfold handleKeyUp.
    destruct (synthRef w) as [sy|] eqn:E; [| by destruct Hy].
    destruct (decide _).
    + apply framed_callback; [done | by left | by eexists | done].
    + apply framed_callback; [done | by left | by rewrite E | done].
  - injection H as <-. unfold handleClearSequencer.
    destruct (stop_if_running_frame now w) as (Hc' & Hs' & Hy').
    apply framed_callback; [done | exact Hc' | by apply Hy' | cbn; lia].
  - injection H as <-. unfold handlePresetChange.
    destruct (stopAllAudio_frame now w) as (Hc' & Hs' & _ & Hy').
    apply framed_callback; [done | right; exact Hc' | by apply Hy' |].
    world_simpl. apply preset_step.
    apply sequencer_of_eq in Hs' as (_ & _ & -> & _). done.
  - injection H as <-. unfold handleRandomizeSequencer.
    destruct (stop_if_running_frame now w) as (Hc' & Hs' & Hy').
    apply framed_callback; [done | exact Hc' | by apply Hy' |].
    world_simpl. unfold generateRandomSequence.
    destruct (random_sequence random k). cbn [fst currentStep].
    apply sequencer_of_eq in Hs' as (_ & _ & -> & _). done.
  - injection H as <-. by apply framed_callback; [| left | |].
  - injection H as <-. by apply framed_callback; [| left | |].
  - injection H as <-. unfold onParamsChange.
    destruct Hy as [sy E].
    apply framed_callback; [done | by left | | done].
    world_simpl. rewrite E. by eexists.
  - unfold noteOff_fired in H.
    destruct (timers w !! id) as [[p ns | dl n]|] eqn:Et; try done.
    injection H as <-. world_simpl.
    split; [| split; [done | split; [| done]]].
    + destruct Hs as ((Ha & Hb & Hcc & Hdd) & d & Hdeps & Hcl & Hst).
      split; [| exists d; split; [exact Hdeps | split; [exact Hcl |]]].
      * unfold tracked. world_simpl. split; [| split; [| split]].
        -- intros id' p ns [_ H]%lookup_delete_Some. by eapply Ha.
        -- intros id' d' n' [Hne' H]%lookup_delete_Some.
           apply elem_of_difference. split; [by eapply Hb |].
           by intros ->%elem_of_singleton.
        -- intros id' [x [_ H]%lookup_delete_Some]. apply Hcc. by eexists.
        -- intros id' [Hin Hnot]%elem_of_difference.
           apply Hdd in Hin as (d' & n' & Hin). exists d', n'.
           rewrite lookup_delete_ne; [done |].
           intros ->. apply Hnot. by apply elem_of_singleton.
      * world_simpl. destruct d.1.1.
        -- destruct Hst as (id0 & ns0 & Hi & Ht & Hns).
           exists id0, ns0. split; [done |]. split; [| done].
           rewrite lookup_delete_ne; [done |]. intros ->. congruence.
        -- destruct Hst as [Ht _]. rewrite Ht in Et.
           by apply lookup_empty_Some in Et.
    + destruct Hy as [sy ->]. by eauto.
  - unfold synth_timer_fired in H. destruct Hy as [sy E]. rewrite E in H.
    destruct (Tone.fire k sy) as [sy'|]; [| done].
    injection H as <-.
    apply framed_callback; [done | by left | by eexists | done].
Qed.


(** *** The interval *)

(** While the sequencer runs there is one interval, the one of the ref,
    and it holds the period of the tempo and the current step. *)
Lemma running_clock w :
  invariant w -> isSequencerRunning (store w) = true ->
  exists id synth,
    sequencerIntervalRef w = Some id
    /\ synthRef w = Some synth
    /\ timers w !! id
       = Some (interval (stepDurationMs (tempo (store w)))
                        (currentStep (store w)))
    /\ forall id' p ns, timers w !! id' = Some (interval p ns) -> id' = id.
Proof.
  intros (Hd & ((Ha & _) & d & Hd' & _ & Hst) & [sy Hy] & _) Hr.
  rewrite Hd in Hd'. injection Hd' as <-.
  unfold deps_of in Hst. cbn [fst snd] in Hst. rewrite Hr in Hst.
  destruct Hst as (id & ns & Hi & Ht & Hns). rewrite (Hns eq_refl) in Ht.
  exists id, sy. repeat (split; [done |]).
  intros id' p ns' H. apply Ha in H. congruence.
Qed.

Lemma stopped_clock w :
  invariant w -> isSequencerRunning (store w) = false ->
  timers w = ∅ /\ sequencerIntervalRef w = None /\ pendingNoteOffsRef w = ∅.
Proof.
  intros (Hd & (Htr & d & Hd' & Hcs) & _) Hr.
  rewrite Hd in Hd'. injection Hd' as <-.
  by eapply stopped_has_no_timer.
Qed.

Lemma next_step_differs c : Z.rem (c + 1) 16 <> c.
Proof.
  pose proof (Z.quot_rem' (c + 1) 16) as H. intros E. rewrite E in H. lia.
Qed.

Lemma next_step_in_pattern c :
  0 <= c < 16 -> Z.rem (c + 1) 16 = (c + 1) mod 16
                 /\ 0 <= Z.rem (c + 1) 16 < 16.
Proof.
  intros H. rewrite Z.rem_mod_nonneg by lia.
  split; [done |]. apply Z.mod_pos_bound. lia.
Qed.

(** The tick of the interval: the timers are still tracked, and the
    current step is no longer the one the effect ran with. *)
Lemma tick_settled now id w w0 :
  invariant w -> tick now id w = Some w0 ->
  settled w0 false
  /\ playback_deps w0 = playback_deps w
  /\ deps_of (store w0) <> deps_of (store w)
  /\ is_Some (synthRef w0)
  /\ 0 <= currentStep (store w0) < 16.
Proof.
  intros Hinv H. pose proof Hinv as (Hd & Hs & Hy & Hc & Hr).
  unfold tick in H.
  destruct (timers w !! id) as [[p ns | dl n]|] eqn:Et; try done.
  destruct (isSequencerRunning (store w)) eqn:Er.
  2:{ destruct (stopped_clock w Hinv Er) as (Ht & _). rewrite Ht in Et.
      by apply lookup_empty_Some in Et. }
  destruct (running_clock w Hinv Er) as (id0 & sy & Hi & Hsy & Ht0 & Huniq).
  assert (id = id0) as -> by (by eapply Huniq).
  rewrite Ht0 in Et. injection Et as <- <-.
  destruct Hs as ((Ha & Hb & Hcc & Hdd) & _).
  destruct (next_step_in_pattern _ Hc) as [_ Hrange].
  set (ns' := Z.rem (currentStep (store w) + 1) 16) in *.
  set (p := stepDurationMs (tempo (store w))) in *.
  set (w1 := with_store _ _) in H.
  assert (settled w1 false /\ playback_deps w1 = playback_deps w
          /\ deps_of (store w1) <> deps_of (store w)
          /\ synthRef w1 = Some sy
          /\ currentStep (store w1) = ns') as (Hs1 & Hd1 & Hne1 & Hy1 & Hc1).
  { split; [| split; [done | split; [| done]]].
    - split.
      + unfold tracked, w1. world_simpl. split; [| split; [| split]].
        * intros id' p' ns'' [[-> _] | [_ H']]%lookup_insert_Some; [done |].
          by eapply Ha.
        * intros id' d' n' [[_ [=]] | [_ H']]%lookup_insert_Some.
          by eapply Hb.
        * intros id' [x [[<- _] | [_ H']]%lookup_insert_Some].
          -- apply Hcc. by eexists.
          -- apply Hcc. by eexists.
        * intros id' Hin. apply Hdd in Hin as (d' & n' & Hin).
          exists d', n'. rewrite lookup_insert_ne; [done |].
          intros <-. congruence.
      + exists (deps_of (store w)). split; [done |].
        unfold clock_state, deps_of, w1. cbn [fst snd]. world_simpl.
        rewrite Er. split.
        * destruct Hinv as (_ & (_ & d & Hd' & Hcl & _) & _).
          rewrite Hd in Hd'. injection Hd' as <-. rewrite Hcl.
          unfold deps_of. cbn [fst snd]. done.
        * exists id0, ns'. split; [done |].
          split; [apply lookup_insert_eq | done].
    - unfold deps_of, w1. world_simpl. cbn [setCurrentStep currentStep].
      intros [= E]. by apply next_step_differs in E. }
  destruct (array_get (sequencerStepsRef w1) ns') as [n|];
    [| injection H as <-; rewrite Hy1, Hc1; by eauto].
  rewrite Hy1 in H.
  destruct (enabled n && (0 <? note n));
    [| injection H as <-; rewrite Hy1, Hc1; by eauto].
  injection H as <-. world_simpl.
  split; [| split; [done | split; [done | split; [by eauto | by rewrite Hc1]]]].
  destruct Hs1 as ((Ha1 & Hb1 & Hcc1 & Hdd1) & d & Hdeps1 & Hcl1 & Hst1).
  assert (next_timer w1 = next_timer w) as Hnext by reflexivity.
  split; [| exists d; split; [exact Hdeps1 | split; [exact Hcl1 |]]].
  - unfold tracked. world_simpl. split; [| split; [| split]].
    + intros id' p' ns'' [[_ [=]] | [_ H']]%lookup_insert_Some.
      by eapply Ha1.
    + intros id' d' n' [[<- _] | [_ H']]%lookup_insert_Some.
      * apply elem_of_union_l. by apply elem_of_singleton.
      * apply elem_of_union_r. by eapply Hb1.
    + intros id' [x [[<- _] | [_ H']]%lookup_insert_Some];
        [apply Nat.lt_succ_diag_r |].
      apply Nat.lt_lt_succ_r. apply Hcc1. by eexists.
    + intros id' [->%elem_of_singleton | Hin]%elem_of_union.
      * do 2 eexists. apply lookup_insert_eq.
      * apply Hdd1 in Hin as (d' & n' & Hin). exists d', n'.
        rewrite lookup_insert_ne; [done |]. intros <-.
        apply (Nat.lt_irrefl (next_timer w1)), Hcc1. by eexists.
  - world_simpl. destruct d.1.1; [| destruct Hst1 as [Ht1 _]].
    + destruct Hst1 as (id1 & ns1 & Hi1 & Ht1 & _).
      exists id1, ns1. split; [done |]. split; [| done].
      rewrite lookup_insert_ne; [done |]. intros <-.
      apply (Nat.lt_irrefl (next_timer w1)), Hcc1. by eexists.
    + exfalso. unfold w1 in Ht1. world_simpl.
      by apply insert_non_empty in Ht1.
Qed.


(** *** The invariant *)

Lemma commit_invariant now w d :
  playback_deps w = Some d ->
  settled w false ->
  (d = deps_of (store w) -> settled w true) ->
  is_Some (synthRef w) ->
  0 <= currentStep (store w) < 16 ->
  invariant (commit now w).
Proof.
  intros Hd Hs Hexact Hy Hc.
  destruct (deps_eqb d (deps_of (store w))) eqn:E.
  - apply deps_eqb_spec in E. subst d.
    rewrite commit_unchanged by done.
    split; [done |]. split; [| done].
    eapply settled_ext; [| by apply Hexact]. reflexivity.
  - assert (d <> deps_of (store w)) as Hne.
    { intros ->. by rewrite (proj2 (deps_eqb_spec _ _) eq_refl) in E. }
    destruct (commit_changed now w d Hs Hd Hne)
      as (Hd' & Hs' & Hq & Hr & Hy' & _).
    apply sequencer_of_eq in Hq as (_ & _ & Hc' & Hst).
    split; [done |]. split; [done |]. split; [by apply Hy' |].
    split; [by rewrite Hc' | by rewrite Hr, Hst].
Qed.

Lemma handle_invariant now e w w' :
  invariant w -> handle now e w = Some w' -> invariant w'.
Proof.
  intros Hinv H. unfold handle in H.
  destruct (callback now e w) as [w0|] eqn:Ec; [| done].
  injection H as <-. pose proof Hinv as (Hd & _).
  assert ((exists id, e = Tick id) \/ forall id, e <> Tick id) as [[id ->] | Hne].
  { destruct e; try (right; intros; discriminate). left. by eexists. }
  - cbn [callback] in Ec.
    destruct (tick_settled now id w w0 Hinv Ec) as (Hs0 & Hd0 & Hne & Hy0 & Hc0).
    eapply commit_invariant; [by rewrite Hd0 | done | | done | done].
    intros E. by destruct Hne.
  - destruct (callback_settled now e w w0 Hinv Hne Ec) as (Hs0 & Hd0 & Hy0 & Hc0).
    eapply commit_invariant; [by rewrite Hd0 | | done | done | done].
    by apply settled_weaken.
Qed.

Lemma reachable_invariant w : reachable w -> invariant w.
Proof.
  induction 1 as [now | now e w w' _ IH H].
  - apply mounted_invariant.
  - by eapply handle_invariant.
Qed.

(** A commit changes no sequencer field of the store. *)
Lemma commit_sequencer now w :
  sequencer_of (store (commit now w)) = sequencer_of (store w).
Proof.
  unfold commit.
  destruct (match playback_deps w with
            | Some d' => deps_eqb d' (deps_of (store w)) | None => false end);
    [done |].
  set (w1 := with_stepsRef w _).
  set (w2 := if playback_cleanup w1 then playback_cleanup_fn w1 else w1).
  assert (store w2 = store w) as Hs2.
  { unfold w2. destruct (playback_cleanup w1); [| done].
    unfold playback_cleanup_fn, clear_interval, clear_pending.
    by destruct (sequencerIntervalRef w1). }
  cbn [store with_playback]. unfold playback_effect.
  destruct (negb (isSequencerRunning (store w2)));
    cbn [store with_playback with_timers]; [| by rewrite Hs2].
  destruct (stopAllAudio_frame now (clear_interval w2)) as (_ & -> & _).
  unfold clear_interval.
  destruct (sequencerIntervalRef w2); cbn [store with_timers];
    by rewrite Hs2.
Qed.





(** *** Stopping *)







(** The render a tick causes runs the cleanup of the playback effect,
    [currentStep] being one of its dependencies: the note-off the tick
    has just registered is cancelled with the interval, and a new
    interval is set. *)
Lemma tick_commit_cancels_note_offs now id w w' :
  reachable w -> handle now (Tick id) w = Some w' ->
  pendingNoteOffsRef w' = ∅
  /\ forall id' d n, timers w' !! id' <> Some (noteOff_timeout d n).
Proof.
  intros Hreach H. pose proof (reachable_invariant w Hreach) as Hinv.
  unfold handle in H. cbn [callback] in H.
  destruct (tick now id w) as [w0|] eqn:Ec; [| done]. injection H as <-.
  destruct (tick_settled now id w w0 Hinv Ec) as (Hs0 & Hd0 & Hne & _).
  destruct Hinv as (Hd & _).
  destruct (commit_changed now w0 (deps_of (store w)) Hs0)
    as (_ & ((_ & Hb & _) & _) & _ & _ & _ & Hp);
    [by rewrite Hd0 | by intros E; destruct Hne |].
  split; [exact Hp |]. intros id' d n Hin. apply Hb in Hin.
  rewrite Hp in Hin. by apply not_elem_of_empty in Hin.
Qed.

(** *** The claims on the clock *)


(** The sequencer started on the mounted component. *)
Lemma started_reachable now :
  reachable (commit now (onTogglePlay (mounted now)))
  /\ isSequencerRunning (store (commit now (onTogglePlay (mounted now))))
     = true.
Proof.
  split.
  - apply (reachable_handle now TogglePlay (mounted now));
      [apply reachable_mounted | reflexivity].
  - pose proof (commit_sequencer now (onTogglePlay (mounted now)))
      as (-> & _)%sequencer_of_eq.
    unfold onTogglePlay. world_simpl.
    cbn [isSequencerRunning setIsSequencerRunning].
    unfold mounted.
    pose proof (commit_sequencer now {| store := Store.init |})
      as (-> & _)%sequencer_of_eq.
    reflexivity.
Qed.





End AppFacts.

(** ** The scale of the pitch conversions *)

Module PitchLaws.
Import Pitch PitchFacts.

Lemma midiNoteToFrequency_shift (n k : Z) :
  midiNoteToFrequency (n + k)
  = (midiNoteToFrequency n * Rpower 2 (IZR k / 12))%R.
Proof.
  unfold midiNoteToFrequency. rewrite plus_IZR.
  replace ((IZR n + IZR k - 69) / 12)%R
    with ((IZR n - 69) / 12 + IZR k / 12)%R by field.
  rewrite Rpower_plus. ring.
Qed.

Lemma midiNoteToFrequency_lt (m n : Z) :
  m < n -> (midiNoteToFrequency m < midiNoteToFrequency n)%R.
Proof.
  intros H. unfold midiNoteToFrequency.
  apply Rmult_lt_compat_l; [lra |].
  apply Rpower_lt; [lra |].
  apply IZR_lt in H. lra.
Qed.

(** X1. A note twelve semitones up has twice the frequency, and the
    frequency grows strictly with the note number, so that two notes
    have the same frequency only when they are the same note. *)
Theorem midiNoteToFrequency_scale (m n : Z) :
  midiNoteToFrequency (n + 12) = (2 * midiNoteToFrequency n)%R
  /\ (m < n <-> (midiNoteToFrequency m < midiNoteToFrequency n)%R)
  /\ (midiNoteToFrequency m = midiNoteToFrequency n <-> m = n).
Proof.
  assert (Hiff : m < n <-> (midiNoteToFrequency m < midiNoteToFrequency n)%R).
  { split; [apply midiNoteToFrequency_lt |].
    intros H. destruct (Z_lt_le_dec m n) as [|Hle]; [done |].
    destruct (Z.eq_dec n m) as [-> | Hne]; [lra |].
    assert (n < m) as Hlt by lia.
    apply midiNoteToFrequency_lt in Hlt. lra. }
  split; [| split; [exact Hiff |]].
  - rewrite midiNoteToFrequency_shift.
    replace (12 / 12)%R with 1%R by field.
    rewrite Rpower_1 by lra. ring.
  - split; [| by intros ->].
    intros H. destruct (Z.lt_total m n) as [Hlt | [-> | Hlt]]; [| done |];
      apply midiNoteToFrequency_lt in Hlt; lra.
Qed.

Lemma pow2_lt (x y : R) : (Rpower 2 x < Rpower 2 y)%R <-> (x < y)%R.
Proof.
  split; [| apply Rpower_lt; lra].
  intros H. destruct (Rlt_le_dec x y) as [| [Hlt | ->]]; [done | | lra].
  apply (Rpower_lt 2) in Hlt; lra.
Qed.

Lemma pow2_le (x y : R) : (Rpower 2 x <= Rpower 2 y)%R <-> (x <= y)%R.
Proof.
  split.
  - intros H. destruct (Rle_lt_dec x y) as [| Hlt]; [done |].
    apply pow2_lt in Hlt. lra.
  - intros [Hlt | ->]; [| lra]. apply pow2_lt in Hlt. lra.
Qed.

Lemma pow2_log2 (f : R) : (0 < f)%R -> (440 * Rpower 2 (log2 (f / 440)))%R = f.
Proof.
  intros Hf. pose proof ln2_pos.
  assert (0 < f / 440)%R by (apply Rdiv_lt_0_compat; lra).
  unfold Rpower, log2.
  replace (ln (f / 440) / ln 2 * ln 2)%R with (ln (f / 440)) by (field; lra).
  rewrite exp_ln by done. field.
Qed.

Lemma Zfloor_iff (x : R) (z : Z) : Zfloor x = z <-> (IZR z <= x < IZR z + 1)%R.
Proof.
  split; [intros <-; apply Zfloor_bound | apply Zfloor_eq].
Qed.

(** X2. A frequency is converted to the note [n] exactly when it lies
    within a quarter tone of the frequency of [n]: from a quarter tone
    below, included, to a quarter tone above, excluded. *)
Theorem frequencyToMidiNote_nearest (f : R) (n : Z) :
  (0 < f)%R ->
  frequencyToMidiNote f = n
  <-> (midiNoteToFrequency n * Rpower 2 (- / 24) <= f
       < midiNoteToFrequency n * Rpower 2 (/ 24))%R.
Proof.
  intros Hf. unfold frequencyToMidiNote, round. rewrite Zfloor_iff.
  rewrite <- (pow2_log2 f Hf) at 3 4.
  set (t := log2 (f / 440)).
  unfold midiNoteToFrequency. rewrite !Rmult_assoc, <- !Rpower_plus.
  split.
  - intros [H1 H2]. split.
    + apply Rmult_le_compat_l; [lra |]. apply pow2_le. lra.
    + apply Rmult_lt_compat_l; [lra |]. apply pow2_lt. lra.
  - intros [H1 H2].
    apply Rmult_le_reg_l in H1; [| lra]. apply (proj1 (pow2_le _ _)) in H1.
    apply Rmult_lt_reg_l in H2; [| lra]. apply (proj1 (pow2_lt _ _)) in H2.
    lra.
Qed.

Lemma frequencyToMidiNote_nearest_witness :
  (0 < 440)%R /\ frequencyToMidiNote 440 = 69.
Proof.
  assert (H : (0 < 440)%R) by lra.
  split; [exact H |].
  apply (frequencyToMidiNote_nearest 440 69 H).
  rewrite midiNoteToFrequency_A4.
  assert (H1 : (Rpower 2 (- / 24) < 1)%R).
  { rewrite <- (Rpower_O 2) by lra. apply pow2_lt. lra. }
  assert (H2 : (1 < Rpower 2 (/ 24))%R).
  { rewrite <- (Rpower_O 2) at 1 by lra. apply pow2_lt. lra. }
  lra.
Defined.

End PitchLaws.

(** ** The store: arrays, tempo, random patterns, loaded patches *)

Module StoreLaws.
Import Store StoreFacts.

Lemma array_get_set_eq {A} (a : array A) i x :
  0 <= i -> array_get (array_set a i x) i = Some x.
Proof.
  intros Hi. unfold array_get, array_set.
  destruct (decide (i < 0)); [lia |].
  destruct (decide (i < Z.of_nat (length a))).
  - rewrite list_lookup_insert_eq by lia. done.
  - rewrite lookup_app_r by lia.
    rewrite lookup_app_r by (rewrite length_replicate; lia).
    rewrite length_replicate.
    replace (Z.to_nat i - length a - (Z.to_nat i - length a))%nat with 0%nat
      by lia.
    done.
Qed.

Lemma array_get_set_ne {A} (a : array A) i j x :
  j <> i -> array_get (array_set a i x) j = array_get a j.
Proof.
  intros Hne. unfold array_get, array_set.
  destruct (decide (j < 0)); [done |].
  destruct (decide (i < 0)); [done |].
  destruct (decide (i < Z.of_nat (length a))).
  - rewrite list_lookup_insert_ne by lia. done.
  - destruct (decide (Z.to_nat j < length a)%nat) as [Hj | Hj].
    + by rewrite lookup_app_l.
    + rewrite lookup_app_r by lia.
      rewrite (lookup_ge_None_2 a) by lia.
      destruct (decide (Z.to_nat j < Z.to_nat i)%nat).
      * rewrite lookup_app_l by (rewrite length_replicate; lia).
        rewrite lookup_replicate_2 by lia. done.
      * rewrite lookup_app_r by (rewrite length_replicate; lia).
        rewrite length_replicate.
        rewrite lookup_ge_None_2; [done |]. cbn [length]. lia.
Qed.

Lemma array_set_length {A} (a : array A) i x :
  length (array_set a i x) = (length a `max` Z.to_nat (i + 1))%nat.
Proof.
  unfold array_set.
  destruct (decide (i < 0)); [lia |].
  destruct (decide (i < Z.of_nat (length a))).
  - rewrite length_insert. lia.
  - rewrite !length_app, length_replicate. cbn [length]. lia.
Qed.

(** X3. An array assignment and a later read, indices not negative: the
    element written is read back at its index, every other index reads
    what it read before, and the array grows just enough to hold the
    index written, keeping its length when the index is inside it. *)
Theorem array_set_then_get {A} (a : array A) (i j : Z) (x : A) :
  0 <= i -> 0 <= j ->
  array_get (array_set a i x) j
  = (if decide (j = i) then Some x else array_get a j)
  /\ length (array_set a i x) = (length a `max` Z.to_nat (i + 1))%nat
  /\ (length (array_set a i x) = length a <-> i < Z.of_nat (length a)).
Proof.
  intros Hi Hj. rewrite array_set_length.
  split; [| split; [reflexivity | lia]].
  destruct (decide (j = i)) as [-> | Hne].
  - by apply array_get_set_eq.
  - by apply array_get_set_ne.
Qed.

Lemma array_set_then_get_witness :
  0 <= 3 /\ 0 <= 3
  /\ array_get (array_set (of_list [10; 20]) 3 30) 3 = Some 30
  /\ length (array_set (of_list [10; 20]) 3 30) = 4%nat.
Proof.
  assert (H : 0 <= 3) by lia.
  split; [exact H |]. split; [exact H |].
  destruct (array_set_then_get (of_list [10; 20]) 3 3 30 H H) as (H1 & H2 & _).
  split; [exact H1 | exact H2].
Defined.




Lemma preset_cases name preset :
  PRESETS !! name = Some preset ->
  preset ∈ [acidTechno; padAmbient; leadBright; bassDeep; pluckStaccato;
            experimental].
Proof.
  intros H. unfold PRESETS in H.
  apply elem_of_list_to_map_2 in H.
  repeat (apply elem_of_cons in H as [H | H];
          [inversion H; subst; set_solver |]).
  by apply elem_of_nil in H.
Qed.

Lemma preset_tempo_in_range name preset :
  PRESETS !! name = Some preset -> (20 <= preset_tempo preset <= 300)%R.
Proof.
  intros H. apply preset_cases in H.
  repeat (apply elem_of_cons in H as [-> | H]; [cbn; lra |]).
  by apply elem_of_nil in H.
Qed.

Lemma clamp_in_range (lo hi x : R) :
  (lo <= hi)%R -> (lo <= Rmax lo (Rmin hi x) <= hi)%R.
Proof.
  intros H. unfold Rmax, Rmin.
  destruct (Rle_dec hi x), (Rle_dec lo hi), (Rle_dec lo x); lra.
Qed.

Lemma clamp_inside (lo hi x : R) :
  (lo <= x <= hi)%R -> Rmax lo (Rmin hi x) = x.
Proof.
  intros H. unfold Rmax, Rmin.
  destruct (Rle_dec hi x), (Rle_dec lo hi), (Rle_dec lo x); lra.
Qed.

(** X5. The tempo never leaves the range from 20 to 300 beats per minute:
    the store starts inside it, [setTempo] clamps what it is given, and
    every preset the selector can load has a tempo inside it. *)
Theorem tempo_stays_in_range (s : state) :
  reachable Usage.known_preset s -> (20 <= tempo s <= 300)%R.
Proof.
  induction 1 as [| a s _ IH Hok].
  - apply (preset_tempo_in_range "bassDeep"). reflexivity.
  - destruct a; cbn [run Usage.known_preset] in *; try exact IH.
    + cbn [setTempo tempo]. apply clamp_in_range. lra.
    + unfold loadPreset. destruct Hok as [p Hp]. rewrite Hp.
      cbn [tempo]. by eapply preset_tempo_in_range.
    + unfold generateRandomSequence.
      destruct (random_sequence random k). exact IH.
Qed.

Lemma tempo_stays_in_range_witness :
  reachable Usage.known_preset (setTempo (loadPreset init "acidTechno") 1000)
  /\ (20 <= tempo (setTempo (loadPreset init "acidTechno") 1000) <= 300)%R.
Proof.
  assert (H : reachable Usage.known_preset
                (setTempo (loadPreset init "acidTechno") 1000)).
  { apply (reachable_run _ (SetTempo 1000)); [| exact I].
    apply (reachable_run _ (LoadPreset "acidTechno")); [constructor |].
    by eexists. }
  split; [exact H |].
  exact (tempo_stays_in_range _ H).
Defined.

Section RandomRange.
Variable random : nat -> R.
Hypothesis random_range : forall j, (0 <= random j < 1)%R.

Lemma random_step_range (k : nat) :
  Usage.generated (random_step random k).1
  /\ (k + 5 <= (random_step random k).2 <= k + 6)%nat.
Proof.
  unfold random_step, bind, Math_random, ret, Usage.generated.
  pose proof (random_range (S k)) as H1.
  destruct (Rltb (random k) 0.3); cbn [fst snd note velocity duration].
  - pose proof (random_range (S k)). pose proof (random_range (S (S k))).
    repeat split; try lra; try lia.
  - pose proof (random_range (S (S k))).
    pose proof (random_range (S (S (S k)))).
    assert (0 <= Zfloor (random (S k) * (40 - 20 + 1)) < 21) as Hn.
    { split.
      - apply Zfloor_lub. lra.
      - apply lt_IZR.
        pose proof (Zfloor_bound (random (S k) * (40 - 20 + 1))). lra. }
    split; [split; [right; lia | repeat split; lra] | lia].
Qed.

Lemma Array_from_range (n k : nat) :
  Forall Usage.generated (Array_from n (random_step random) k).1
  /\ (k + 5 * n <= (Array_from n (random_step random) k).2 <= k + 6 * n)%nat.
Proof.
  revert k. induction n as [| n IH]; intros k.
  - cbn. split; [constructor | lia].
  - destruct (random_step_range k) as [Hst Hk].
    cbn [Array_from]. unfold bind.
    destruct (random_step random k) as [st k1]. cbn [fst snd] in *.
    destruct (IH k1) as [Hall Hk1].
    destruct (Array_from n (random_step random) k1) as [xs k2].
    cbn [fst snd ret] in *. split; [by constructor | lia].
Qed.
End RandomRange.



End StoreLaws.

(** ** The step editor and the keys *)

Module SequencerFacts.
Import Store StoreFacts Sequencer.

Lemma foldl_insert_lookup `{Countable K} {V X} (key : X -> K) (val : X -> V)
    (l : list X) (m0 : gmap K V) (k : K) (v : V) :
  NoDup (key <$> l) ->
  foldl (fun m x => <[key x := val x]> m) m0 l !! k = Some v
  <-> (exists x, x ∈ l /\ key x = k /\ val x = v)
      \/ ((k ∉ key <$> l) /\ m0 !! k = Some v).
Proof.
  revert m0. induction l as [| x l IH]; intros m0 Hnd.
  - cbn. split; [intros ?; right; split; [apply not_elem_of_nil | done] |].
    intros [(x & Hx & _) | [_ ?]]; [by apply elem_of_nil in Hx | done].
  - cbn [foldl]. rewrite fmap_cons in Hnd. apply NoDup_cons in Hnd as [Hx Hnd].
    rewrite (IH _ Hnd). rewrite fmap_cons, not_elem_of_cons. split.
    + intros [(y & Hy & Hk & Hv) | [Hk Hv]].
      * left. exists y. by rewrite elem_of_cons; auto.
      * destruct (decide (key x = k)) as [<- | Hne].
        -- rewrite lookup_insert_eq in Hv. left. exists x.
           rewrite elem_of_cons. split; [by left | split; congruence].
        -- rewrite lookup_insert_ne in Hv by done. right. auto.
    + intros [(y & Hy & Hk & Hv) | [[Hne Hk] Hv]].
      * apply elem_of_cons in Hy as [-> | Hy].
        -- right. split; [congruence |]. subst. by rewrite lookup_insert_eq.
        -- left. by exists y.
      * right. split; [done |]. by rewrite lookup_insert_ne.
Qed.

Lemma ALL_NOTES_distinct : NoDup ALL_NOTES.
Proof. apply (bool_decide_unpack _). vm_compute. exact I. Qed.

Lemma snd_imap_pair {A} (l : list A) : (imap pair l).*2 = l.
Proof.
  apply list_eq. intros i.
  rewrite list_lookup_fmap, list_lookup_imap. by destruct (l !! i).
Qed.

Lemma NOTE_TO_MIDI_lookup (name : string) (i : Z) :
  NOTE_TO_MIDI !! name = Some i
  <-> 0 <= i /\ ALL_NOTES !! Z.to_nat i = Some name.
Proof.
  unfold NOTE_TO_MIDI.
  rewrite (foldl_insert_lookup snd (fun kv => Z.of_nat kv.1))
    by (rewrite snd_imap_pair; apply ALL_NOTES_distinct).
  rewrite lookup_empty. split.
  - intros [([j x] & Hx & <- & <-) | [_ ?]]; [| done].
    apply elem_of_lookup_imap in Hx as (j' & x' & [= -> ->] & Hj).
    cbn. rewrite Nat2Z.id. split; [lia | done].
  - intros [Hi Hn]. left. exists (Z.to_nat i, name).
    split; [by apply (elem_of_lookup_imap_2 pair) |].
    cbn. split; [done | lia].
Qed.

Lemma MIDI_TO_NOTE_lookup (name : string) (i : Z) :
  MIDI_TO_NOTE !! i = Some name
  <-> 0 <= i /\ ALL_NOTES !! Z.to_nat i = Some name.
Proof.
  rewrite <- NOTE_TO_MIDI_lookup. unfold MIDI_TO_NOTE.
  rewrite (foldl_insert_lookup snd fst).
  - rewrite lookup_empty. split.
    + intros [([n j] & Hx & <- & <-) | [_ ?]]; [| done].
      by apply elem_of_map_to_list in Hx.
    + intros Hn. left. exists (name, i).
      split; [apply elem_of_map_to_list; exact Hn | split; reflexivity].
  - apply NoDup_fmap_2_strong; [| apply NoDup_map_to_list].
    intros [n1 j1] [n2 j2] H1 H2 Heq. cbn in Heq. subst j2.
    apply elem_of_map_to_list in H1, H2.
    apply NOTE_TO_MIDI_lookup in H1 as [_ H1], H2 as [_ H2].
    congruence.
Qed.

(** X7. The two note tables of the step editor are inverse to each
    other: a name is mapped to a number exactly when the number is mapped
    back to the name, which is when the name stands at that place of
    [ALL_NOTES]; the numbers that have a name are those of the note
    slider, from 0 to 84. *)
Theorem note_tables_are_inverse (name : string) (i : Z) :
  (NOTE_TO_MIDI !! name = Some i <-> MIDI_TO_NOTE !! i = Some name)
  /\ (MIDI_TO_NOTE !! i = Some name
      <-> 0 <= i /\ ALL_NOTES !! Z.to_nat i = Some name)
  /\ (is_Some (MIDI_TO_NOTE !! i) <-> 0 <= i <= slider_max)
  /\ slider_max = 84.
Proof.
  split; [by rewrite NOTE_TO_MIDI_lookup, MIDI_TO_NOTE_lookup |].
  split; [apply MIDI_TO_NOTE_lookup |].
  split; [| reflexivity].
  split.
  - intros [x Hx]. apply MIDI_TO_NOTE_lookup in Hx as [Hi Hx].
    apply lookup_lt_Some in Hx. unfold slider_max. lia.
  - intros Hi. unfold slider_max in Hi.
    destruct (lookup_lt_is_Some_2 ALL_NOTES (Z.to_nat i)) as [x Hx]; [lia |].
    exists x. apply MIDI_TO_NOTE_lookup. split; [lia | done].
Qed.

Lemma array_set_existing {A} (a : array A) (i : Z) (x y : A) :
  array_get a i = Some x ->
  array_set a i y = <[Z.to_nat i := Some y]> a.
Proof.
  intros H. apply array_get_Some in H as [Hi H].
  apply lookup_lt_Some in H. unfold array_set.
  destruct (decide (i < 0)); [lia |].
  destruct (decide (i < Z.of_nat (length a))); [done | lia].
Qed.

Lemma set_step_back (s : state) (i : Z) (st st' : SequencerNote) :
  array_get (sequencerSteps s) i = Some st ->
  setSequencerStep (setSequencerStep s i st') i st = s.
Proof.
  intros H. unfold setSequencerStep at 1. cbn [sequencerSteps setSequencerStep].
  rewrite (array_set_existing (sequencerSteps s) i st st') by exact H.
  rewrite (array_set_existing _ i st' st).
  - rewrite list_insert_insert_eq, list_insert_id.
    + by destruct s.
    + by apply array_get_Some in H as [_ H].
  - apply array_get_Some. apply array_get_Some in H as [Hi H].
    split; [done |]. apply list_lookup_insert_eq. by eapply lookup_lt_Some.
Qed.

Lemma array_get_after_set (s : state) (i : Z) (st st' : SequencerNote) :
  array_get (sequencerSteps s) i = Some st ->
  array_get (sequencerSteps (setSequencerStep s i st')) i = Some st'.
Proof.
  intros H. cbn [sequencerSteps setSequencerStep].
  apply StoreLaws.array_get_set_eq. by apply array_get_Some in H as [? _].
Qed.

(** X8. An edit in the step editor changes the step of its column and
    nothing else: the pattern keeps its length and its other steps, and
    the rest of the store is as before.  Ticking a slide box or an
    enabled box twice gives the pattern back, and of two moves of a note
    slider the second one counts. *)
Theorem step_edits_are_local (e : edit) (i j m m' : Z) (s : state) :
  length (sequencerSteps (perform e s)) = length (sequencerSteps s)
  /\ Patch.beside_steps (perform e s) = Patch.beside_steps s
  /\ (match e with NoteSlider k _ | SlideBox k | EnabledBox k => j <> k end ->
      array_get (sequencerSteps (perform e s)) j
      = array_get (sequencerSteps s) j)
  /\ perform (SlideBox i) (perform (SlideBox i) s) = s
  /\ perform (EnabledBox i) (perform (EnabledBox i) s) = s
  /\ perform (NoteSlider i m') (perform (NoteSlider i m) s)
     = perform (NoteSlider i m') s.
Proof.
  repeat split.
  - destruct e; unfold perform, handleStepNoteChange, handleSlideToggle,
      handleEnabledToggle;
      destruct (array_get (sequencerSteps s) stepIndex) as [st |] eqn:E;
      cbn [fmap option_fmap option_map onStepChange]; try done;
      cbn [sequencerSteps setSequencerStep];
      rewrite (array_set_existing _ _ st) by done; apply length_insert.
  - destruct e; unfold perform, handleStepNoteChange, handleSlideToggle,
      handleEnabledToggle;
      destruct (array_get (sequencerSteps s) stepIndex) as [st |];
      reflexivity.
  - intros Hj.
    destruct e; unfold perform, handleStepNoteChange, handleSlideToggle,
      handleEnabledToggle;
      destruct (array_get (sequencerSteps s) stepIndex) as [st |];
      cbn [fmap option_fmap option_map onStepChange]; try done;
      cbn [sequencerSteps setSequencerStep];
      by apply StoreLaws.array_get_set_ne.
  - destruct (array_get (sequencerSteps s) i) as [st |] eqn:E.
    + assert (H1 : perform (SlideBox i) s
                   = setSequencerStep s i
                       {| note := note st; velocity := velocity st;
                          duration := duration st; slide := negb (slide st);
                          enabled := enabled st |})
        by (unfold perform, handleSlideToggle; rewrite E; reflexivity).
      rewrite H1. unfold perform, handleSlideToggle.
      rewrite (array_get_after_set _ _ st) by done.
      cbn [fmap option_fmap option_map onStepChange slide note velocity
           duration enabled].
      rewrite negb_involutive.
      replace {| note := note st; velocity := velocity st;
                 duration := duration st; slide := slide st;
                 enabled := enabled st |} with st by (by destruct st).
      by apply set_step_back.
    + assert (H1 : perform (SlideBox i) s = s)
        by (unfold perform, handleSlideToggle; rewrite E; reflexivity).
      by rewrite !H1.
  - destruct (array_get (sequencerSteps s) i) as [st |] eqn:E.
    + assert (H1 : perform (EnabledBox i) s
                   = setSequencerStep s i
                       {| note := note st; velocity := velocity st;
                          duration := duration st; slide := slide st;
                          enabled := negb (enabled st) |})
        by (unfold perform, handleEnabledToggle; rewrite E; reflexivity).
      rewrite H1. unfold perform, handleEnabledToggle.
      rewrite (array_get_after_set _ _ st) by done.
      cbn [fmap option_fmap option_map onStepChange slide note velocity
           duration enabled].
      rewrite negb_involutive.
      replace {| note := note st; velocity := velocity st;
                 duration := duration st; slide := slide st;
                 enabled := enabled st |} with st by (by destruct st).
      by apply set_step_back.
    + assert (H1 : perform (EnabledBox i) s = s)
        by (unfold perform, handleEnabledToggle; rewrite E; reflexivity).
      by rewrite !H1.
  - destruct (array_get (sequencerSteps s) i) as [st |] eqn:E.
    + assert (H1 : forall k, perform (NoteSlider i k) s
                   = setSequencerStep s i
                       {| note := k; velocity := velocity st;
                          duration := duration st; slide := slide st;
                          enabled := enabled st |})
        by (intros k; unfold perform, handleStepNoteChange; rewrite E;
            reflexivity).
      rewrite !H1. unfold perform, handleStepNoteChange.
      rewrite (array_get_after_set _ _ st) by done.
      cbn [fmap option_fmap option_map onStepChange slide note velocity
           duration enabled].
      unfold setSequencerStep. cbn [sequencerSteps params activeKeys
        currentPreset currentStep tempo isSequencerRunning].
      f_equal.
      rewrite !(array_set_existing (sequencerSteps s) i st) by done.
      rewrite (array_set_existing (<[_ := _]> _) i
                 {| note := m; velocity := velocity st;
                    duration := duration st; slide := slide st;
                    enabled := enabled st |}).
      * apply list_insert_insert_eq.
      * apply array_get_Some. apply array_get_Some in E as [Hi E].
        split; [done |]. apply list_lookup_insert_eq.
        by eapply lookup_lt_Some.
    + assert (H1 : forall k, perform (NoteSlider i k) s = s)
        by (intros k; unfold perform, handleStepNoteChange; rewrite E;
            reflexivity).
      by rewrite !H1.
Qed.

Lemma keyboard_name_in_table (k : nat) :
  (k <= 72)%nat ->
  ALL_NOTES !! (k + 12)%nat = Some (Keyboard.getNoteNames (Z.of_nat k))
  /\ ALL_NOTES !! k <> Some (Keyboard.getNoteNames (Z.of_nat k)).
Proof.
  intros Hk.
  do 73 (destruct k as [| k]; [by vm_compute |]). lia.
Qed.

(** X9. The keys are labelled an octave above the step editor: for a
    note from 0 to 72, the label [getNoteNames] gives it is the name the
    step editor gives the note twelve semitones up, and not the name it
    gives the note itself.  The thirteen keys drawn, 36 to 48, are among
    these notes. *)
Theorem keyboard_names_an_octave_up (n : Z) :
  0 <= n <= 72 ->
  MIDI_TO_NOTE !! (n + 12) = Some (Keyboard.getNoteNames n)
  /\ MIDI_TO_NOTE !! n <> Some (Keyboard.getNoteNames n)
  /\ Forall (fun k => 36 <= k <= 48) Keyboard.midiNotes.
Proof.
  intros Hn.
  destruct (keyboard_name_in_table (Z.to_nat n)) as [H1 H2]; [lia |].
  rewrite Z2Nat.id in H1, H2 by lia.
  split; [| split].
  - apply MIDI_TO_NOTE_lookup. split; [lia |].
    by replace (Z.to_nat (n + 12)) with (Z.to_nat n + 12)%nat by lia.
  - intros H. by apply MIDI_TO_NOTE_lookup in H as [_ H].
  - unfold Keyboard.midiNotes, Keyboard.keys, Keyboard.baseNote.
    cbn [seq fmap list_fmap]. repeat (constructor; [lia |]). constructor.
Qed.

Lemma keyboard_names_an_octave_up_witness :
  0 <= 36 <= 72
  /\ Keyboard.getNoteNames 36 = "C3"%string
  /\ MIDI_TO_NOTE !! 48 = Some (Keyboard.getNoteNames 36)
  /\ MIDI_TO_NOTE !! 36 <> Some (Keyboard.getNoteNames 36).
Proof.
  assert (H : 0 <= 36 <= 72) by lia.
  split; [exact H |]. split; [reflexivity |].
  pose proof (keyboard_names_an_octave_up 36 H) as (H1 & H2 & _).
  split; [exact H1 | exact H2].
Defined.

Lemma preset_notes_named name preset :
  PRESETS !! name = Some preset ->
  Forall (fun st => 0 <= note st <= 84) (preset_steps preset).
Proof.
  intros H. apply StoreLaws.preset_cases in H.
  repeat (apply elem_of_cons in H as [-> | H];
          [cbn [preset_steps acidTechno padAmbient leadBright bassDeep
                pluckStaccato experimental];
           repeat (constructor; [cbn [note step]; lia |]); constructor |]).
  by apply elem_of_nil in H.
Qed.

Lemma slider_max_eq : slider_max = 84.
Proof. reflexivity. Qed.

Lemma of_list_named (l : list SequencerNote) :
  Forall (fun st => 0 <= note st <= 84) l -> Usage.named (of_list l).
Proof.
  intros H. unfold Usage.named, of_list. apply Forall_fmap.
  eapply Forall_impl; [exact H |]. intros st Hst st' [= <-].
  rewrite slider_max_eq. exact Hst.
Qed.

Lemma run_named a s :
  Usage.from_controls a -> Usage.named (sequencerSteps s) ->
  Usage.named (sequencerSteps (run a s)).
Proof.
  intros Hok Hs. destruct a; cbn [run Usage.from_controls] in *;
    try exact Hs; try done.
  - apply of_list_named. apply Forall_replicate. cbn. lia.
  - unfold loadPreset. destruct Hok as [p Hp]. rewrite Hp.
    apply of_list_named. by eapply preset_notes_named.
  - unfold generateRandomSequence, random_sequence.
    destruct (StoreLaws.Array_from_range random Hok 16 k) as [Hall _].
    destruct (Array_from 16 (random_step random) k) as [steps k'].
    apply of_list_named. cbn [fst] in Hall.
    eapply Forall_impl; [exact Hall |].
    intros st ([-> | ?] & _); lia.
Qed.

Lemma perform_named e s :
  Usage.from_slider e -> Usage.named (sequencerSteps s) ->
  Usage.named (sequencerSteps (perform e s)).
Proof.
  intros Hok Hs.
  destruct e; unfold perform, handleStepNoteChange, handleSlideToggle,
    handleEnabledToggle;
    destruct (array_get (sequencerSteps s) stepIndex) as [st |] eqn:E;
    cbn [fmap option_fmap option_map onStepChange]; try done;
    cbn [sequencerSteps setSequencerStep];
    rewrite (array_set_existing _ _ st) by done;
    (apply Forall_insert; [done |]); intros st' [= <-]; cbn [note].
  - exact Hok.
  - apply array_get_Some in E as [_ E].
    eapply Forall_lookup_1 in Hs; [| exact E]. by apply Hs.
  - apply array_get_Some in E as [_ E].
    eapply Forall_lookup_1 in Hs; [| exact E]. by apply Hs.
Qed.

Lemma perform_pattern e s :
  is_pattern (sequencerSteps s) -> is_pattern (sequencerSteps (perform e s)).
Proof.
  intros Hs.
  destruct e; unfold perform, handleStepNoteChange, handleSlideToggle,
    handleEnabledToggle;
    destruct (array_get (sequencerSteps s) stepIndex) as [st |] eqn:E;
    cbn [fmap option_fmap option_map onStepChange]; try done;
    cbn [sequencerSteps setSequencerStep];
    (apply array_set_in_range; [| done]);
    apply array_get_Some in E as [? E]; apply lookup_lt_Some in E; lia.
Qed.

Lemma edited_pattern s :
  Usage.edited s ->
  is_pattern (sequencerSteps s) /\ Usage.named (sequencerSteps s).
Proof.
  induction 1 as [| a s _ [IH1 IH2] Hok | e s _ [IH1 IH2] Hok].
  - split; [apply init_pattern |].
    apply of_list_named. by apply (preset_notes_named "bassDeep").
  - split; [| by apply run_named].
    apply run_keeps_pattern; [| done]. by destruct a.
  - split; [by apply perform_pattern | by apply perform_named].
Qed.

(** X10. Whatever is done with the preset selector, the buttons and the
    step editor, the pattern has its sixteen steps and every step has a
    note from 0 to 84, so that the name the step editor looks up for it
    in [MIDI_TO_NOTE] is there. *)
Theorem edited_pattern_has_named_notes (s : state) :
  Usage.edited s ->
  length (sequencerSteps s) = 16%nat
  /\ forall i, 0 <= i < 16 ->
       exists st name,
         array_get (sequencerSteps s) i = Some st
         /\ 0 <= note st <= 84
         /\ MIDI_TO_NOTE !! note st = Some name.
Proof.
  intros H. apply edited_pattern in H as [[Hlen Hall] Hnamed].
  split; [exact Hlen |]. intros i Hi.
  destruct (lookup_lt_is_Some_2 (sequencerSteps s) (Z.to_nat i)) as [o Ho];
    [lia |].
  pose proof (Forall_lookup_1 _ _ _ _ Hall Ho) as [st ->].
  pose proof (Forall_lookup_1 _ _ _ _ Hnamed Ho st eq_refl) as Hst.
  rewrite slider_max_eq in Hst.
  destruct (lookup_lt_is_Some_2 ALL_NOTES (Z.to_nat (note st))) as [name Hn];
    [cbn [length ALL_NOTES]; lia |].
  exists st, name. split; [| split; [done |]].
  - apply array_get_Some. split; [lia | done].
  - apply MIDI_TO_NOTE_lookup. split; [lia | done].
Qed.

Lemma edited_pattern_has_named_notes_witness :
  Usage.edited (perform (NoteSlider 3 60) (clearSequencer init))
  /\ length (sequencerSteps (perform (NoteSlider 3 60) (clearSequencer init)))
     = 16%nat.
Proof.
  assert (H : Usage.edited (perform (NoteSlider 3 60) (clearSequencer init))).
  { apply Usage.edited_perform; [| cbn; unfold slider_max; cbn; lia].
    apply (Usage.edited_run ClearSequencer); [constructor | exact I]. }
  split; [exact H |].
  exact (proj1 (edited_pattern_has_named_notes _ H)).
Defined.

End SequencerFacts.

(** ** The controls *)

Module ControlFacts.
Import Controls.

Lemma toFixed2_near (x : R) : (Rabs (toFixed2 x - x) <= / 200)%R.
Proof.
  unfold toFixed2, Rltb. destruct (Rlt_dec x 0).
  - pose proof (Zfloor_bound (- x * 100 + / 2)).
    apply Rabs_le. lra.
  - pose proof (Zfloor_bound (x * 100 + / 2)).
    apply Rabs_le. lra.
Qed.

Lemma toFixed2_grid (a : Z) : toFixed2 (IZR a / 100) = (IZR a / 100)%R.
Proof.
  unfold toFixed2, Rltb. destruct (Rlt_dec (IZR a / 100) 0).
  - replace (- (IZR a / 100) * 100 + / 2)%R with (IZR (- a) + / 2)%R
      by (rewrite opp_IZR; field).
    rewrite (Zfloor_eq (- a)) by lra. rewrite opp_IZR. lra.
  - replace (IZR a / 100 * 100 + / 2)%R with (IZR a + / 2)%R by field.
    rewrite (Zfloor_eq a) by lra. done.
Qed.

Lemma toFixed2_mono (x y : R) : (x <= y)%R -> (toFixed2 x <= toFixed2 y)%R.
Proof.
  intros Hxy. unfold toFixed2, Rltb.
  destruct (Rlt_dec x 0), (Rlt_dec y 0); try lra.
  - assert (Zfloor (- y * 100 + / 2) <= Zfloor (- x * 100 + / 2)) as H
      by (apply Zfloor_le; lra).
    apply IZR_le in H. lra.
  - assert (0 <= Zfloor (- x * 100 + / 2)) as H1 by (apply Zfloor_lub; lra).
    assert (0 <= Zfloor (y * 100 + / 2)) as H2 by (apply Zfloor_lub; lra).
    apply IZR_le in H1, H2. lra.
  - assert (Zfloor (x * 100 + / 2) <= Zfloor (y * 100 + / 2)) as H
      by (apply Zfloor_le; lra).
    apply IZR_le in H. lra.
Qed.

Lemma drag_in_range (min max value delta : R) (a b : Z) :
  min = (IZR a / 100)%R -> max = (IZR b / 100)%R -> (min <= max)%R ->
  (min <= drag min max value delta <= max)%R.
Proof.
  intros Hmin Hmax Hle.
  assert (Hfmin : toFixed2 min = min) by (rewrite Hmin; apply toFixed2_grid).
  assert (Hfmax : toFixed2 max = max) by (rewrite Hmax; apply toFixed2_grid).
  unfold drag.
  pose proof (StoreLaws.clamp_in_range min max
                (value + delta * ((max - min) / 200)) Hle) as [H1 H2].
  split.
  - apply Rle_trans with (toFixed2 min); [lra |]. by apply toFixed2_mono.
  - apply Rle_trans with (toFixed2 max); [| lra]. by apply toFixed2_mono.
Qed.

Lemma rotary_knob_bounds (value delta : R) :
  (0 <= drag 0 3 value delta <= 3)%R.
Proof. apply (drag_in_range 0 3 value delta 0 300); lra. Qed.

(** X11. A knob whose two ends are multiples of 0.01 (as the ends of
    all the knobs of the page are) reports, for any drag from any value,
    a value between its ends, at most 0.005 away from the value
    the drag asks for once cut to the ends; and for a value between the
    ends the pointer is turned between -135 and 135 degrees. *)
Theorem rotary_knob_in_range (min max value delta : R) (a b : Z) :
  min = (IZR a / 100)%R -> max = (IZR b / 100)%R -> (min < max)%R ->
  let asked := Rmax min (Rmin max (value + delta * ((max - min) / 200))) in
  let v := drag min max value delta in
  (min <= v <= max)%R
  /\ (Rabs (v - asked) <= / 200)%R
  /\ (-135 <= rotation min max v <= 135)%R
  /\ rotation min max min = (-135)%R
  /\ rotation min max max = 135%R.
Proof.
  intros Hmin Hmax Hlt asked v.
  assert (Hasked : (min <= asked <= max)%R)
    by (apply StoreLaws.clamp_in_range; lra).
  assert (Hv : (min <= v <= max)%R)
    by (apply (drag_in_range min max value delta a b); lra).
  split; [exact Hv |].
  split; [apply toFixed2_near |].
  unfold rotation.
  assert (Hd : (0 < max - min)%R) by lra.
  split; [| split; field; lra].
  set (q := ((v - min) / (max - min))%R).
  assert (Hq : (q * (max - min))%R = (v - min)%R) by (unfold q; field; lra).
  assert (0 <= q <= 1)%R by nra.
  lra.
Qed.

Lemma rotary_knob_in_range_witness :
  (0 = IZR 0 / 100)%R /\ (3 = IZR 300 / 100)%R /\ (0 < 3)%R
  /\ (0 <= drag 0 3 1 50 <= 3)%R.
Proof.
  assert (H1 : (0 = IZR 0 / 100)%R) by lra.
  assert (H2 : (3 = IZR 300 / 100)%R) by lra.
  assert (H3 : (0 < 3)%R) by lra.
  split; [exact H1 |]. split; [exact H2 |]. split; [exact H3 |].
  exact (proj1 (rotary_knob_in_range 0 3 1 50 0 300 H1 H2 H3)).
Defined.

Lemma round_in_range (v : R) (n : Z) :
  (0 <= v <= IZR n)%R -> 0 <= Pitch.round v <= n.
Proof.
  intros Hv. unfold Pitch.round. split.
  - apply Zfloor_lub. lra.
  - pose proof (Zfloor_bound (v + / 2)) as [Hb _].
    assert (IZR (Zfloor (v + / 2)) < IZR (n + 1))%R as H
      by (rewrite plus_IZR; lra).
    apply lt_IZR in H. lia.
Qed.

(** X12. The filter type knob never stores an undefined type: the value
    it shows for a type is read back as that type, every value from 0 to
    3 is read as one of the four types, the nearest one, and so is every
    value a drag of the knob reports. *)
Theorem filter_type_knob_is_total (ty : BiquadFilterType) (v value delta : R) :
  filterType_of_value (filterType_value ty) = Some ty
  /\ ((0 <= v <= 3)%R ->
      exists ty', filterType_of_value v = Some ty'
                  /\ (Rabs (filterType_value ty' - v) <= / 2)%R)
  /\ is_Some (filterType_of_value (drag 0 3 value delta)).
Proof.
  assert (Hv : forall v, (0 <= v <= 3)%R ->
            exists ty', filterType_of_value v = Some ty'
                        /\ (Rabs (filterType_value ty' - v) <= / 2)%R).
  { clear. intros v Hv. unfold filterType_of_value.
    pose proof (round_in_range v 3 Hv) as Hr.
    pose proof (Zfloor_bound (v + / 2)) as Hb. fold (Pitch.round v) in Hb.
    destruct (decide (Pitch.round v < 0)); [lia |].
    assert (Pitch.round v = 0 \/ Pitch.round v = 1 \/ Pitch.round v = 2
            \/ Pitch.round v = 3) as [E | [E | [E | E]]] by lia;
      rewrite E in *; cbn [Z.to_nat Pos.to_nat Pos.iter_op Nat.add types
                           lookup list_lookup];
      eexists; (split; [reflexivity |]); cbn [filterType_value];
      apply Rabs_le; lra. }
  split; [| split; [apply Hv |]].
  - unfold filterType_of_value.
    destruct ty; cbn [filterType_value]; rewrite PitchFacts.round_IZR;
      reflexivity.
  - destruct (rotary_knob_bounds value delta) as [H1 H2].
    destruct (Hv (drag 0 3 value delta)) as (ty' & -> & _); [lra |].
    by eexists.
Qed.

End ControlFacts.

(** ** The voices of the Web Audio engine *)

Module WebAudioLaws.
Import WebAudio WebAudioFacts.

Lemma webaudio_perform_sync o s s' :
  perform o s = Some s' ->
  dom (oscillators s) = activeNotes s /\ dom (gains s) = activeNotes s
  /\ dom (filters s) = activeNotes s ->
  dom (oscillators s') = activeNotes s' /\ dom (gains s') = activeNotes s'
  /\ dom (filters s') = activeNotes s'.
Proof.
  intros Hp (Ho & Hg & Hf).
  destruct o; cbn [perform] in Hp.
  - injection Hp as <-. done.
  - injection Hp as <-. unfold noteOn.
    cbn [build oscillators gains filters activeNotes].
    rewrite !dom_insert_L, retrigger_activeNotes.
    assert (oscillators (retrigger noteNumber now s) = oscillators s
            /\ gains (retrigger noteNumber now s) = gains s
            /\ filters (retrigger noteNumber now s) = filters s)
      as (-> & -> & ->)
      by (unfold retrigger; destruct (decide _); done).
    by rewrite Ho, Hg, Hf.
  - injection Hp as <-. done.
  - injection Hp as <-. done.
  - injection Hp as <-. done.
  - injection Hp as <-.
    cbn [stopAllNotes oscillators gains filters activeNotes].
    by rewrite !dom_empty_L.
  - unfold fire in Hp. destruct (timeouts s !! k) as [t |]; [| done].
    injection Hp as <-.
    cbn [forget_note oscillators gains filters activeNotes].
    rewrite !dom_delete_L. by rewrite Ho, Hg, Hf.
Qed.

Lemma webaudio_reachable_sync s :
  reachable s ->
  dom (oscillators s) = activeNotes s /\ dom (gains s) = activeNotes s
  /\ dom (filters s) = activeNotes s.
Proof.
  induction 1 as [| o s s' _ IH H].
  - cbn. by rewrite !dom_empty_L.
  - by eapply webaudio_perform_sync.
Qed.

(** X13. In every state the engine reaches, the notes of
    [getActiveNotes] are exactly the notes that have an oscillator, and
    these have a gain and a filter as well: the three maps and the set
    of active notes change together. *)
Theorem active_notes_have_voices (s : state) (n : Z) :
  reachable s ->
  (n ∈ getActiveNotes s <-> is_Some (oscillators s !! n))
  /\ (is_Some (oscillators s !! n) <-> is_Some (gains s !! n))
  /\ (is_Some (oscillators s !! n) <-> is_Some (filters s !! n))
  /\ length (getActiveNotes s) = size (oscillators s).
Proof.
  intros (Ho & Hg & Hf)%webaudio_reachable_sync.
  unfold getActiveNotes.
  rewrite elem_of_elements, <- Ho, <- !elem_of_dom, Ho, Hg, Hf.
  repeat split; try done.
  rewrite <- Ho. by rewrite <- size_dom.
Qed.

Lemma active_notes_have_voices_witness :
  reachable (noteOn 60 1 0 0 init)
  /\ (60 ∈ getActiveNotes (noteOn 60 1 0 0 init)
      <-> is_Some (oscillators (noteOn 60 1 0 0 init) !! 60)).
Proof.
  assert (H : reachable (noteOn 60 1 0 0 init)).
  { apply (reachable_perform (NoteOn 60 1 0 0) init); [constructor | done]. }
  split; [exact H |].
  exact (proj1 (active_notes_have_voices _ 60 H)).
Defined.



Lemma existsb_false {A} (P : A -> bool) (l : list A) :
  (forall c, c ∈ l -> P c = false) -> existsb P l = false.
Proof.
  induction l as [| x l IH]; intros H; [reflexivity |].
  cbn [existsb]. rewrite (H x) by apply list_elem_of_here.
  apply IH. intros c Hc. apply H. by apply list_elem_of_further.
Qed.

Lemma stopAll_calls_spare (o : nat) (now : R) (s : state) :
  (forall n x, oscillators s !! n = Some x -> x <> o) ->
  (forall n x, ringModOscillators s !! n = Some x -> x <> o) ->
  (forall n x, lfos s !! n = Some x -> x <> o) ->
  existsb (is_release_of o) (stopAll_calls now s) = false.
Proof.
  intros Ho Hr Hl. apply existsb_false. intros c Hc.
  unfold stopAll_calls in Hc. rewrite !elem_of_app in Hc.
  destruct Hc as [Hc | [Hc | [Hc | [Hc | Hc]]]].
  - apply list_elem_of_fmap in Hc as ([k x] & -> & Hkx).
    apply elem_of_map_to_list in Hkx. apply Ho in Hkx.
    cbn. by apply Nat.eqb_neq.
  - apply list_elem_of_fmap in Hc as ([k x] & -> & Hkx).
    apply elem_of_map_to_list in Hkx. apply Hr in Hkx.
    cbn. by apply Nat.eqb_neq.
  - apply list_elem_of_fmap in Hc as ([k x] & -> & Hkx).
    apply elem_of_map_to_list in Hkx. apply Hl in Hkx.
    cbn. by apply Nat.eqb_neq.
  - apply list_elem_of_bind in Hc as ([k x] & Hc & _).
    unfold mute in Hc. cbn in Hc.
    apply elem_of_cons in Hc as [-> | Hc]; [done |].
    apply elem_of_cons in Hc as [-> | Hc]; [done |].
    by apply elem_of_nil in Hc.
  - apply list_elem_of_bind in Hc as ([k xs] & Hc & _).
    apply list_elem_of_bind in Hc as (g & Hc & _).
    unfold mute in Hc.
    apply elem_of_cons in Hc as [-> | Hc]; [done |].
    apply elem_of_cons in Hc as [-> | Hc]; [done |].
    by apply elem_of_nil in Hc.
Qed.

(** X15. A note that is triggered again while it is active is released
    and built anew, and the release leaves its timer behind.  When that
    timer fires it forgets the note, which by then is the new voice: the
    new oscillator has been started and not stopped, the note is no
    longer active, and neither [noteOff] for the note nor [stopAllNotes]
    stops the oscillator any more. *)
Theorem stale_timer_orphans_new_voice
    (s : state) (n : Z) (v sl now : R) :
  reachable s -> n ∈ activeNotes s ->
  let s1 := noteOn n v sl now s in
  let o := osc (next_node s) in
  oscillators s1 !! n = Some o
  /\ started s1 o = true
  /\ exists s2,
       fire (length (timeouts s)) s1 = Some s2
       /\ oscillators s2 !! n = None
       /\ (n ∉ activeNotes s2)
       /\ released s2 o = false
       /\ forall now',
            released (noteOff n now' s2) o = false
            /\ released (stopAllNotes now' s2) o = false.
Proof.
  intros Hreach Hn s1 o.
  pose proof (webaudio_reachable_well_formed s Hreach) as Hwf.
  destruct (webaudio_noteOn_registers n v sl now s) as (Ho1 & _ & _ & _).
  fold s1 o in Ho1.
  assert (Es1 : s1 = build n v sl now (noteOff n now s))
    by (by apply webaudio_noteOn_of_active_note).
  assert (Htr : trace s1
                = (trace s ++ noteOff_calls n now s)
                  ++ voice_calls (params s) (activeNotes s) (masterGain s)
                       n v sl now (next_node s))
    by (rewrite Es1; reflexivity).
  assert (Hold : Forall (fun c => (call_node c < o)%nat)
                   (trace s ++ noteOff_calls n now s)).
  { apply Forall_app. split; [apply Hwf | by apply noteOff_calls_nodes]. }
  assert (Hrel : released s1 o = false).
  { unfold released. rewrite Htr, existsb_app, voice_calls_no_stop.
    rewrite orb_false_r. by apply webaudio_not_released_fresh. }
  split; [exact Ho1 |].
  split.
  { unfold started. rewrite Htr, existsb_app. unfold o.
    rewrite voice_calls_start. by rewrite orb_true_r. }
  assert (Ht : timeouts s1 !! length (timeouts s)
               = Some {| delay := release (params s) * 1000 + 100;
                         forget := n |}).
  { rewrite Es1. cbn [build noteOff timeouts].
    by rewrite list_lookup_middle. }
  destruct (fire_forgets _ _ _ Ht)
    as (s2 & Hfire & Htr2 & Ho2 & Hg2 & _ & Hl2 & Ha2).
  cbn [forget] in Ho2, Hg2, Ha2.
  assert (Hr2 : ringModOscillators s2 = ringModOscillators s1
                /\ params s2 = params s1).
  { unfold fire in Hfire. rewrite Ht in Hfire. by injection Hfire as <-. }
  destruct Hr2 as [Hr2 _].
  exists s2. split; [exact Hfire |].
  split; [by rewrite Ho2, lookup_delete_eq |].
  split; [rewrite Ha2, not_elem_of_difference, elem_of_singleton; by right |].
  assert (Hrel2 : released s2 o = false)
    by (unfold released; rewrite Htr2; exact Hrel).
  split; [exact Hrel2 |].
  destruct Hwf as (_ & _ & Hwo & _ & _ & Hwl & Hwr & _).
  assert (Hlfo : forall k x, lfos s2 !! k = Some x -> x <> o).
  { intros k x. rewrite Hl2, Es1. cbn [build noteOff lfos params next_node].
    destruct (lfo_enabled (params s)).
    - intros [[_ <-] | [_ H]]%lookup_insert_Some; [unfold o, osc, lfo; lia |].
      apply lookup_delete_Some in H as [_ H]. apply Hwl in H.
      unfold o, osc. lia.
    - intros [_ H]%lookup_delete_Some. apply Hwl in H. unfold o, osc. lia. }
  intros now'. split.
  - unfold released in *. cbn [noteOff trace]. rewrite existsb_app, Hrel2.
    unfold noteOff_calls. rewrite Hg2, lookup_delete_eq. cbn [app orb].
    destruct (lfos s2 !! n) as [l |] eqn:El; [| reflexivity].
    apply Hlfo in El. cbn. rewrite orb_false_r. by apply Nat.eqb_neq.
  - unfold released in *. cbn [stopAllNotes trace].
    rewrite existsb_app, Hrel2. cbn [orb].
    apply stopAll_calls_spare; [| | exact Hlfo].
    + intros k x. rewrite Ho2.
      intros [Hk H]%lookup_delete_Some. rewrite Es1 in H.
      cbn [build noteOff oscillators] in H.
      rewrite lookup_insert_ne in H by done.
      apply Hwo in H. unfold o, osc. lia.
    + intros k x. rewrite Hr2, Es1.
      cbn [build noteOff ringModOscillators params next_node].
      destruct (ringMod_enabled (params s)).
      * intros [[_ <-] | [_ H]]%lookup_insert_Some;
          [unfold o, osc, ringModOsc; lia |].
        apply Hwr in H. unfold o, osc. lia.
      * intros H. apply Hwr in H. unfold o, osc. lia.
Qed.

Lemma stale_timer_orphans_new_voice_witness :
  let s := noteOff 60 1 (noteOn 60 1 0 0 init) in
  reachable s /\ 60 ∈ activeNotes s
  /\ exists s2,
       fire (length (timeouts s)) (noteOn 60 1 0 1.2 s) = Some s2
       /\ released s2 (osc (next_node s)) = false.
Proof.
  intros s.
  assert (H : reachable s).
  { apply (reachable_perform (NoteOff 60 1) (noteOn 60 1 0 0 init));
      [| done].
    apply (reachable_perform (NoteOn 60 1 0 0) init); [constructor | done]. }
  assert (Hn : 60 ∈ activeNotes s).
  { unfold s. cbn [noteOff activeNotes]. apply webaudio_noteOn_registers. }
  split; [exact H |]. split; [exact Hn |].
  destruct (stale_timer_orphans_new_voice s 60 1 0 1.2 H Hn)
    as (_ & _ & s2 & Hf & _ & _ & Hr & _).
  by exists s2.
Defined.

Ltac decide_wiring :=
  cbn [call_node Wiring.feeds]; node_eqb;
  first [ reflexivity | apply Nat.eqb_neq; lia ].

Ltac eval_wiring :=
  repeat first
    [ rewrite filter_keep by decide_wiring
    | rewrite filter_drop by decide_wiring ];
  cbn [List.filter app].

(** X16. With ring modulation on, the gain that scales the modulating
    oscillator is set to half of [ringModAmount], a value between 0 and
    0.5 that the clamp leaves alone, and drives the gain parameter of the
    carrier; the carrier is connected to the filter, beside the
    oscillator, but no node is connected to the input of the carrier. *)
Theorem ring_modulator_wiring
    (p : SynthesizerParams) (active : gset Z) (master : nat)
    (n : Z) (v sl now : R) (b : nat) :
  ringMod_enabled p = true -> (master < b)%nat ->
  let calls := voice_calls p active master n v sl now b in
  calls_on (ringModGain b) calls
  = [ createGain (ringModGain b);
      set_value (ringModGain b) p_gain (ringModAmount p * 0.5);
      connect (ringModGain b) (to_param (ringModCarrier b) p_gain) ]
  /\ (0 < ringModAmount p * 0.5 < 0.5)%R
  /\ Wiring.inputs (ringModCarrier b) calls = []
  /\ Wiring.inputs (filter b) calls
     = [ connect (osc b) (to_node (filter b));
         connect (ringModCarrier b) (to_node (filter b)) ].
Proof.
  intros Hring Hm calls.
  assert (Ha : (0 < ringModAmount p < 1)%R).
  { unfold ringMod_enabled in Hring.
    apply andb_true_iff in Hring as [H1 H2].
    apply Rltb_spec in H1, H2. lra. }
  assert (Hclamp : Rmax 0 (Rmin 0.5 (ringModAmount p * 0.5))
                   = (ringModAmount p * 0.5)%R)
    by (apply StoreLaws.clamp_inside; lra).
  split; [| split; [lra |]].
  - unfold calls, calls_on, voice_calls, oscillator_calls, filter_calls,
      envelope_calls, ringMod_calls, lfo_calls, output_calls.
    rewrite Hring, Hclamp, !List.filter_app.
    destruct (Rltb 0 sl), (Reqb (detuneAmount p) 0), (lfo_enabled p);
      eval_wiring; reflexivity.
  - unfold calls, Wiring.inputs, voice_calls, oscillator_calls, filter_calls,
      envelope_calls, ringMod_calls, lfo_calls, output_calls.
    rewrite Hring, !List.filter_app.
    destruct (Rltb 0 sl), (Reqb (detuneAmount p) 0), (lfo_enabled p);
      eval_wiring; split; reflexivity.
Qed.

Lemma ring_modulator_wiring_witness :
  let p := Store.preset_params Store.experimental in
  ringMod_enabled p = true /\ (0 < 1)%nat
  /\ Wiring.inputs (ringModCarrier 1) (voice_calls p ∅ 0 60 1 0 0 1) = [].
Proof.
  intros p.
  assert (H1 : ringMod_enabled p = true).
  { unfold ringMod_enabled, p. cbn [Store.preset_params Store.experimental
                                     ringModAmount].
    rewrite !Rltb_true by lra. reflexivity. }
  assert (H2 : (0 < 1)%nat) by lia.
  split; [exact H1 |]. split; [exact H2 |].
  exact (proj1 (proj2 (proj2
           (ring_modulator_wiring p ∅ 0 60 1 0 0 1 H1 H2)))).
Defined.

(** X17. The gain of a new voice is automated from 0 at the time of the
    call to [velocity * volume] after the attack time and on to
    [sustain * velocity * volume] after the decay time, and is connected
    to the master gain; nothing else is done to it.  With a sustain
    between 0 and 1 and times that are not negative, the sustain level
    does not exceed the peak and the three points are in time order. *)
Theorem envelope_of_voice
    (p : SynthesizerParams) (active : gset Z) (master : nat)
    (n : Z) (v sl now : R) (b : nat) :
  (0 <= v * volume p)%R -> (0 <= sustain p <= 1)%R ->
  (0 <= attack p)%R -> (0 <= decay p)%R ->
  let peak := (v * volume p)%R in
  let level := (sustain p * v * volume p)%R in
  calls_on (gainNode b) (voice_calls p active master n v sl now b)
  = [ createGain (gainNode b);
      setValueAtTime (gainNode b) p_gain 0 now;
      linearRampToValueAtTime (gainNode b) p_gain peak (now + attack p);
      linearRampToValueAtTime (gainNode b) p_gain level
        (now + attack p + decay p);
      connect (gainNode b) (to_node master) ]
  /\ (0 <= level <= peak)%R
  /\ (now <= now + attack p <= now + attack p + decay p)%R.
Proof.
  intros Hv Hs Ha Hd peak level.
  split; [| split; [unfold level, peak; nra | lra]].
  unfold calls_on, voice_calls, oscillator_calls, filter_calls,
    envelope_calls, ringMod_calls, lfo_calls, output_calls.
  rewrite !List.filter_app.
  destruct (Rltb 0 sl), (Reqb (detuneAmount p) 0), (ringMod_enabled p),
    (lfo_enabled p); eval_wiring; reflexivity.
Qed.

Lemma envelope_of_voice_witness :
  (0 <= 1 * volume constructor_params)%R
  /\ (0 <= sustain constructor_params <= 1)%R
  /\ (0 <= attack constructor_params)%R
  /\ (0 <= decay constructor_params)%R
  /\ (0 <= sustain constructor_params * 1 * volume constructor_params
      <= 1 * volume constructor_params)%R.
Proof.
  assert (H1 : (0 <= 1 * volume constructor_params)%R) by (cbn; lra).
  assert (H2 : (0 <= sustain constructor_params <= 1)%R) by (cbn; lra).
  assert (H3 : (0 <= attack constructor_params)%R) by (cbn; lra).
  assert (H4 : (0 <= decay constructor_params)%R) by (cbn; lra).
  split; [exact H1 |]. split; [exact H2 |]. split; [exact H3 |].
  split; [exact H4 |].
  exact (proj1 (proj2 (envelope_of_voice constructor_params ∅ 0 60 1 0 0 1
                         H1 H2 H3 H4))).
Defined.

(** X18. [stopAllNotes] silences every active note at once: its
    oscillator is stopped at the time of the call and its gain is set to
    zero there; no note is active afterwards, and the timers that earlier
    releases have registered stay pending. *)
Theorem stopAllNotes_silences_every_voice (s : state) (n : Z) (now : R) :
  reachable s -> n ∈ activeNotes s ->
  exists osc gain,
    oscillators s !! n = Some osc /\ gains s !! n = Some gain
    /\ stop osc (Some now) ∈ stopAll_calls now s
    /\ setValueAtTime gain p_gain 0 now ∈ stopAll_calls now s
    /\ released (stopAllNotes now s) osc = true
    /\ getActiveNotes (stopAllNotes now s) = []
    /\ timeouts (stopAllNotes now s) = timeouts s.
Proof.
  intros (Ho & Hg & _)%webaudio_reachable_sync Hn.
  assert (is_Some (gains s !! n)) as [gain Eg]
    by (apply elem_of_dom; by rewrite Hg).
  assert (is_Some (oscillators s !! n)) as [osc Eo]
    by (apply elem_of_dom; by rewrite Ho).
  exists osc, gain. split; [done |]. split; [done |].
  assert (H1 : stop osc (Some now) ∈ stopAll_calls now s).
  { unfold stopAll_calls. apply elem_of_app. left.
    apply list_elem_of_fmap. exists (n, osc).
    split; [reflexivity | by apply elem_of_map_to_list]. }
  split; [exact H1 |]. split.
  { unfold stopAll_calls. rewrite !elem_of_app. do 3 right. left.
    apply list_elem_of_bind. exists (n, gain).
    split; [| by apply elem_of_map_to_list].
    unfold mute. cbn. apply list_elem_of_further, list_elem_of_here. }
  split; [| split; [| reflexivity]].
  - unfold released. cbn [stopAllNotes trace]. rewrite existsb_app.
    apply orb_true_iff. right. apply existsb_exists.
    exists (stop osc (Some now)). split; [by apply list_elem_of_In |].
    cbn. apply Nat.eqb_refl.
  - unfold getActiveNotes. cbn [stopAllNotes activeNotes].
    apply elements_empty.
Qed.

Lemma stopAllNotes_silences_every_voice_witness :
  reachable (noteOn 60 1 0 0 init)
  /\ 60 ∈ activeNotes (noteOn 60 1 0 0 init)
  /\ exists osc,
       oscillators (noteOn 60 1 0 0 init) !! 60 = Some osc
       /\ released (stopAllNotes 1 (noteOn 60 1 0 0 init)) osc = true.
Proof.
  assert (H : reachable (noteOn 60 1 0 0 init)).
  { apply (reachable_perform (NoteOn 60 1 0 0) init); [constructor | done]. }
  assert (Hn : 60 ∈ activeNotes (noteOn 60 1 0 0 init))
    by apply webaudio_noteOn_registers.
  split; [exact H |]. split; [exact Hn |].
  destruct (stopAllNotes_silences_every_voice _ 60 1 H Hn)
    as (osc & gain & Ho & _ & _ & _ & Hr & _).
  by exists osc.
Defined.

End WebAudioLaws.

(** ** The voices of the Tone.js engine *)

Module ToneLaws.
Import Tone ToneFacts Voices.

Lemma tone_perform_sync o s s' :
  perform o s = Some s' ->
  dom (voices s) = activeNotes s -> dom (voices s') = activeNotes s'.
Proof.
  intros Hp Hs. destruct o; cbn [perform] in Hp.
  - injection Hp as <-. done.
  - injection Hp as <-. unfold noteOn.
    cbn [build voices activeNotes]. rewrite dom_insert_L. f_equal.
    unfold retrigger. destruct (decide _); [| done].
    unfold noteOff. destruct (voices s !! noteNumber); [| done].
    cbn [voices activeNotes]. by rewrite dom_delete_L, Hs.
  - injection Hp as <-. unfold noteOff.
    destruct (voices s !! noteNumber); [| done].
    cbn [voices activeNotes]. by rewrite dom_delete_L, Hs.
  - injection Hp as <-. done.
  - injection Hp as <-. done.
  - unfold fire in Hp. destruct (timeouts s !! k) as [t |]; [| done].
    injection Hp as <-. destruct (action t); cbn [run_callback voices
      activeNotes]; [done | by rewrite dom_empty_L].
Qed.

Lemma tone_reachable_sync s : reachable s -> dom (voices s) = activeNotes s.
Proof.
  induction 1 as [| o s s' _ IH H].
  - cbn. by rewrite dom_empty_L.
  - by eapply tone_perform_sync.
Qed.

Lemma noteOff_without_voice n now s :
  voices s !! n = None -> noteOff n now s = s.
Proof. intros H. unfold noteOff. by rewrite H. Qed.

(** X19. The active notes are the notes that have a voice.  Releasing a
    note that is not active does nothing at all, and so does releasing a
    note a second time: no second release is triggered and no second
    disposal timer is registered. *)
Theorem tone_noteOff_once (s : state) (n : Z) (now now' : R) :
  reachable s ->
  (n ∈ activeNotes s <-> is_Some (voices s !! n))
  /\ ((n ∉ activeNotes s) -> noteOff n now s = s)
  /\ noteOff n now' (noteOff n now s) = noteOff n now s.
Proof.
  intros Hs%tone_reachable_sync.
  split; [by rewrite <- Hs, elem_of_dom |]. split.
  - intros Hn. apply noteOff_without_voice.
    apply not_elem_of_dom. by rewrite Hs.
  - apply noteOff_without_voice. unfold noteOff.
    destruct (voices s !! n) eqn:E; [| exact E].
    cbn [voices]. apply lookup_delete_eq.
Qed.

Lemma tone_noteOff_once_witness :
  reachable (noteOn 60 1 0 0 init)
  /\ noteOff 60 2 (noteOff 60 1 (noteOn 60 1 0 0 init))
     = noteOff 60 1 (noteOn 60 1 0 0 init).
Proof.
  assert (H : reachable (noteOn 60 1 0 0 init)).
  { apply (reachable_perform (NoteOn 60 1 0 0) init); [constructor | done]. }
  split; [exact H |].
  exact (proj2 (proj2 (tone_noteOff_once _ 60 1 2 H))).
Defined.

(** *** Registered voices are never disposed *)

Lemma existsb_bind_false {A B} (P : B -> bool) (g : A -> list B) (l : list A) :
  (forall x, x ∈ l -> existsb P (g x) = false) -> existsb P (l ≫= g) = false.
Proof.
  induction l as [| x l IH]; intros H; [reflexivity |].
  rewrite bind_cons, existsb_app, (H x) by apply list_elem_of_here.
  apply IH. intros y Hy. apply H. by apply list_elem_of_further.
Qed.

Lemma is_dispose_of_object o c : is_dispose_of o c = true -> call_object c = o.
Proof. destruct c; simpl; try done. by intros ->%Nat.eqb_eq. Qed.

Lemma not_disposed_fresh (calls : list call) o :
  Forall (fun c => (call_object c < o)%nat) calls ->
  existsb (is_dispose_of o) calls = false.
Proof. apply not_exists_fresh. intros c. apply is_dispose_of_object. Qed.

Lemma voice_calls_no_dispose p master n now b o :
  existsb (is_dispose_of o) (voice_calls p master n now b) = false.
Proof. unfold voice_calls. destruct (lfo_enabled p); reflexivity. Qed.

Lemma dispose_calls_spare o v :
  (o ∉ objects v) -> existsb (is_dispose_of o) (dispose_calls v) = false.
Proof.
  intros H. unfold objects in H.
  rewrite !not_elem_of_cons in H. destruct H as (H1 & H2 & H3 & _).
  cbn. apply Nat.eqb_neq in H1, H2, H3. by rewrite H1, H2, H3.
Qed.

Lemma objects_below bound v o :
  voice_below bound v -> o ∈ objects v -> (o < bound)%nat.
Proof.
  intros (H1 & H2 & H3). unfold objects.
  rewrite !elem_of_cons. intros [-> | [-> | [-> | H]]]; try done.
  by apply elem_of_nil in H.
Qed.

Lemma objects_new_voice b o :
  o ∈ objects (new_voice b) -> (b <= o)%nat.
Proof.
  unfold objects. cbn [new_voice synth filter lfo].
  rewrite !elem_of_cons. intros [-> | [-> | [-> | H]]]; try lia.
  by apply elem_of_nil in H.
Qed.

Lemma attacked_app s s' calls o :
  trace s' = trace s ++ calls -> attacked s o = true -> attacked s' o = true.
Proof.
  unfold attacked. intros -> H. by rewrite existsb_app, H.
Qed.

Lemma disposed_app s s' calls o :
  trace s' = trace s ++ calls ->
  existsb (is_dispose_of o) calls = false ->
  disposed s o = false -> disposed s' o = false.
Proof.
  unfold disposed. intros -> H1 H2. by rewrite existsb_app, H1, H2.
Qed.

(** A step that disposes nothing, registers no voice, and hands the
    voices it unregisters to disposal timers. *)
Lemma live_extend s s' calls :
  trace s' = trace s ++ calls ->
  masterGain s' = masterGain s ->
  (forall o, existsb (is_dispose_of o) calls = false) ->
  (forall n v, voices s' !! n = Some v -> voices s !! n = Some v) ->
  (forall t v, t ∈ timeouts s' -> action t = dispose_voice v ->
     (exists t0, t0 ∈ timeouts s /\ action t0 = dispose_voice v)
     \/ exists n, voices s !! n = Some v /\ voices s' !! n = None) ->
  live s -> live s'.
Proof.
  intros Htr Hm Hcalls Hsub Htimers (H1 & H2 & H3 & H4).
  split; [| split; [| split]].
  - intros n v Hv%Hsub. destruct (H1 n v Hv) as (Ha & Hb & Hc & Hd).
    rewrite Hm. repeat split; try done.
    + by eapply attacked_app.
    + intros o Ho. eapply disposed_app; [done | apply Hcalls | by apply Hd].
  - intros n n' v v' Hv%Hsub Hv'%Hsub. by eapply H2.
  - intros t v Ht Ha. rewrite Hm.
    destruct (Htimers t v Ht Ha) as [(t0 & Ht0 & Ha0) | (n & Hn & Hn')].
    + destruct (H3 t0 v Ht0 Ha0) as [Hb Hc]. split; [done |].
      intros n' v' Hv'%Hsub. by eapply Hc.
    + split; [by apply (H1 n v Hn) |].
      intros n' v' Hv'. eapply (H2 n n'); [done | by apply Hsub |].
      intros ->. congruence.
  - rewrite Hm. eapply disposed_app; [done | apply Hcalls | done].
Qed.

Lemma live_noteOff n now s : live s -> live (noteOff n now s).
Proof.
  intros H. unfold noteOff.
  destruct (voices s !! n) as [voice |] eqn:E; [| exact H].
  eapply (live_extend s _ (release_calls now voice)); try done.
  - cbn [voices]. intros m v [_ Hv]%lookup_delete_Some. exact Hv.
  - cbn [timeouts voices].
    intros t v [Ht | ->%list_elem_of_singleton]%elem_of_app Ha.
    + left. by exists t.
    + cbn [action] in Ha. injection Ha as <-. right. exists n.
      split; [done | apply lookup_delete_eq].
Qed.

Lemma live_build n now s : well_formed s -> live s -> live (build n now s).
Proof.
  intros (Ht & Hm & Hv & Hd) (H1 & H2 & H3 & H4).
  assert (Hnew : forall v o, voice_below (next_object s) v ->
            o ∈ objects v -> o ∈ objects (new_voice (next_object s)) -> False).
  { intros v o Hb Ho%(objects_below _ _ _ Hb) Ho'%objects_new_voice. lia. }
  assert (Htr : trace (build n now s)
                = trace s ++ voice_calls (params s) (masterGain s) n now
                                         (next_object s)) by reflexivity.
  split; [| split; [| split]].
  - intros m v. cbn [build voices masterGain].
    intros [[_ <-] | [_ Hmv]]%lookup_insert_Some.
    + split; [| split; [| split]].
      * unfold objects. cbn [new_voice synth filter lfo].
        apply NoDup_cons. split.
        { rewrite !not_elem_of_cons.
          repeat split; [lia | lia | apply not_elem_of_nil]. }
        apply NoDup_cons. split.
        { rewrite not_elem_of_cons. split; [lia | apply not_elem_of_nil]. }
        apply NoDup_singleton.
      * intros Ho%objects_new_voice. lia.
      * unfold attacked. rewrite Htr, existsb_app, voice_calls_attack.
        apply orb_true_r.
      * intros o Ho%objects_new_voice. unfold disposed.
        rewrite Htr, existsb_app, voice_calls_no_dispose, orb_false_r.
        apply not_disposed_fresh.
        eapply Forall_impl; [exact Ht |]. cbn. intros; lia.
    + destruct (H1 m v Hmv) as (Ha & Hb & Hc & He).
      repeat split; try done.
      * by eapply attacked_app.
      * intros o Ho. eapply disposed_app;
          [done | apply voice_calls_no_dispose | by apply He].
  - intros m m' v v'. cbn [build voices].
    intros [[<- <-] | [_ Hmv]]%lookup_insert_Some
           [[<- <-] | [_ Hmv']]%lookup_insert_Some Hne.
    + done.
    + intros o Ho Ho'. eapply Hnew; [by eapply Hv | done | done].
    + intros o Ho Ho'. eapply Hnew; [by eapply Hv | done | done].
    + by eapply H2.
  - intros t v Hin Ha. cbn [build timeouts] in Hin.
    destruct (H3 t v Hin Ha) as [Hb Hc]. split; [done |].
    intros m v'. cbn [build voices].
    intros [[_ <-] | [_ Hmv']]%lookup_insert_Some.
    + intros o Ho Ho'. eapply Hnew; [by eapply Hd | done | done].
    + by eapply Hc.
  - eapply disposed_app; [done | apply voice_calls_no_dispose | done].
Qed.

Lemma live_fire k s s' : live s -> fire k s = Some s' -> live s'.
Proof.
  intros (H1 & H2 & H3 & H4) Hf. unfold fire in Hf.
  destruct (timeouts s !! k) as [t |] eqn:E; [| done].
  injection Hf as <-.
  assert (Hsub : forall t', t' ∈ take k (timeouts s) ++ drop (S k) (timeouts s)
                   -> t' ∈ timeouts s).
  { intros t' [Hin | Hin]%elem_of_app;
      [by eapply subseteq_take | by eapply subseteq_drop]. }
  pose proof (list_elem_of_lookup_2 _ _ _ E) as Hin.
  destruct (action t) as [voice |] eqn:Ea; cbn [run_callback].
  - destruct (H3 t voice Hin Ea) as [Hb Hc].
    split; [| split; [| split]];
      cbn [voices masterGain timeouts trace].
    + intros n v Hv. destruct (H1 n v Hv) as (Ha' & Hb' & Hc' & Hd').
      repeat split; try done.
      * by eapply attacked_app.
      * intros o Ho. eapply disposed_app; [done | | by apply Hd'].
        apply dispose_calls_spare. intros Ho'. by eapply (Hc n v Hv o).
    + exact H2.
    + intros t' v Ht'%Hsub Ha'. by apply (H3 t' v).
    + eapply disposed_app; [done | by apply dispose_calls_spare | done].
  - split; [| split; [| split]];
      cbn [voices masterGain timeouts trace].
    + intros n v Hv. by apply lookup_empty_Some in Hv.
    + intros n n' v v' Hv. by apply lookup_empty_Some in Hv.
    + intros t' v Ht'%Hsub Ha'. split; [by apply (H3 t' v) |].
      intros n v' Hv'. by apply lookup_empty_Some in Hv'.
    + eapply disposed_app; [done | | done].
      apply existsb_bind_false. intros [n v] Hv%elem_of_map_to_list.
      apply dispose_calls_spare. by apply (H1 n v).
Qed.

Lemma live_perform o s s' :
  well_formed s -> live s -> perform o s = Some s' -> live s'.
Proof.
  intros Hwf H Hp. destruct o; cbn [perform] in Hp.
  - injection Hp as <-.
    eapply (live_extend s); [reflexivity | reflexivity | | done | | done].
    + intros o. apply existsb_bind_false. by intros [n v] _.
    + intros t v Ht Ha. left. by exists t.
  - injection Hp as <-. unfold noteOn. apply live_build.
    + by apply tone_retrigger_well_formed.
    + unfold retrigger. destruct (decide _); [| done]. by apply live_noteOff.
  - injection Hp as <-. by apply live_noteOff.
  - injection Hp as <-.
    eapply (live_extend s); [reflexivity | reflexivity | | done | | done].
    + by intros o.
    + intros t v Ht Ha. left. by exists t.
  - injection Hp as <-.
    eapply (live_extend s); [reflexivity | reflexivity | | done | | done].
    + intros o. apply existsb_bind_false. by intros [n v] _.
    + cbn [stopAllNotes timeouts].
      intros t v [Ht | ->%list_elem_of_singleton]%elem_of_app Ha;
        [| done]. left. by exists t.
  - by eapply live_fire.
Qed.

Lemma live_init : live init.
Proof.
  split; [| split; [| split]].
  - intros n v H. cbn [voices init] in H. by apply lookup_empty_Some in H.
  - intros n n' v v' H. cbn [voices init] in H.
    by apply lookup_empty_Some in H.
  - intros t v H. cbn [timeouts init] in H. by apply elem_of_nil in H.
  - reflexivity.
Qed.

Lemma reachable_live s : reachable s -> live s.
Proof.
  induction 1 as [| o s s' Hs IH H]; [apply live_init |].
  eapply live_perform; [by apply tone_reachable_well_formed | done | done].
Qed.

Lemma registered_live_attacked s n v :
  reachable s -> voices s !! n = Some v -> attacked s (synth v) = true.
Proof.
  intros Hs Hv. destruct (reachable_live s Hs) as (H1 & _).
  by apply (H1 n v Hv).
Qed.

(** X20. In every state the engine reaches, a registered voice is sound:
    its synth has been attacked, none of its three objects has been
    disposed, and neither has the master gain.  A disposal timer holds a
    voice that shares no object with a registered one, so that its firing
    leaves the registered voices as they are. *)
Theorem registered_voices_are_not_disposed (s : state) (n : Z) (v : VoiceNode) :
  reachable s -> voices s !! n = Some v ->
  attacked s (synth v) = true
  /\ disposed s (synth v) = false
  /\ disposed s (filter v) = false
  /\ disposed s (lfo v) = false
  /\ disposed s (masterGain s) = false
  /\ forall k t voice s',
       timeouts s !! k = Some t -> action t = dispose_voice voice ->
       fire k s = Some s' ->
       apart voice v
       /\ voices s' = voices s
       /\ trace s' = trace s ++ dispose_calls voice.
Proof.
  intros Hs Hv. destruct (reachable_live s Hs) as (H1 & H2 & H3 & H4).
  destruct (H1 n v Hv) as (_ & _ & Ha & Hd).
  split; [exact Ha |].
  split; [apply Hd, list_elem_of_here |].
  split; [apply Hd, list_elem_of_further, list_elem_of_here |].
  split; [apply Hd; do 2 apply list_elem_of_further; apply list_elem_of_here |].
  split; [exact H4 |].
  intros k t voice s' Hk Ht Hf.
  split; [by eapply H3; [eapply list_elem_of_lookup_2 | |] |].
  unfold fire in Hf. rewrite Hk in Hf. injection Hf as <-.
  rewrite Ht. done.
Qed.

Lemma registered_voices_are_not_disposed_witness :
  let s := noteOn 60 1 0 1 (noteOff 60 1 (noteOn 60 1 0 0 init)) in
  reachable s /\ voices s !! 60 = Some (new_voice 4)
  /\ disposed s 4 = false.
Proof.
  intros s.
  assert (H : reachable s).
  { apply (reachable_perform (NoteOn 60 1 0 1)
             (noteOff 60 1 (noteOn 60 1 0 0 init))); [| done].
    apply (reachable_perform (NoteOff 60 1) (noteOn 60 1 0 0 init));
      [| done].
    apply (reachable_perform (NoteOn 60 1 0 0) init); [constructor | done]. }
  assert (Hv : voices s !! 60 = Some (new_voice 4)).
  { unfold s. apply tone_noteOn_registers. }
  split; [exact H |]. split; [exact Hv |].
  exact (proj1 (proj2 (registered_voices_are_not_disposed s 60 _ H Hv))).
Defined.

(** *** Parameter updates and sounding voices *)

Lemma filter_bind {A B} (P : B -> bool) (g : A -> list B) (l : list A) :
  List.filter P (l ≫= g) = l ≫= (fun x => List.filter P (g x)).
Proof.
  induction l as [| x l IH]; [reflexivity |].
  by rewrite !bind_cons, List.filter_app, IH.
Qed.

Lemma bind_all_nil {A B} (g : A -> list B) (l : list A) :
  (forall y, y ∈ l -> g y = []) -> l ≫= g = [].
Proof.
  induction l as [| y l IH]; intros H; [reflexivity |].
  rewrite bind_cons, (H y) by apply list_elem_of_here.
  apply IH. intros z Hz. apply H. by apply list_elem_of_further.
Qed.

Lemma bind_single {A B} (g : A -> list B) (l : list A) (x : A) :
  NoDup l -> x ∈ l -> (forall y, y ∈ l -> y <> x -> g y = []) ->
  l ≫= g = g x.
Proof.
  induction l as [| y l IH]; intros Hnd Hx Hg.
  - by apply elem_of_nil in Hx.
  - apply NoDup_cons in Hnd as [Hy Hnd]. rewrite bind_cons.
    apply elem_of_cons in Hx as [-> | Hx].
    + rewrite bind_all_nil; [by rewrite app_nil_r |].
      intros z Hz. apply Hg; [by apply list_elem_of_further |].
      intros ->. done.
    + rewrite (Hg y); [| apply list_elem_of_here | by intros ->].
      apply IH; [done | done |].
      intros z Hz. apply Hg. by apply list_elem_of_further.
Qed.

Lemma length_bind_const {A B} (g : A -> list B) (l : list A) (k : nat) :
  (forall x, length (g x) = k) -> length (l ≫= g) = (k * length l)%nat.
Proof.
  intros H. induction l as [| x l IH]; [cbn; lia |].
  rewrite bind_cons, length_app, H, IH. cbn [length]. lia.
Qed.

Lemma eqb_apart v v' o o' :
  apart v v' -> o ∈ objects v -> o' ∈ objects v' -> Nat.eqb o' o = false.
Proof.
  intros H Ho Ho'. apply Nat.eqb_neq. intros ->. by eapply H.
Qed.

(** X21. [updateParams] reaches every sounding voice, and of a voice its
    filter and its LFO only: the filter is ramped to the new cutoff and
    resonance and given the new type, the LFO is ramped to the new rate,
    and no call is made on the synth, whose oscillator type and envelope
    stay as they were when the note began.  The engine makes four calls
    for each registered voice. *)
Theorem updateParams_reaches_filter_and_lfo
    (s : state) (upd : PartialParams) (n : Z) (v : VoiceNode) :
  reachable s -> voices s !! n = Some v ->
  let p := merge_params (params s) upd in
  exists calls,
    trace (updateParams upd s) = trace s ++ calls
    /\ calls_on (filter v) calls
       = [ rampTo (filter v) s_frequency (cutoff p) 0.1;
           rampTo (filter v) s_Q (resonance p) 0.1;
           set_filter_type (filter v) (filterType p) ]
    /\ calls_on (lfo v) calls
       = [ rampTo (lfo v) s_frequency (lfoRate p) 0.1 ]
    /\ calls_on (synth v) calls = []
    /\ length calls = (4 * size (voices s))%nat
    /\ voices (updateParams upd s) = voices s.
Proof.
  intros Hs Hv p. destruct (reachable_live s Hs) as (H1 & H2 & _ & _).
  destruct (H1 n v Hv) as (Hnd & _ & _ & _).
  unfold objects in Hnd.
  apply NoDup_cons in Hnd as [Hsf Hnd]. apply NoDup_cons in Hnd as [Hfl _].
  rewrite !not_elem_of_cons in Hsf. destruct Hsf as (Hsf & Hsl & _).
  rewrite not_elem_of_cons in Hfl. destruct Hfl as [Hfl _].
  eexists. split; [reflexivity |].
  assert (Hin : (n, v) ∈ map_to_list (voices s))
    by (by apply elem_of_map_to_list).
  assert (Hother : forall o, o ∈ objects v ->
            forall y, y ∈ map_to_list (voices s) -> y <> (n, v) ->
            calls_on o (updateVoiceParams_calls p y.2) = []).
  { intros o Ho [n' v'] Hy%elem_of_map_to_list Hne.
    assert (n' <> n) as Hn' by (intros ->; congruence).
    pose proof (H2 n n' v v' Hv Hy (not_eq_sym Hn')) as Hap.
    unfold calls_on, updateVoiceParams_calls. cbn [snd List.filter call_object].
    rewrite (eqb_apart v v' o (filter v') Hap Ho)
      by (apply list_elem_of_further, list_elem_of_here).
    rewrite (eqb_apart v v' o (lfo v') Hap Ho)
      by (do 2 apply list_elem_of_further; apply list_elem_of_here).
    reflexivity. }
  unfold calls_on in *.
  rewrite !filter_bind.
  rewrite (bind_single _ _ (n, v) (NoDup_map_to_list _) Hin)
    by (apply Hother, list_elem_of_further, list_elem_of_here).
  rewrite (bind_single _ _ (n, v) (NoDup_map_to_list _) Hin)
    by (apply Hother; do 2 apply list_elem_of_further;
        apply list_elem_of_here).
  rewrite (bind_single _ _ (n, v) (NoDup_map_to_list _) Hin)
    by (apply Hother, list_elem_of_here).
  unfold updateVoiceParams_calls. cbn [snd List.filter call_object].
  rewrite !Nat.eqb_refl.
  assert (Nat.eqb (lfo v) (filter v) = false) as -> by (by apply Nat.eqb_neq).
  assert (Nat.eqb (filter v) (lfo v) = false) as ->
    by (apply Nat.eqb_neq; congruence).
  assert (Nat.eqb (filter v) (synth v) = false) as ->
    by (apply Nat.eqb_neq; congruence).
  assert (Nat.eqb (lfo v) (synth v) = false) as ->
    by (apply Nat.eqb_neq; congruence).
  repeat split.
  rewrite (length_bind_const _ _ 4) by done.
  by rewrite length_map_to_list.
Qed.

Lemma updateParams_reaches_filter_and_lfo_witness :
  reachable (noteOn 60 1 0 0 init)
  /\ voices (noteOn 60 1 0 0 init) !! 60 = Some (new_voice 1)
  /\ voices (updateParams (only_lfoAmount 1) (noteOn 60 1 0 0 init))
     = voices (noteOn 60 1 0 0 init).
Proof.
  assert (H : reachable (noteOn 60 1 0 0 init)).
  { apply (reachable_perform (NoteOn 60 1 0 0) init); [constructor | done]. }
  assert (Hv : voices (noteOn 60 1 0 0 init) !! 60 = Some (new_voice 1))
    by apply tone_noteOn_registers.
  split; [exact H |]. split; [exact Hv |].
  destruct (updateParams_reaches_filter_and_lfo _ (only_lfoAmount 1) 60 _ H Hv)
    as (calls & _ & _ & _ & _ & _ & Hvoices).
  exact Hvoices.
Defined.

(** X22. A note that is started after [stopAllNotes], before the timer
    of [stopAllNotes] fires, is taken away by that timer: its voice is
    disposed without having been released, no note is registered any
    more, and a later [noteOff] for the note does nothing. *)
Theorem stop_timer_cuts_later_note
    (s : state) (n : Z) (v sl now now' : R) :
  reachable s ->
  let s1 := stopAllNotes now s in
  let s2 := noteOn n v sl now' s1 in
  let voice := new_voice (next_object s) in
  voices s2 !! n = Some voice
  /\ attacked s2 (synth voice) = true
  /\ exists s3,
       fire (length (timeouts s)) s2 = Some s3
       /\ voices s3 = ∅
       /\ activeNotes s3 = ∅
       /\ released s3 (synth voice) = false
       /\ disposed s3 (synth voice) = true
       /\ forall now'', noteOff n now'' s3 = s3.
Proof.
  intros Hs s1 s2 voice.
  destruct (stopAllNotes_timer_takes_later_voices n v sl now now' s)
    as (Hv & s3 & Hf & Hv3 & Ha3 & Hd3).
  fold s1 s2 voice in Hv, Hf, Hd3.
  assert (Hs1 : reachable s1)
    by (by apply (reachable_perform (StopAllNotes now) s)).
  assert (Hs2 : reachable s2)
    by (by apply (reachable_perform (NoteOn n v sl now') s1)).
  split; [exact Hv |].
  split; [by eapply registered_live_attacked |].
  exists s3. split; [exact Hf |]. split; [exact Hv3 |]. split; [exact Ha3 |].
  split; [| split; [exact Hd3 |]].
  - pose proof (tone_retrigger_well_formed n now' s1
                  (tone_reachable_well_formed s1 Hs1)) as (Ht & _).
    rewrite retrigger_next_object in Ht.
    assert (Hr2 : released s2 (synth voice) = false).
    { unfold released, s2. rewrite tone_noteOn_trace, existsb_app.
      rewrite voice_calls_no_release, orb_false_r.
      by apply tone_not_released_fresh. }
    clearbody s2. unfold fire in Hf.
    destruct (timeouts s2 !! length (timeouts s)) as [t |]; [| done].
    injection Hf as <-. unfold released in *.
    destruct (action t); cbn [run_callback trace];
      rewrite existsb_app, Hr2; cbn [orb]; [reflexivity |].
    apply existsb_bind_false. by intros [m vm] _.
  - intros now''. apply noteOff_without_voice. by rewrite Hv3.
Qed.

Lemma stop_timer_cuts_later_note_witness :
  reachable (noteOn 48 1 0 0 init)
  /\ exists s3,
       fire 0 (noteOn 60 1 0 1.1 (stopAllNotes 1 (noteOn 48 1 0 0 init)))
       = Some s3
       /\ voices s3 = ∅ /\ released s3 4 = false /\ disposed s3 4 = true.
Proof.
  assert (H : reachable (noteOn 48 1 0 0 init)).
  { apply (reachable_perform (NoteOn 48 1 0 0) init); [constructor | done]. }
  split; [exact H |].
  destruct (stop_timer_cuts_later_note _ 60 1 0 1 1.1 H)
    as (_ & _ & s3 & Hf & Hv & _ & Hr & Hd & _).
  by exists s3.
Defined.

End ToneLaws.

(** ** Parameters and master volume in the two engines *)

Module EngineLaws.

Lemma tone_noteOff_rest (s s' : Tone.state) (n : Z) (now : R) :
  Unused.tone_rest s = Unused.tone_rest s' ->
  release (Tone.params s) = release (Tone.params s') ->
  Unused.tone_rest (Tone.noteOff n now s)
  = Unused.tone_rest (Tone.noteOff n now s').
Proof.
  destruct s, s'. unfold Unused.tone_rest, Tone.noteOff.
  cbn [Tone.next_object Tone.trace Tone.voices Tone.masterGain
       Tone.activeNotes Tone.timeouts Tone.params].
  intros [= -> -> -> -> -> ->] ->.
  by destruct (_ !! n).
Qed.

Lemma webaudio_noteOff_rest (s s' : WebAudio.state) (n : Z) (now : R) :
  Unused.webaudio_rest s = Unused.webaudio_rest s' ->
  release (WebAudio.params s) = release (WebAudio.params s') ->
  Unused.webaudio_rest (WebAudio.noteOff n now s)
  = Unused.webaudio_rest (WebAudio.noteOff n now s').
Proof.
  destruct s, s'. unfold Unused.webaudio_rest, WebAudio.noteOff,
    WebAudio.noteOff_calls.
  cbn [WebAudio.next_node WebAudio.trace WebAudio.oscillators WebAudio.gains
       WebAudio.filters WebAudio.lfos WebAudio.ringModOscillators
       WebAudio.ringModGains WebAudio.masterGain WebAudio.activeNotes
       WebAudio.timeouts WebAudio.params].
  by intros [= -> -> -> -> -> -> -> -> -> -> ->] ->.
Qed.

(** X23. Some parameters are stored and never read.  In the Tone.js
    engine a change of [frequency], [volume], [detuneAmount],
    [ringModAmount], [wetness] and [coarseness] makes the calls an empty
    update makes, and a note played afterwards is built, released and
    disposed by the same calls and timers as without the change.  The
    Web Audio engine does not read [frequency], [wetness] and
    [coarseness]. *)
Theorem parameters_without_effect
    (f vol det ring wet coarse : R) (t : Tone.state) (w : WebAudio.state)
    (n : Z) (v sl now now' : R) :
  let t' := Tone.updateParams (Unused.by_tone f vol det ring wet coarse) t in
  let t0 := Tone.updateParams Unused.nothing t in
  let w' := WebAudio.updateParams (Unused.by_both f wet coarse) w in
  Unused.tone_rest t' = Unused.tone_rest t0
  /\ Unused.tone_rest (Tone.noteOn n v sl now t')
     = Unused.tone_rest (Tone.noteOn n v sl now t0)
  /\ Unused.tone_rest (Tone.noteOff n now' (Tone.noteOn n v sl now t'))
     = Unused.tone_rest
         (Tone.noteOff n now' (Tone.noteOn n v sl now t0))
  /\ Unused.webaudio_rest w' = Unused.webaudio_rest w
  /\ Unused.webaudio_rest (WebAudio.noteOn n v sl now w')
     = Unused.webaudio_rest (WebAudio.noteOn n v sl now w)
  /\ Unused.webaudio_rest
       (WebAudio.noteOff n now' (WebAudio.noteOn n v sl now w'))
     = Unused.webaudio_rest
         (WebAudio.noteOff n now' (WebAudio.noteOn n v sl now w)).
Proof.
  intros t' t0 w'.
  split; [reflexivity |].
  assert (Ht : Unused.tone_rest (Tone.noteOn n v sl now t')
               = Unused.tone_rest (Tone.noteOn n v sl now t0)).
  { unfold Unused.tone_rest, Tone.noteOn, Tone.retrigger, Tone.noteOff,
      t', t0.
    cbn [Tone.updateParams Tone.activeNotes Tone.voices].
    destruct (decide (n ∈ Tone.activeNotes t));
      [destruct (Tone.voices t !! n) |];
      reflexivity. }
  split; [exact Ht |].
  split.
  { apply tone_noteOff_rest; [exact Ht |].
    by rewrite !ToneFacts.tone_noteOn_params. }
  split; [reflexivity |].
  assert (Hw : Unused.webaudio_rest (WebAudio.noteOn n v sl now w')
               = Unused.webaudio_rest (WebAudio.noteOn n v sl now w)).
  { unfold Unused.webaudio_rest, WebAudio.noteOn, WebAudio.retrigger,
      WebAudio.noteOff, WebAudio.noteOff_calls, w'.
    cbn [WebAudio.updateParams WebAudio.activeNotes].
    destruct (decide (n ∈ WebAudio.activeNotes w));
      reflexivity. }
  split; [exact Hw |].
  apply webaudio_noteOff_rest; [exact Hw |].
  by rewrite !WebAudioFacts.webaudio_noteOn_params.
Qed.

(** X24. Both engines cut the master volume they are given to the range
    from 0 to 1 before it reaches the master gain: a value in the range
    passes unchanged, a smaller one becomes 0, a larger one 1.  The Web
    Audio engine sets the gain at once, the Tone.js engine ramps to it
    over 0.1 seconds; no voice is touched. *)
Theorem master_volume_is_clamped
    (volume : R) (w : WebAudio.state) (t : Tone.state) :
  exists c : R,
    WebAudio.trace (WebAudio.setMasterVolume volume w)
    = WebAudio.trace w
      ++ [ WebAudio.set_value (WebAudio.masterGain w) WebAudio.p_gain c ]
    /\ Tone.trace (Tone.setMasterVolume volume t)
       = Tone.trace t ++ [ Tone.rampTo (Tone.masterGain t) Tone.s_gain c 0.1 ]
    /\ (0 <= c <= 1)%R
    /\ ((0 <= volume <= 1)%R -> c = volume)
    /\ ((volume <= 0)%R -> c = 0%R)
    /\ ((1 <= volume)%R -> c = 1%R)
    /\ Tone.voices (Tone.setMasterVolume volume t) = Tone.voices t
    /\ WebAudio.gains (WebAudio.setMasterVolume volume w) = WebAudio.gains w.
Proof.
  exists (Rmax 0 (Rmin 1 volume)).
  split; [reflexivity |]. split; [reflexivity |].
  split; [apply StoreLaws.clamp_in_range; lra |].
  unfold Rmax, Rmin.
  repeat split; try intros H;
    destruct (Rle_dec 1 volume), (Rle_dec 0 1), (Rle_dec 0 volume); lra.
Qed.

End EngineLaws.

(** ** The component between events *)

Module AppLaws.
Import Store App AppFacts.

(** *** Pending note-offs *)

Lemma stopAllAudio_pending now w : pendingNoteOffsRef (stopAllAudio now w) = ∅.
Proof.
  destruct (stopAllAudio_frame now w) as (Hc & _).
  by apply clock_of_eq in Hc as (_ & -> & _).
Qed.

Lemma stop_if_running_pending now w :
  pendingNoteOffsRef w = ∅ -> pendingNoteOffsRef (stop_if_running now w) = ∅.
Proof.
  intros H. unfold stop_if_running.
  destruct (_ && _); [apply stopAllAudio_pending | exact H].
Qed.

Lemma callback_pending now e w w0 :
  (forall id, e <> Tick id) -> callback now e w = Some w0 ->
  pendingNoteOffsRef w = ∅ -> pendingNoteOffsRef w0 = ∅.
Proof.
  intros Hne H Hp. destruct e; cbn [callback] in H;
    try (by destruct (Hne id)).
  - by injection H as <-.
  - injection H as <-. unfold handleKeyDown.
    destruct (synthRef w); [| done]. by destruct (decide _).
  - injection H as <-. unfold handleKeyUp.
    destruct (synthRef w); [| done]. by destruct (decide _).
  - injection H as <-. unfold handleClearSequencer. world_simpl.
    by apply stop_if_running_pending.
  - injection H as <-. unfold handlePresetChange. world_simpl.
    apply stopAllAudio_pending.
  - injection H as <-. unfold handleRandomizeSequencer. world_simpl.
    by apply stop_if_running_pending.
  - by injection H as <-.
  - by injection H as <-.
  - by injection H as <-.
  - unfold noteOff_fired in H.
    destruct (timers w !! id) as [[p ns | dl n] |]; try done.
    injection H as <-. world_simpl. rewrite Hp. apply empty_difference_L.
  - unfold synth_timer_fired in H. destruct (synthRef w); [| done].
    destruct (Tone.fire k _); [| done]. by injection H as <-.
Qed.

Lemma commit_pending now w :
  pendingNoteOffsRef w = ∅ -> pendingNoteOffsRef (commit now w) = ∅.
Proof.
  intros Hp. unfold commit.
  destruct (match playback_deps w with
            | Some d' => deps_eqb d' (deps_of (store w)) | None => false end);
    [exact Hp |].
  set (w1 := with_stepsRef w _).
  set (w2 := if playback_cleanup w1 then playback_cleanup_fn w1 else w1).
  assert (pendingNoteOffsRef w2 = ∅) as Hp2.
  { unfold w2. destruct (playback_cleanup w1); [| exact Hp].
    reflexivity. }
  cbn [pendingNoteOffsRef with_playback]. unfold playback_effect.
  destruct (negb (isSequencerRunning (store w2)));
    cbn [pendingNoteOffsRef with_playback with_timers]; [| exact Hp2].
  apply stopAllAudio_pending.
Qed.

Lemma reachable_pending w : reachable w -> pendingNoteOffsRef w = ∅.
Proof.
  induction 1 as [now | now e w w' Hw IH H].
  - unfold mounted. by apply commit_pending.
  - assert ((exists id, e = Tick id) \/ forall id, e <> Tick id)
      as [[id ->] | Hne].
    { destruct e; try (right; intros; discriminate). left. by eexists. }
    + by destruct (tick_commit_cancels_note_offs now id w w' Hw H).
    + unfold handle in H.
      destruct (callback now e w) as [w0 |] eqn:Ec; [| done].
      injection H as <-. apply commit_pending.
      by eapply callback_pending.
Qed.

(** X25. Between two events no note-off timer is pending: the render
    that follows a tick runs the cleanup of the playback effect, the
    current step being one of its dependencies, and the cleanup cancels
    the note-off the tick has just registered.  So the callback of a
    note-off timer never runs, and a note the sequencer plays is released
    only by a later [noteOn] of the same note or by stopping. *)
Theorem note_offs_do_not_outlive_the_render (w : world) :
  reachable w ->
  pendingNoteOffsRef w = ∅
  /\ (forall id d n, timers w !! id <> Some (noteOff_timeout d n))
  /\ forall now id, handle now (NoteOffFires id) w = None.
Proof.
  intros Hw. pose proof (reachable_pending w Hw) as Hp.
  destruct (reachable_invariant w Hw) as (_ & ((_ & Hb & _) & _) & _).
  assert (Hno : forall id d n, timers w !! id <> Some (noteOff_timeout d n)).
  { intros id d n Hin. apply Hb in Hin. rewrite Hp in Hin.
    by apply not_elem_of_empty in Hin. }
  split; [exact Hp |]. split; [exact Hno |].
  intros now id. unfold handle. cbn [callback]. unfold noteOff_fired.
  destruct (timers w !! id) as [[p ns | dl n] |] eqn:E; try done.
  by destruct (Hno id dl n).
Qed.

Lemma note_offs_do_not_outlive_the_render_witness :
  reachable (commit 0 (onTogglePlay (mounted 0)))
  /\ pendingNoteOffsRef (commit 0 (onTogglePlay (mounted 0))) = ∅.
Proof.
  pose proof (proj1 (started_reachable 0)) as H.
  split; [exact H |].
  exact (proj1 (note_offs_do_not_outlive_the_render _ H)).
Defined.

(** *** Keys *)

Lemma release_keys_activeKeys now keys w :
  activeKeys (store (foldl (release_key now) w keys))
  = activeKeys (store w) ∖ list_to_set keys.
Proof.
  revert w. induction keys as [| key keys IH]; intros w.
  - cbn. by rewrite difference_empty_L.
  - cbn [foldl]. rewrite IH. unfold release_key.
    cbn [store with_store with_synth activeKeys setActiveKey list_to_set].
    apply set_eq. intros x.
    rewrite !elem_of_difference, elem_of_union, elem_of_singleton. tauto.
Qed.

Lemma stopAllAudio_activeKeys now w :
  activeKeys (store (stopAllAudio now w)) = ∅.
Proof.
  unfold stopAllAudio. rewrite release_keys_activeKeys.
  cbn [store with_synth clear_pending with_timers].
  rewrite list_to_set_elements_L. apply difference_diag_L.
Qed.

Lemma commit_not_running now w d :
  playback_deps w = Some d -> d <> deps_of (store w) ->
  isSequencerRunning (store w) = false ->
  activeKeys (store (commit now w)) = ∅.
Proof.
  intros Hd Hne Hrun. unfold commit. rewrite Hd.
  destruct (deps_eqb d (deps_of (store w))) eqn:E;
    [by apply deps_eqb_spec in E |].
  set (w1 := with_stepsRef w _).
  set (w2 := if playback_cleanup w1 then playback_cleanup_fn w1 else w1).
  assert (store w2 = store w) as Hs2.
  { unfold w2. destruct (playback_cleanup w1); [| done].
    unfold playback_cleanup_fn, clear_interval, clear_pending.
    by destruct (sequencerIntervalRef w1). }
  cbn [store with_playback]. unfold playback_effect.
  rewrite Hs2, Hrun. cbn [negb store with_playback].
  apply stopAllAudio_activeKeys.
Qed.

(** X26. Stopping releases every key that is held: after
    [stopAllAudio], and so after the stop button and after a change of
    preset, no key is active in the store and no note-off is pending. *)
Theorem stopping_releases_every_key
    (now : R) (presetName : string) (w : world) :
  reachable w -> isSequencerRunning (store w) = true ->
  activeKeys (store (stop now w)) = ∅
  /\ isSequencerRunning (store (stop now w)) = false
  /\ activeKeys (store (stopAllAudio now w)) = ∅
  /\ pendingNoteOffsRef (stopAllAudio now w) = ∅
  /\ activeKeys (store (handlePresetChange now presetName w)) = ∅.
Proof.
  intros Hw Hrun. destruct (reachable_invariant w Hw) as (Hd & _).
  split; [| split; [| split; [| split]]].
  - unfold stop.
    apply (commit_not_running now _ (deps_of (store w)));
      [exact Hd | | by cbn; rewrite Hrun].
    unfold deps_of, onTogglePlay. cbn [store with_store isSequencerRunning
      setIsSequencerRunning]. rewrite Hrun. intros [=].
  - unfold stop.
    pose proof (commit_sequencer now (onTogglePlay w))
      as (-> & _)%sequencer_of_eq.
    cbn. by rewrite Hrun.
  - apply stopAllAudio_activeKeys.
  - apply stopAllAudio_pending.
  - unfold handlePresetChange. cbn [store with_store].
    unfold loadPreset. destruct (PRESETS !! presetName);
      cbn [activeKeys]; apply stopAllAudio_activeKeys.
Qed.

Lemma stopping_releases_every_key_witness :
  let w := commit 0 (onTogglePlay (mounted 0)) in
  reachable w /\ isSequencerRunning (store w) = true
  /\ activeKeys (store (stop 1 w)) = ∅.
Proof.
  intros w. destruct (started_reachable 0) as [H1 H2].
  split; [exact H1 |]. split; [exact H2 |].
  exact (proj1 (stopping_releases_every_key 1 "acidTechno" w H1 H2)).
Defined.

(** *** The period of the interval *)

Lemma tick_store now id w w0 :
  tick now id w = Some w0 ->
  exists p ns, timers w !! id = Some (interval p ns)
    /\ store w0 = setCurrentStep (store w) (Z.rem (ns + 1) 16).
Proof.
  unfold tick. destruct (timers w !! id) as [[p ns | dl n] |]; try done.
  intros H. exists p, ns. split; [done |].
  cbn [sequencerStepsRef synthRef with_store with_timers] in H.
  destruct (array_get _ _) as [st |]; [| by injection H as <-].
  destruct (synthRef w); [| by injection H as <-].
  destruct (_ && _); by injection H as <-.
Qed.






(** *** Successive ticks *)

Lemma tick_step now id w w' :
  reachable w -> handle now (Tick id) w = Some w' ->
  isSequencerRunning (store w) = true
  /\ sequencer_of (store w')
     = (true, tempo (store w), (currentStep (store w) + 1) mod 16,
        sequencerSteps (store w)).
Proof.
  intros Hw H. pose proof (reachable_invariant w Hw) as Hinv.
  unfold handle in H. cbn [callback] in H.
  destruct (tick now id w) as [w0 |] eqn:Et; [| done]. injection H as <-.
  apply tick_store in Et as (p & ns & Hti & Hst).
  destruct (isSequencerRunning (store w)) eqn:Hrun.
  - split; [done |].
    destruct (running_clock w Hinv Hrun) as (id0 & sy & Hi & _ & Hti0 & Hu).
    pose proof (Hu id p ns Hti) as ->.
    rewrite Hti0 in Hti. injection Hti as _ <-.
    rewrite commit_sequencer, Hst. unfold sequencer_of.
    cbn [isSequencerRunning tempo currentStep sequencerSteps setCurrentStep].
    destruct Hinv as (_ & _ & _ & Hc & _).
    rewrite Hrun, (proj1 (next_step_in_pattern _ Hc)). reflexivity.
  - destruct (stopped_clock w Hinv Hrun) as (Hno & _).
    rewrite Hno in Hti. by apply lookup_empty_Some in Hti.
Qed.

Lemma tick_enabled now w :
  reachable w -> isSequencerRunning (store w) = true ->
  exists id w', handle now (Tick id) w = Some w'.
Proof.
  intros Hw Hrun. pose proof (reachable_invariant w Hw) as Hinv.
  destruct (running_clock w Hinv Hrun) as (id & sy & _ & _ & Hti & _).
  exists id. unfold handle. cbn [callback]. unfold tick. rewrite Hti.
  destruct (array_get _ _) as [st |]; [| by eexists].
  cbn [synthRef with_store with_timers].
  destruct (synthRef w); [| by eexists].
  destruct (_ && _); by eexists.
Qed.

Lemma ticked_reachable k w w' :
  reachable w -> Playback.ticked k w w' -> reachable w'.
Proof.
  intros Hw. induction 1 as [| k now id w w1 w2 _ IH H]; [done |].
  eapply reachable_handle; [by apply IH | exact H].
Qed.

(** X28. Ticks add up modulo 16: [k] ticks, each with its render, move
    the current step [k] places round the pattern, so that sixteen ticks
    bring it back to where it was; they change neither the tempo nor the
    steps, and while the sequencer runs a next tick can always follow. *)
Theorem ticks_go_round_the_pattern (k : nat) (w w' : world) :
  reachable w -> Playback.ticked k w w' ->
  currentStep (store w')
  = (currentStep (store w) + Z.of_nat k) mod 16
  /\ (k = 16%nat -> currentStep (store w') = currentStep (store w))
  /\ tempo (store w') = tempo (store w)
  /\ sequencerSteps (store w') = sequencerSteps (store w)
  /\ isSequencerRunning (store w') = isSequencerRunning (store w)
  /\ (isSequencerRunning (store w) = true ->
      forall now, exists id w'',
        handle now (Tick id) w' = Some w''
        /\ Playback.ticked (S k) w w'').
Proof.
  intros Hw Hk.
  assert (Hc : 0 <= currentStep (store w) < 16)
    by apply (reachable_invariant w Hw).
  assert (Hmain : currentStep (store w')
                  = (currentStep (store w) + Z.of_nat k) mod 16
                  /\ tempo (store w') = tempo (store w)
                  /\ sequencerSteps (store w') = sequencerSteps (store w)
                  /\ isSequencerRunning (store w')
                     = isSequencerRunning (store w)).
  { induction Hk as [| k now id w w1 w2 Hk IH H].
    - rewrite Z.add_0_r, Z.mod_small by done. done.
    - destruct (IH Hw Hc) as (IH1 & IH2 & IH3 & IH4).
      destruct (tick_step now id w1 w2 (ticked_reachable _ _ _ Hw Hk) H)
        as (Hrun & Heq).
      unfold sequencer_of in Heq. injection Heq as Hr Ht Hs Hp.
      rewrite Hs, Ht, Hp, Hr, IH1, IH2, IH3, <- IH4, Hrun.
      split; [| done].
      rewrite Zplus_mod_idemp_l. f_equal. lia. }
  destruct Hmain as (H1 & H2 & H3 & H4).
  split; [exact H1 |]. split.
  { intros ->. rewrite H1.
    replace (currentStep (store w) + Z.of_nat 16)
      with (currentStep (store w) + 1 * 16) by lia.
    rewrite Z_mod_plus_full. by apply Z.mod_small. }
  split; [exact H2 |]. split; [exact H3 |]. split; [exact H4 |].
  intros Hrun now.
  destruct (tick_enabled now w' (ticked_reachable _ _ _ Hw Hk))
    as (id & w'' & H); [by rewrite H4 |].
  exists id, w''. split; [exact H |]. by eapply Playback.ticked_S.
Qed.

Lemma ticks_go_round_the_pattern_witness :
  let w := commit 0 (onTogglePlay (mounted 0)) in
  reachable w /\ Playback.ticked 0 w w
  /\ exists id w', handle 0 (Tick id) w = Some w' /\ Playback.ticked 1 w w'.
Proof.
  intros w. destruct (started_reachable 0) as [H1 H2].
  assert (H0 : Playback.ticked 0 w w) by constructor.
  split; [exact H1 |]. split; [exact H0 |].
  exact (proj2 (proj2 (proj2 (proj2 (proj2
           (ticks_go_round_the_pattern 0 w w H1 H0))))) H2 0%R).
Defined.

(** *** A key pressed and released *)

Lemma with_stepsRef_same w :
  with_stepsRef w (sequencerStepsRef w) = w.
Proof. by destruct w. Qed.

Lemma handle_key now e w w0 :
  reachable w -> callback now e w = Some w0 ->
  sequencer_of (store w0) = sequencer_of (store w) ->
  sequencerStepsRef w0 = sequencerStepsRef w ->
  playback_deps w0 = playback_deps w ->
  handle now e w = Some w0.
Proof.
  intros Hw Hc Hs Hr Hd.
  destruct (reachable_invariant w Hw) as (Hdeps & _ & _ & _ & Href).
  unfold handle. rewrite Hc. cbn [fmap option_fmap option_map]. f_equal.
  rewrite commit_unchanged
    by (by rewrite Hd, Hdeps, (sequencer_of_deps _ _ Hs)).
  apply sequencer_of_eq in Hs as (_ & _ & _ & ->).
  rewrite <- Href, <- Hr. apply with_stepsRef_same.
Qed.

(** X29. A key that is not held, pressed and then released: the press
    starts the note with velocity 1 and no slide and marks the key, the
    release calls [noteOff] and unmarks it, so that the set of held keys
    is as before and the engine has no voice for the note; the timers of
    the component are not touched.  Pressing a key that is already held
    changes nothing, and so does releasing one that is not. *)
Theorem key_press_and_release (now now' : R) (n : Z) (w : world) :
  reachable w -> (n ∉ activeKeys (store w)) ->
  exists synth w1 w2,
    synthRef w = Some synth
    /\ handle now (KeyDown n) w = Some w1
    /\ synthRef w1 = Some (Tone.noteOn n 1 0 now synth)
    /\ activeKeys (store w1) = {[ n ]} ∪ activeKeys (store w)
    /\ handle now' (KeyDown n) w1 = Some w1
    /\ handle now' (KeyUp n) w = Some w
    /\ handle now' (KeyUp n) w1 = Some w2
    /\ synthRef w2
       = Some (Tone.noteOff n now' (Tone.noteOn n 1 0 now synth))
    /\ activeKeys (store w2) = activeKeys (store w)
    /\ Tone.voices (Tone.noteOff n now' (Tone.noteOn n 1 0 now synth)) !! n
       = None
    /\ timers w2 = timers w.
Proof.
  intros Hw Hn.
  destruct (reachable_invariant w Hw) as (_ & _ & [synth Hsy] & _).
  set (w1 := with_store
               (with_synth w (Some (Tone.noteOn n 1 0 now synth)))
               (setActiveKey (store w) n true)).
  set (w2 := with_store
               (with_synth w1
                  (Some (Tone.noteOff n now'
                           (Tone.noteOn n 1 0 now synth))))
               (setActiveKey (store w1) n false)).
  assert (H1 : handle now (KeyDown n) w = Some w1).
  { apply handle_key; try done. cbn [callback]. unfold handleKeyDown.
    rewrite Hsy. by destruct (decide _). }
  assert (Hw1 : reachable w1) by (by eapply reachable_handle).
  assert (Hin : n ∈ activeKeys (store w1)).
  { unfold w1. cbn [store with_store activeKeys setActiveKey].
    apply elem_of_union. left. by apply elem_of_singleton. }
  exists synth, w1, w2.
  split; [exact Hsy |]. split; [exact H1 |]. split; [reflexivity |].
  split; [reflexivity |]. split.
  { apply handle_key; try done. cbn [callback]. unfold handleKeyDown.
    cbn [synthRef w1 with_store with_synth]. by destruct (decide _). }
  split.
  { apply handle_key; try done. cbn [callback]. unfold handleKeyUp.
    rewrite Hsy. by destruct (decide _). }
  split.
  { apply handle_key; try done. cbn [callback]. unfold handleKeyUp.
    cbn [synthRef w1 with_store with_synth]. by destruct (decide _). }
  split; [reflexivity |]. split.
  { unfold w2, w1. cbn [store with_store with_synth activeKeys setActiveKey].
    apply set_eq. intros x.
    rewrite elem_of_difference, elem_of_union, !elem_of_singleton.
    split; [tauto |]. intros Hx. split; [by right |]. by intros ->. }
  split; [| reflexivity].
  destruct (ToneFacts.tone_noteOn_registers n 1 0 now synth) as (Hv & _).
  by destruct (ToneFacts.noteOff_removes_at_once n now' _ _ Hv) as (-> & _).
Qed.

Lemma key_press_and_release_witness :
  reachable (mounted 0) /\ (60 ∉ activeKeys (store (mounted 0)))
  /\ exists w1, handle 0 (KeyDown 60) (mounted 0) = Some w1
                /\ activeKeys (store w1)
                   = {[ 60 ]} ∪ activeKeys (store (mounted 0)).
Proof.
  assert (H1 : reachable (mounted 0)) by constructor.
  assert (H2 : 60 ∉ activeKeys (store (mounted 0))).
  { unfold mounted, commit.
    cbn [playback_deps playback_cleanup with_stepsRef playback_effect store
         isSequencerRunning Store.init negb with_playback].
    rewrite stopAllAudio_activeKeys. apply not_elem_of_empty. }
  split; [exact H1 |]. split; [exact H2 |].
  destruct (key_press_and_release 0 1 60 (mounted 0) H1 H2)
    as (synth & w1 & w2 & _ & Hd & _ & Ha & _).
  by exists w1.
Defined.

End AppLaws.
